(** * A collaborative to-do backend: lists, membership, tasks

    Shallow embedding of the Express route handlers of the backend
    (routes/lists.js, routes/listMembers.js, routes/tasks.js) and of the
    two middlewares of middleware/auth.js over the PostgreSQL schema of
    init.sql.

    Conventions of the embedding.
    - A table with a primary key is a finite map from the key to the rest of
      the row ([lists], [list_members], [tasks], [subtasks]) or a finite set
      of keys ([task_tags]); [users] and [tags], which the handlers search by
      a second column, are row lists.  [created_at] columns are left out, and
      [ORDER BY created_at] is rendered as the order of the serial ids.
    - Every [pool.query] call is one [query] step of a session monad over a
      single database session.  A statement may raise (a constraint of the
      schema, or a failure injected by the fault plan [faults], which names
      the statements that fail by their position in the session).
    - A handler is the function Express calls once the middleware chain has
      run: the principal is the row that [authenticateToken] stored in
      [req.user], route parameters arrive as integers, and the fields of the
      request body have their JSON types ([None] is JavaScript's
      [undefined]).  [completed], which no validator looks at, is
      [undefined], [null] or a boolean; the columns [completed] have no
      NOT NULL and hold NULL ([None]) once a request stores [null].
    - [handle] is a request from its handler on; of the validators of
      middleware/validation.js it has the role whitelist of
      [validateListMember] only, on which the stored roles depend.
      [serve] is the request from the id validator of its route on.  The
      routes of routes/listMembers.js all have [validateId], which looks
      for a parameter [id] that none of them has, so that [serve] never
      reaches their handlers: what is stated of these handlers, and of
      [handle], holds of the handlers as functions, on databases whose
      membership rows may have been stored by other means.
    - The embedding is simpler than the program in four places.  Strings
      are byte strings, and [Js.toLowerCase] and [Js.trim] are the methods
      of JavaScript on ASCII text only ([ascii_only]).  Integers are
      unbounded: an id outside the range of INT ([int4]), for which
      PostgreSQL refuses the statement, is an id like any other here.  A
      [due_date] is kept as the text of the request, which stands for the
      DATE that PostgreSQL reads from it; in an answer it is a [JDate],
      which stands for the instant that node-postgres makes of the DATE.
      [array_agg] has no ORDER BY, so that the order of the tags of a task
      in an answer is PostgreSQL's choice: [tags_agg] lists them in the
      order of the set of links, and what is stated of the tags of an
      answer is stated up to their order ([same_up_to_order]).
    - The middlewares run on the same session as the handlers.  What
      [jwt.verify] does with a token is a parameter: the [userId] of the
      payload, or nothing when the call throws. *)

From stdpp Require Import gmap strings list fin_maps fin_sets sorting.
From Stdlib Require Import ZArith Ascii String.

Local Open Scope string_scope.
Local Open Scope list_scope.
Local Open Scope Z_scope.

(** ** The JavaScript string methods the handlers call (ASCII range) *)

Module Js.

Definition lower_ascii (a : ascii) : ascii :=
  let n := N_of_ascii a in
  if ((65 <=? n) && (n <=? 90))%N then ascii_of_N (n + 32) else a.

(** [s.toLowerCase()]: A to Z become a to z, every other byte stays. *)
Fixpoint toLowerCase (s : string) : string :=
  match s with
  | EmptyString => EmptyString
  | String a r => String (lower_ascii a) (toLowerCase r)
  end.

(** The white space of ASCII: tab, line feed, vertical tab, form feed,
    carriage return and the space. *)
Definition is_white (a : ascii) : bool :=
  let n := N_of_ascii a in
  ((9 <=? n) && (n <=? 13) || (n =? 32))%N.

Fixpoint trimStart (s : string) : string :=
  match s with
  | EmptyString => EmptyString
  | String a r => if is_white a then trimStart r else s
  end.

Fixpoint trimEnd (s : string) : string :=
  match s with
  | EmptyString => EmptyString
  | String a r =>
      match trimEnd r with
      | EmptyString => if is_white a then EmptyString else String a EmptyString
      | r' => String a r'
      end
  end.

(** [s.trim()], for the white space of ASCII. *)
Definition trim (s : string) : string := trimEnd (trimStart s).

(** Truthiness of a string value: every string but the empty one. *)
Definition truthy (s : string) : bool := negb (String.eqb s EmptyString).

(** [!v] for a boolean or [null]: [null] is falsy. *)
Definition lnot (v : option bool) : bool := negb (default false v).

End Js.

(** ** Response bodies *)

#[local] Unset Elimination Schemes.
Inductive Json :=
| JNull
| JBool (b : bool)
| JNum (n : Z)
| JStr (s : string)
| JDate (d : string)   (* the instant that node-postgres makes of the DATE [d] *)
| JArr (l : list Json)
| JObj (l : list (string * Json)).
#[local] Set Elimination Schemes.

Record Response := { status : Z; body : Json }.

Definition json_opt (o : option string) : Json :=
  match o with Some s => JStr s | None => JNull end.

(** A BOOLEAN column, which may hold NULL. *)
Definition json_bool (o : option bool) : Json :=
  match o with Some b => JBool b | None => JNull end.

(** A DATE column: node-postgres hands it over as a [Date], which goes
    out as an instant and not as the text that was stored. *)
Definition json_date (o : option string) : Json :=
  match o with Some d => JDate d | None => JNull end.

(** [res.status(n).json({ error: msg })] *)
Definition error_response (n : Z) (msg : string) : Response :=
  {| status := n; body := JObj [("error", JStr msg)] |}.

(** ** The schema (init.sql) *)

Record User := { user_id : Z; user_name : string; user_email : string }.

Record ListRow := { list_name : string; owner_id : Z }.

Record TaskRow := {
  task_list_id : Z;
  title : string;
  description : option string;
  priority : option string;
  due_date : option string;
  completed : option bool      (* BOOLEAN DEFAULT false, nullable *)
}.

Record SubtaskRow := {
  subtask_task_id : Z;
  subtask_title : string;
  subtask_completed : option bool   (* BOOLEAN DEFAULT false, nullable *)
}.

Record Tag := { tag_id : Z; tag_name : string }.

Record Tables := {
  users : list User;
  lists : gmap Z ListRow;
  list_members : gmap (Z * Z) string;   (* (list_id, user_id) to role *)
  tasks : gmap Z TaskRow;
  subtasks : gmap Z SubtaskRow;
  tags : list Tag;
  task_tags : gset (Z * Z)              (* (task_id, tag_id) *)
}.

(** The SERIAL sequences: the next value each one hands out. *)
Record Seqs := {
  lists_id_seq : Z;
  tasks_id_seq : Z;
  subtasks_id_seq : Z;
  tags_id_seq : Z
}.

Definition set_lists (f : gmap Z ListRow → gmap Z ListRow) (t : Tables) : Tables :=
  {| users := users t; lists := f (lists t); list_members := list_members t;
     tasks := tasks t; subtasks := subtasks t; tags := tags t;
     task_tags := task_tags t |}.

Definition set_list_members (f : gmap (Z * Z) string → gmap (Z * Z) string)
    (t : Tables) : Tables :=
  {| users := users t; lists := lists t; list_members := f (list_members t);
     tasks := tasks t; subtasks := subtasks t; tags := tags t;
     task_tags := task_tags t |}.

Definition set_tasks (f : gmap Z TaskRow → gmap Z TaskRow) (t : Tables) : Tables :=
  {| users := users t; lists := lists t; list_members := list_members t;
     tasks := f (tasks t); subtasks := subtasks t; tags := tags t;
     task_tags := task_tags t |}.

Definition set_subtasks (f : gmap Z SubtaskRow → gmap Z SubtaskRow)
    (t : Tables) : Tables :=
  {| users := users t; lists := lists t; list_members := list_members t;
     tasks := tasks t; subtasks := f (subtasks t); tags := tags t;
     task_tags := task_tags t |}.

Definition set_tags (f : list Tag → list Tag) (t : Tables) : Tables :=
  {| users := users t; lists := lists t; list_members := list_members t;
     tasks := tasks t; subtasks := subtasks t; tags := f (tags t);
     task_tags := task_tags t |}.

Definition set_task_tags (f : gset (Z * Z) → gset (Z * Z)) (t : Tables) : Tables :=
  {| users := users t; lists := lists t; list_members := list_members t;
     tasks := tasks t; subtasks := subtasks t; tags := tags t;
     task_tags := f (task_tags t) |}.

Definition user_exists (uid : Z) (t : Tables) : bool :=
  bool_decide (uid ∈ user_id <$> users t).

Definition tag_exists (gid : Z) (t : Tables) : bool :=
  bool_decide (gid ∈ tag_id <$> tags t).

(** ** One database session *)

Inductive Error :=
| UniqueViolation
| ForeignKeyViolation
| InFailedTransaction
| InjectedFailure
| TypeError.

(** Outside a transaction, inside one (with the tables as they were at
    BEGIN), or inside one that a failed statement has aborted. *)
Inductive TxState :=
| Idle
| Open (snapshot : Tables)
| Aborted (snapshot : Tables).

Record Conn := {
  db : Tables;
  seqs : Seqs;
  tx : TxState;
  issued : nat    (* statements sent so far *)
}.

Inductive Res (A : Type) :=
| Ok (a : A)
| Throw (e : Error).
Arguments Ok {A} a.
Arguments Throw {A} e.

Definition M (A : Type) : Type := Conn → Res A * Conn.

Definition ret {A} (a : A) : M A := λ c, (Ok a, c).

Definition bind {A B} (m : M A) (k : A → M B) : M B :=
  λ c, match m c with
       | (Ok a, c') => k a c'
       | (Throw e, c') => (Throw e, c')
       end.

Definition throw {A} (e : Error) : M A := λ c, (Throw e, c).

(** [try { body } catch (error) { handler }] *)
Definition try_catch {A} (body : M A) (handler : Error → M A) : M A :=
  λ c, match body c with
       | (Ok a, c') => (Ok a, c')
       | (Throw e, c') => handler e c'
       end.

Notation "x <- m ;; k" := (bind m (λ x, k))
  (at level 100, m at next level, right associativity).
Notation "m ;;; k" := (bind m (λ _, k))
  (at level 100, right associativity).

(** A statement: its result and the tables and sequences after it, or the
    error it raises. *)
Definition Stmt (A : Type) : Type := Tables → Seqs → Error + (A * Tables * Seqs).

Definition sent (c : Conn) : Conn :=
  {| db := db c; seqs := seqs c; tx := tx c; issued := S (issued c) |}.

(** A statement that fails inside a transaction aborts it. *)
Definition failed (c : Conn) : Conn :=
  {| db := db c; seqs := seqs c;
     tx := match tx c with Open s => Aborted s | x => x end;
     issued := S (issued c) |}.

Section Session.

(** The fault plan: [faults n] says that the n-th statement of the session
    fails whatever it is. *)
Variable faults : nat → bool.

(** [await pool.query(sql, params)] *)
Definition query {A} (s : Stmt A) : M A :=
  λ c,
    if faults (issued c) then (Throw InjectedFailure, failed c)
    else match tx c with
         | Aborted _ => (Throw InFailedTransaction, sent c)
         | _ =>
             match s (db c) (seqs c) with
             | inr (a, t, q) =>
                 (Ok a, {| db := t; seqs := q; tx := tx c; issued := S (issued c) |})
             | inl e => (Throw e, failed c)
             end
         end.

(** [await pool.query('BEGIN')] *)
Definition BEGIN : M unit :=
  λ c,
    if faults (issued c) then (Throw InjectedFailure, failed c)
    else match tx c with
         | Idle => (Ok (), {| db := db c; seqs := seqs c; tx := Open (db c);
                              issued := S (issued c) |})
         | Open _ => (Ok (), sent c)
         | Aborted _ => (Throw InFailedTransaction, sent c)
         end.

(** [await pool.query('COMMIT')]: committing an aborted transaction rolls
    it back. *)
Definition COMMIT : M unit :=
  λ c,
    if faults (issued c) then (Throw InjectedFailure, failed c)
    else match tx c with
         | Aborted s => (Ok (), {| db := s; seqs := seqs c; tx := Idle;
                                   issued := S (issued c) |})
         | _ => (Ok (), {| db := db c; seqs := seqs c; tx := Idle;
                           issued := S (issued c) |})
         end.

(** [await pool.query('ROLLBACK')]: the tables return to the snapshot, the
    sequences do not. *)
Definition ROLLBACK : M unit :=
  λ c,
    if faults (issued c) then (Throw InjectedFailure, failed c)
    else match tx c with
         | Open s | Aborted s =>
             (Ok (), {| db := s; seqs := seqs c; tx := Idle;
                        issued := S (issued c) |})
         | Idle => (Ok (), sent c)
         end.

(** The outer [try { ... } catch (error) { res.status(500)... }] of every
    route. *)
Definition route (body : M Response) : Conn → Response * Conn :=
  λ c, match body c with
       | (Ok r, c') => (r, c')
       | (Throw _, c') => (error_response 500 "Internal server error", c')
       end.

End Session.

(** ** Statements shared by the routers

    A statement compares its id parameters with the INT columns as
    integers.  For a parameter outside the range of INT PostgreSQL raises
    instead (numeric value out of range); no statement here does. *)

Definition select {A} (f : Tables → A) : Stmt A := λ t q, inr (f t, t, q).

(** Rows of a keyed table in the order of their serial ids. *)
Definition by_id {A} (m : gmap Z A) : list (Z * A) :=
  @merge_sort _ (λ a b, a.1 ≤ b.1) (λ a b, decide (a.1 ≤ b.1)) (map_to_list m).

(** [SELECT id FROM lists WHERE id = $1 AND owner_id = $2] *)
Definition select_owned_list (listId userId : Z) (t : Tables) : list Z :=
  match lists t !! listId with
  | Some l => if bool_decide (owner_id l = userId) then [listId] else []
  | None => []
  end.

(** [SELECT id, name, email FROM users WHERE email = $1] *)
Definition select_users_by_email (email : string) (t : Tables) : list User :=
  filter (λ u, user_email u = email) (users t).

(** [SELECT role FROM list_members WHERE list_id = $1 AND user_id = $2] *)
Definition select_member_role (listId userId : Z) (t : Tables) : list string :=
  match list_members t !! (listId, userId) with
  | Some r => [r]
  | None => []
  end.

(** [INSERT INTO list_members (list_id, user_id, role) VALUES ($1, $2, $3)] *)
Definition insert_list_member (listId userId : Z) (role : string) : Stmt unit :=
  λ t q,
    match list_members t !! (listId, userId) with
    | Some _ => inl UniqueViolation
    | None =>
        if bool_decide (is_Some (lists t !! listId)) && user_exists userId t
        then inr ((), set_list_members (insert (listId, userId) role) t, q)
        else inl ForeignKeyViolation
    end.

(** [DELETE FROM list_members WHERE list_id = $1 AND user_id = $2], with
    its [rowCount]. *)
Definition delete_list_member (listId userId : Z) : Stmt nat :=
  λ t q,
    match list_members t !! (listId, userId) with
    | Some _ => inr (1%nat, set_list_members (delete (listId, userId)) t, q)
    | None => inr (0%nat, t, q)
    end.

(** The row of the two permission queries: [l.id, l.owner_id, lm.role]
    (the owner-only query selects the id alone). *)
Record PermissionRow := {
  pr_id : Z;
  pr_owner_id : option Z;
  pr_role : option string
}.

(** [... FROM lists l LEFT JOIN list_members lm ON l.id = lm.list_id AND
    lm.user_id = $2 WHERE l.id = $1 AND (l.owner_id = $2 OR lm.role = 'admin')] *)
Definition select_owner_or_admin (listId userId : Z) (t : Tables)
    : list PermissionRow :=
  match lists t !! listId with
  | Some l =>
      let lm := list_members t !! (listId, userId) in
      if bool_decide (owner_id l = userId) || bool_decide (lm = Some "admin")
      then [ {| pr_id := listId; pr_owner_id := Some (owner_id l); pr_role := lm |} ]
      else []
  | None => []
  end.

(** [... FROM lists l LEFT JOIN list_members lm ON l.id = lm.list_id AND
    lm.user_id = $1 WHERE l.id = $2 AND (l.owner_id = $1 OR lm.user_id = $1)] *)
Definition select_owner_or_member (userId listId : Z) (t : Tables)
    : list PermissionRow :=
  match lists t !! listId with
  | Some l =>
      let lm := list_members t !! (listId, userId) in
      if bool_decide (owner_id l = userId) || bool_decide (is_Some lm)
      then [ {| pr_id := listId; pr_owner_id := Some (owner_id l); pr_role := lm |} ]
      else []
  | None => []
  end.

(** The tags joined to a task through [task_tags]. *)
Definition tags_of_task (taskId : Z) (t : Tables) : list Tag :=
  p ← elements (filter (λ p, p.1 = taskId) (task_tags t));
  filter (λ g, tag_id g = p.2) (tags t).

(** [array_agg(json_build_object('id', tag.id, 'name', tag.name)) FILTER
    (WHERE tag.name IS NOT NULL)]: NULL when the task has no tag.  The
    aggregate has no ORDER BY: the order of the elements, here that of the
    set of links, is not the program's to promise. *)
Definition tags_agg (taskId : Z) (t : Tables) : Json :=
  match tags_of_task taskId t with
  | [] => JNull
  | gs => JArr ((λ g, JObj [("id", JNum (tag_id g)); ("name", JStr (tag_name g))]) <$> gs)
  end.

(** [x || []] *)
Definition or_empty_array (j : Json) : Json :=
  match j with JNull => JArr [] | _ => j end.

Definition subtask_json (with_task_id : bool) (kv : Z * SubtaskRow) : Json :=
  JObj ([("id", JNum kv.1)]
        ++ (if with_task_id then [("task_id", JNum (subtask_task_id kv.2))] else [])
        ++ [("title", JStr (subtask_title kv.2));
            ("completed", json_bool (subtask_completed kv.2))]).

(** The columns of a task row, with or without [list_id]. *)
Definition task_columns (with_list_id : bool) (kv : Z * TaskRow)
    : list (string * Json) :=
  [("id", JNum kv.1)]
  ++ (if with_list_id then [("list_id", JNum (task_list_id kv.2))] else [])
  ++ [("title", JStr (title kv.2));
      ("description", json_opt (description kv.2));
      ("priority", json_opt (priority kv.2));
      ("due_date", json_date (due_date kv.2));
      ("completed", json_bool (completed kv.2))].

(** Deleting a task takes its subtasks and its tag links with it
    (ON DELETE CASCADE). *)
Definition delete_task_cascade (taskId : Z) (t : Tables) : Tables :=
  {| users := users t; lists := lists t; list_members := list_members t;
     tasks := delete taskId (tasks t);
     subtasks := filter (λ kv, subtask_task_id kv.2 ≠ taskId) (subtasks t);
     tags := tags t;
     task_tags := filter (λ p, p.1 ≠ taskId) (task_tags t) |}.

(** Deleting a list takes its memberships and its tasks, and with the
    tasks their subtasks and tag links. *)
Definition delete_list_cascade (listId : Z) (t : Tables) : Tables :=
  let gone (taskId : Z) : Prop := task_list_id <$> tasks t !! taskId = Some listId in
  {| users := users t;
     lists := delete listId (lists t);
     list_members := filter (λ kv, kv.1.1 ≠ listId) (list_members t);
     tasks := filter (λ kv, task_list_id kv.2 ≠ listId) (tasks t);
     subtasks := filter (λ kv, ¬ gone (subtask_task_id kv.2)) (subtasks t);
     tags := tags t;
     task_tags := filter (λ p, ¬ gone p.1) (task_tags t) |}.

(** ** routes/lists.js *)

Module Lists.

(** The row of the access query of [GET /:id]. *)
Record AccessRow := {
  row_id : Z;
  row_name : string;
  row_owner_id : Z;
  owner_name : string;
  user_role : option string
}.

(** [SELECT l.id, l.name, l.owner_id, l.created_at, u.name as owner_name,
       CASE WHEN l.owner_id = $1 THEN 'owner'
            WHEN lm.role IS NOT NULL THEN lm.role ELSE NULL END as user_role
     FROM lists l JOIN users u ON l.owner_id = u.id
     LEFT JOIN list_members lm ON l.id = lm.list_id AND lm.user_id = $1
     WHERE l.id = $2 AND (l.owner_id = $1 OR lm.user_id = $1)] *)
Definition accessCheck (userId listId : Z) (t : Tables) : list AccessRow :=
  match lists t !! listId with
  | Some l =>
      let lm := list_members t !! (listId, userId) in
      if bool_decide (owner_id l = userId) || bool_decide (is_Some lm)
      then (λ u, {| row_id := listId; row_name := list_name l;
                    row_owner_id := owner_id l; owner_name := user_name u;
                    user_role := if bool_decide (owner_id l = userId)
                                 then Some "owner" else lm |})
           <$> filter (λ u, user_id u = owner_id l) (users t)
      else []
  | None => []
  end.

(** The role the access query reports: [rows[0].user_role], and no role
    when the query returns no row (the handler then answers 404). *)
Definition effectiveRole (userId listId : Z) (t : Tables) : option string :=
  match accessCheck userId listId t with
  | r :: _ => user_role r
  | [] => None
  end.

(** [SELECT t.id, ..., array_agg(...) as tags FROM tasks t LEFT JOIN
    task_tags tt ... LEFT JOIN tags tag ... WHERE t.list_id = $1 GROUP BY ...
    ORDER BY t.created_at DESC] *)
Definition select_tasks_of_list (listId : Z) (t : Tables)
    : list (Z * TaskRow * Json) :=
  (λ kv, (kv, tags_agg kv.1 t))
  <$> reverse (filter (λ kv, task_list_id kv.2 = listId) (by_id (tasks t))).

(** [SELECT id, task_id, title, completed, created_at FROM subtasks
     WHERE task_id = ANY($1) ORDER BY created_at ASC] *)
Definition select_subtasks_of_tasks (taskIds : list Z) (t : Tables)
    : list (Z * SubtaskRow) :=
  filter (λ s, subtask_task_id s.2 ∈ taskIds) (by_id (subtasks t)).

(** The handler groups the subtasks by [task_id] and gives each task
    [tags: task.tags || []] and [subtasks: subtasksByTask[task.id] || []]. *)
Definition tasksWithSubtasks (tasksResult : list (Z * TaskRow * Json))
    (subtasks : list (Z * SubtaskRow)) : list Json :=
  (λ row, JObj (task_columns false row.1
                ++ [("tags", or_empty_array row.2);
                    ("subtasks",
                     JArr (subtask_json true <$>
                           filter (λ s, subtask_task_id s.2 = row.1.1) subtasks))]))
  <$> tasksResult.

(** [INSERT INTO lists (name, owner_id) VALUES ($1, $2) RETURNING ...] *)
Definition insert_list (name : string) (ownerId : Z) : Stmt (Z * ListRow) :=
  λ t q,
    let newId := lists_id_seq q in
    let row := {| list_name := name; owner_id := ownerId |} in
    match lists t !! newId with
    | Some _ => inl UniqueViolation
    | None =>
        if user_exists ownerId t
        then inr ((newId, row), set_lists (insert newId row) t,
                  {| lists_id_seq := newId + 1; tasks_id_seq := tasks_id_seq q;
                     subtasks_id_seq := subtasks_id_seq q;
                     tags_id_seq := tags_id_seq q |})
        else inl ForeignKeyViolation
    end.

(** [UPDATE lists SET name = $1 WHERE id = $2 RETURNING ...] *)
Definition update_list_name (name : string) (listId : Z) : Stmt (list (Z * ListRow)) :=
  λ t q,
    match lists t !! listId with
    | Some l =>
        let row := {| list_name := name; owner_id := owner_id l |} in
        inr ([(listId, row)], set_lists (insert listId row) t, q)
    | None => inr ([], t, q)
    end.

(** [DELETE FROM lists WHERE id = $1] *)
Definition delete_list (listId : Z) : Stmt unit :=
  λ t q, inr ((), delete_list_cascade listId t, q).

Definition list_columns (kv : Z * ListRow) : list (string * Json) :=
  [("id", JNum kv.1); ("name", JStr (list_name kv.2));
   ("owner_id", JNum (owner_id kv.2))].

Section Handlers.

Variable faults : nat → bool.
#[local] Abbreviation pool_query := (query faults).

(** [GET /:id] *)
Definition getList (user : User) (listId : Z) : Conn → Response * Conn :=
  route (
    rows <- pool_query (select (accessCheck (user_id user) listId)) ;;
    match rows with
    | [] => ret (error_response 404 "List not found or access denied")
    | list :: _ =>
        tasksResult <- pool_query (select (select_tasks_of_list listId)) ;;
        let taskIds := (λ row, row.1.1) <$> tasksResult in
        subtasks <- (match taskIds with
                     | [] => ret []
                     | _ => pool_query (select (select_subtasks_of_tasks taskIds))
                     end) ;;
        ret {| status := 200;
               body := JObj [("list",
                 JObj [("id", JNum (row_id list)); ("name", JStr (row_name list));
                       ("owner_id", JNum (row_owner_id list));
                       ("owner_name", JStr (owner_name list));
                       ("user_role", json_opt (user_role list));
                       ("tasks", JArr (tasksWithSubtasks tasksResult subtasks))])] |}
    end).

(** [POST /] *)
Definition createList (user : User) (name : string) : Conn → Response * Conn :=
  route (
    list <- pool_query (insert_list name (user_id user)) ;;
    ret {| status := 201;
           body := JObj [("message", JStr "List created successfully");
                         ("list", JObj (list_columns list
                                        ++ [("owner_name", JStr (user_name user));
                                            ("user_role", JStr "owner")]))] |}).

(** [PUT /:id] *)
Definition renameList (user : User) (listId : Z) (name : string)
    : Conn → Response * Conn :=
  route (
    rows <- pool_query (select (select_owner_or_admin listId (user_id user))) ;;
    match rows with
    | [] => ret (error_response 403
                   "Permission denied - only owners and admins can update lists")
    | _ =>
        result <- pool_query (update_list_name name listId) ;;
        ret {| status := 200;
               body := JObj ([("message", JStr "List updated successfully")]
                             ++ match result with
                                | r :: _ => [("list", JObj (list_columns r))]
                                | [] => []
                                end) |}
    end).

(** [DELETE /:id] *)
Definition deleteList (user : User) (listId : Z) : Conn → Response * Conn :=
  route (
    ownerCheck <- pool_query (select (select_owned_list listId (user_id user))) ;;
    match ownerCheck with
    | [] => ret (error_response 403
                   "Permission denied - only list owners can delete lists")
    | _ =>
        pool_query (delete_list listId) ;;;
        ret {| status := 200;
               body := JObj [("message", JStr "List deleted successfully")] |}
    end).

End Handlers.

End Lists.

(** ** routes/listMembers.js *)

Module ListMembers.

(** [UPDATE list_members SET role = $1 WHERE list_id = $2 AND user_id = $3
     RETURNING (SELECT name FROM users WHERE id = $3) as name,
               (SELECT email FROM users WHERE id = $3) as email, role] *)
Definition update_member_role (role : string) (listId userId : Z)
    : Stmt (list (option string * option string * string)) :=
  λ t q,
    match list_members t !! (listId, userId) with
    | Some _ =>
        let u := head (filter (λ u, user_id u = userId) (users t)) in
        inr ([(user_name <$> u, user_email <$> u, role)],
             set_list_members (insert (listId, userId) role) t, q)
    | None => inr ([], t, q)
    end.

(** [UPDATE lists SET owner_id = $1 WHERE id = $2] *)
Definition update_list_owner (newOwnerId listId : Z) : Stmt unit :=
  λ t q,
    match lists t !! listId with
    | Some l =>
        if user_exists newOwnerId t
        then inr ((), set_lists (insert listId
                        {| list_name := list_name l; owner_id := newOwnerId |}) t, q)
        else inl ForeignKeyViolation
    | None => inr ((), t, q)
    end.

Section Handlers.

Variable faults : nat → bool.
#[local] Abbreviation pool_query := (query faults).

(** The helper of the router: the list row when the user is its owner
    (or, unless [requireOwner], one of its admins), [null] otherwise. *)
Definition checkListPermission (userId listId : Z) (requireOwner : bool)
    : M (option PermissionRow) :=
  rows <- pool_query (select (λ t,
            if requireOwner
            then (λ i, {| pr_id := i; pr_owner_id := None; pr_role := None |})
                 <$> select_owned_list listId userId t
            else select_owner_or_admin listId userId t)) ;;
  ret (head rows).

(** [POST /:listId/members] *)
Definition addMember (user : User) (listId : Z) (email : string)
    (role_field : option string) : Conn → Response * Conn :=
  route (
    let role := default "member" role_field in
    permission <- checkListPermission (user_id user) listId false ;;
    match permission with
    | None => ret (error_response 403
        "Permission denied - only list owners and admins can add members")
    | Some _ =>
        userResult <- pool_query (select (select_users_by_email email)) ;;
        match userResult with
        | [] => ret (error_response 404 "User not found with this email address")
        | userToAdd :: _ =>
            ownerCheck <- pool_query
              (select (select_owned_list listId (user_id userToAdd))) ;;
            match ownerCheck with
            | _ :: _ => ret (error_response 409 "User is already the owner of this list")
            | [] =>
                memberCheck <- pool_query
                  (select (select_member_role listId (user_id userToAdd))) ;;
                match memberCheck with
                | _ :: _ =>
                    ret (error_response 409 "User is already a member of this list")
                | [] =>
                    pool_query (insert_list_member listId (user_id userToAdd) role) ;;;
                    ret {| status := 201;
                           body := JObj [("message", JStr "Member added successfully");
                                         ("member",
                                          JObj [("id", JNum (user_id userToAdd));
                                                ("name", JStr (user_name userToAdd));
                                                ("email", JStr (user_email userToAdd));
                                                ("role", JStr role)])] |}
                end
            end
        end
    end).

(** The text of the 400 answer of the role update, which quotes the two
    role names. *)
Definition role_message : string :=
  let q := String (ascii_of_nat 34) EmptyString in
  "Role must be either " +:+ q +:+ "member" +:+ q +:+ " or "
  +:+ q +:+ "admin" +:+ q.

(** [['member', 'admin'].includes(role)] *)
Definition is_role (role : string) : bool :=
  bool_decide (role ∈ ["member"; "admin"]).

(** [PUT /:listId/members/:userId] *)
Definition updateMemberRole (user : User) (listId userId : Z)
    (role_field : option string) : Conn → Response * Conn :=
  route (
    match role_field with
    | Some role =>
        if negb (Js.truthy role) || negb (is_role role)
        then ret (error_response 400 role_message)
        else
          permission <- checkListPermission (user_id user) listId false ;;
          match permission with
          | None => ret (error_response 403
              "Permission denied - only list owners and admins can update member roles")
          | Some _ =>
              memberCheck <- pool_query (select (select_member_role listId userId)) ;;
              match memberCheck with
              | [] => ret (error_response 404 "User is not a member of this list")
              | _ :: _ =>
                  result <- pool_query (update_member_role role listId userId) ;;
                  ret {| status := 200;
                         body := JObj [("message", JStr "Member role updated successfully");
                                       ("member",
                                        JObj ([("id", JNum userId)]
                                              ++ match result with
                                                 | (n, e, r) :: _ =>
                                                     [("name", json_opt n);
                                                      ("email", json_opt e);
                                                      ("role", JStr r)]
                                                 | [] => []
                                                 end))] |}
              end
          end
    | None => ret (error_response 400 role_message)
    end).

(** [DELETE /:listId/members/:userId] *)
Definition removeMember (user : User) (listId userId : Z) : Conn → Response * Conn :=
  route (
    permission <- checkListPermission (user_id user) listId false ;;
    match permission with
    | None => ret (error_response 403
        "Permission denied - only list owners and admins can remove members")
    | Some _ =>
        ownerCheck <- pool_query (select (select_owned_list listId userId)) ;;
        match ownerCheck with
        | _ :: _ => ret (error_response 400 "Cannot remove the list owner")
        | [] =>
            rowCount <- pool_query (delete_list_member listId userId) ;;
            if bool_decide (rowCount = 0%nat)
            then ret (error_response 404 "User is not a member of this list")
            else ret {| status := 200;
                        body := JObj [("message", JStr "Member removed successfully")] |}
        end
    end).

(** [DELETE /:listId/leave] *)
Definition leaveList (user : User) (listId : Z) : Conn → Response * Conn :=
  route (
    ownerCheck <- pool_query (select (select_owned_list listId (user_id user))) ;;
    match ownerCheck with
    | _ :: _ => ret (error_response 400
        "List owners cannot leave their own lists. Transfer ownership or delete the list instead.")
    | [] =>
        rowCount <- pool_query (delete_list_member listId (user_id user)) ;;
        if bool_decide (rowCount = 0%nat)
        then ret (error_response 404 "You are not a member of this list")
        else ret {| status := 200;
                    body := JObj [("message", JStr "Successfully left the list")] |}
    end).

(** [PUT /:listId/transfer-ownership] *)
Definition transferOwnership (user : User) (listId : Z) (email_field : option string)
    : Conn → Response * Conn :=
  route (
    match email_field with
    | Some email =>
        if negb (Js.truthy email) then ret (error_response 400 "Email is required")
        else
          ownerCheck <- checkListPermission (user_id user) listId true ;;
          match ownerCheck with
          | None => ret (error_response 403
              "Permission denied - only list owners can transfer ownership")
          | Some _ =>
              newOwnerResult <- pool_query
                (select (select_users_by_email (Js.toLowerCase email))) ;;
              match newOwnerResult with
              | [] => ret (error_response 404 "User not found with this email address")
              | newOwner :: _ =>
                  if bool_decide (user_id newOwner = user_id user)
                  then ret (error_response 400 "You are already the owner of this list")
                  else
                    BEGIN faults ;;;
                    try_catch
                      (pool_query (delete_list_member listId (user_id newOwner)) ;;;
                       pool_query (insert_list_member listId (user_id user) "admin") ;;;
                       pool_query (update_list_owner (user_id newOwner) listId) ;;;
                       COMMIT faults ;;;
                       ret {| status := 200;
                              body := JObj [("message",
                                             JStr "Ownership transferred successfully");
                                            ("new_owner",
                                             JObj [("id", JNum (user_id newOwner));
                                                   ("name", JStr (user_name newOwner));
                                                   ("email", JStr (user_email newOwner))])] |})
                      (λ error, ROLLBACK faults ;;; throw error)
              end
          end
    | None => ret (error_response 400 "Email is required")
    end).

End Handlers.

End ListMembers.

(** ** routes/tasks.js *)

Module Tasks.

(** [SELECT t.id, t.list_id, ..., array_agg(...) as tags FROM tasks t
     LEFT JOIN task_tags tt ... LEFT JOIN tags tag ... WHERE t.id = $1
     GROUP BY ...] *)
Definition select_task_with_tags (taskId : Z) (t : Tables)
    : list (Z * TaskRow * Json) :=
  match tasks t !! taskId with
  | Some row => [((taskId, row), tags_agg taskId t)]
  | None => []
  end.

(** [SELECT list_id, completed FROM tasks WHERE id = $1] *)
Definition select_task (taskId : Z) (t : Tables) : list TaskRow :=
  match tasks t !! taskId with
  | Some row => [row]
  | None => []
  end.

(** [SELECT id, title, completed, created_at FROM subtasks
     WHERE task_id = $1 ORDER BY created_at ASC] *)
Definition select_subtasks_of_task (taskId : Z) (t : Tables)
    : list (Z * SubtaskRow) :=
  filter (λ s, subtask_task_id s.2 = taskId) (by_id (subtasks t)).

(** [SELECT s.*, t.list_id FROM subtasks s JOIN tasks t ON s.task_id = t.id
     WHERE s.id = $1] *)
Definition select_subtask_with_list (subtaskId : Z) (t : Tables)
    : list (SubtaskRow * Z) :=
  match subtasks t !! subtaskId with
  | Some s =>
      match tasks t !! subtask_task_id s with
      | Some row => [(s, task_list_id row)]
      | None => []
      end
  | None => []
  end.

(** [INSERT INTO tasks (list_id, title, description, priority, due_date)
     VALUES ($1, ..., $5) RETURNING *]: [completed] takes its default. *)
Definition insert_task (list_id : Z) (title : string)
    (description priority due_date : option string) : Stmt (Z * TaskRow) :=
  λ t q,
    let newId := tasks_id_seq q in
    let row := {| task_list_id := list_id; title := title;
                  description := description; priority := priority;
                  due_date := due_date; completed := Some false |} in
    match tasks t !! newId with
    | Some _ => inl UniqueViolation
    | None =>
        if bool_decide (is_Some (lists t !! list_id))
        then inr ((newId, row), set_tasks (insert newId row) t,
                  {| lists_id_seq := lists_id_seq q; tasks_id_seq := newId + 1;
                     subtasks_id_seq := subtasks_id_seq q;
                     tags_id_seq := tags_id_seq q |})
        else inl ForeignKeyViolation
    end.

(** [INSERT INTO tags (name) VALUES ($1)
     ON CONFLICT (name) DO UPDATE SET name = EXCLUDED.name RETURNING id]:
    the id of the row that carries the name, inserted if there is none.
    The sequence moves on in both cases. *)
Definition upsert_tag (name : string) : Stmt Z :=
  λ t q,
    let newId := tags_id_seq q in
    let q' := {| lists_id_seq := lists_id_seq q; tasks_id_seq := tasks_id_seq q;
                 subtasks_id_seq := subtasks_id_seq q; tags_id_seq := newId + 1 |} in
    match filter (λ g, tag_name g = name) (tags t) with
    | g :: _ => inr (tag_id g, t, q')
    | [] =>
        if tag_exists newId t then inl UniqueViolation
        else inr (newId,
                  set_tags (λ l, l ++ [ {| tag_id := newId; tag_name := name |} ]) t, q')
    end.

(** [INSERT INTO task_tags (task_id, tag_id) VALUES ($1, $2)], with or
    without [ON CONFLICT DO NOTHING]. *)
Definition insert_task_tag (on_conflict_do_nothing : bool) (taskId tagId : Z)
    : Stmt unit :=
  λ t q,
    if bool_decide ((taskId, tagId) ∈ task_tags t)
    then if on_conflict_do_nothing then inr ((), t, q) else inl UniqueViolation
    else if bool_decide (is_Some (tasks t !! taskId)) && tag_exists tagId t
         then inr ((), set_task_tags (union {[ (taskId, tagId) ]}) t, q)
         else inl ForeignKeyViolation.

(** [DELETE FROM task_tags WHERE task_id = $1] *)
Definition delete_task_tags (taskId : Z) : Stmt unit :=
  λ t q, inr ((), set_task_tags (filter (λ p, p.1 ≠ taskId)) t, q).

(** [UPDATE tasks SET title = $1, description = $2, priority = $3,
     due_date = $4, completed = $5 WHERE id = $6 RETURNING *] *)
Definition update_task (title : string) (description priority due_date : option string)
    (completed : option bool) (taskId : Z) : Stmt (list (Z * TaskRow)) :=
  λ t q,
    match tasks t !! taskId with
    | Some old =>
        let row := {| task_list_id := task_list_id old; title := title;
                      description := description; priority := priority;
                      due_date := due_date; completed := completed |} in
        inr ([(taskId, row)], set_tasks (insert taskId row) t, q)
    | None => inr ([], t, q)
    end.

(** [UPDATE tasks SET completed = $1 WHERE id = $2 RETURNING *] *)
Definition update_task_completed (completed : option bool) (taskId : Z)
    : Stmt (list (Z * TaskRow)) :=
  λ t q,
    match tasks t !! taskId with
    | Some old =>
        let row := {| task_list_id := task_list_id old; title := title old;
                      description := description old; priority := priority old;
                      due_date := due_date old; completed := completed |} in
        inr ([(taskId, row)], set_tasks (insert taskId row) t, q)
    | None => inr ([], t, q)
    end.

(** [DELETE FROM tasks WHERE id = $1] *)
Definition delete_task (taskId : Z) : Stmt unit :=
  λ t q, inr ((), delete_task_cascade taskId t, q).

(** [INSERT INTO subtasks (task_id, title) VALUES ($1, $2) RETURNING *] *)
Definition insert_subtask (taskId : Z) (title : string) : Stmt (Z * SubtaskRow) :=
  λ t q,
    let newId := subtasks_id_seq q in
    let row := {| subtask_task_id := taskId; subtask_title := title;
                  subtask_completed := Some false |} in
    match subtasks t !! newId with
    | Some _ => inl UniqueViolation
    | None =>
        if bool_decide (is_Some (tasks t !! taskId))
        then inr ((newId, row), set_subtasks (insert newId row) t,
                  {| lists_id_seq := lists_id_seq q; tasks_id_seq := tasks_id_seq q;
                     subtasks_id_seq := newId + 1; tags_id_seq := tags_id_seq q |})
        else inl ForeignKeyViolation
    end.

(** [UPDATE subtasks SET title = $1, completed = $2 WHERE id = $3 RETURNING *] *)
Definition update_subtask (title : string) (completed : option bool) (subtaskId : Z)
    : Stmt (list (Z * SubtaskRow)) :=
  λ t q,
    match subtasks t !! subtaskId with
    | Some old =>
        let row := {| subtask_task_id := subtask_task_id old;
                      subtask_title := title;
                      subtask_completed := completed |} in
        inr ([(subtaskId, row)], set_subtasks (insert subtaskId row) t, q)
    | None => inr ([], t, q)
    end.

(** [UPDATE subtasks SET completed = $1 WHERE id = $2 RETURNING *] *)
Definition update_subtask_completed (completed : option bool) (subtaskId : Z)
    : Stmt (list (Z * SubtaskRow)) :=
  λ t q,
    match subtasks t !! subtaskId with
    | Some old =>
        let row := {| subtask_task_id := subtask_task_id old;
                      subtask_title := subtask_title old;
                      subtask_completed := completed |} in
        inr ([(subtaskId, row)], set_subtasks (insert subtaskId row) t, q)
    | None => inr ([], t, q)
    end.

(** [DELETE FROM subtasks WHERE id = $1] *)
Definition delete_subtask (subtaskId : Z) : Stmt unit :=
  λ t q, inr ((), set_subtasks (delete subtaskId) t, q).

(** [{ ...row, tags: row.tags || [] }] of a [SELECT t.*, array_agg(...)] row *)
Definition task_with_tags_json (row : Z * TaskRow * Json) : Json :=
  JObj (task_columns true row.1 ++ [("tags", or_empty_array row.2)]).

Section Handlers.

Variable faults : nat → bool.
#[local] Abbreviation pool_query := (query faults).

(** The helper of the router: the list row when the user owns the list
    or is one of its members, [null] otherwise. *)
Definition checkListAccess (userId listId : Z) : M (option PermissionRow) :=
  rows <- pool_query (select (select_owner_or_member userId listId)) ;;
  ret (head rows).

(** [GET /:id] *)
Definition getTask (user : User) (taskId : Z) : Conn → Response * Conn :=
  route (
    taskResult <- pool_query (select (select_task_with_tags taskId)) ;;
    match taskResult with
    | [] => ret (error_response 404 "Task not found")
    | task :: _ =>
        listAccess <- checkListAccess (user_id user) (task_list_id task.1.2) ;;
        match listAccess with
        | None => ret (error_response 404 "Task not found or access denied")
        | Some _ =>
            subtasksResult <- pool_query (select (select_subtasks_of_task taskId)) ;;
            ret {| status := 200;
                   body := JObj [("task",
                     JObj (task_columns true task.1
                           ++ [("tags", or_empty_array task.2);
                               ("subtasks",
                                JArr (subtask_json false <$> subtasksResult))]))] |}
        end
    end).

(** The tag loop of [POST /]: every name is trimmed and lower-cased,
    upserted, and linked with [ON CONFLICT DO NOTHING]. *)
Fixpoint createTask_tags (taskId : Z) (tags : list string) : M unit :=
  match tags with
  | [] => ret ()
  | tagName :: rest =>
      tagId <- pool_query (upsert_tag (Js.toLowerCase (Js.trim tagName))) ;;
      pool_query (insert_task_tag true taskId tagId) ;;;
      createTask_tags taskId rest
  end.

(** [POST /] *)
Definition createTask (user : User) (list_id : Z) (title : string)
    (description priority due_date : option string) (tags : option (list string))
    : Conn → Response * Conn :=
  route (
    listAccess <- checkListAccess (user_id user) list_id ;;
    match listAccess with
    | None => ret (error_response 404 "List not found or access denied")
    | Some _ =>
        BEGIN faults ;;;
        try_catch
          (task <- pool_query (insert_task list_id title description priority due_date) ;;
           (match tags with
            | Some names => createTask_tags task.1 names
            | None => ret ()
            end) ;;;
           COMMIT faults ;;;
           finalTaskResult <- pool_query (select (select_task_with_tags task.1)) ;;
           match finalTaskResult with
           | row :: _ =>
               ret {| status := 201;
                      body := JObj [("message", JStr "Task created successfully");
                                    ("task", task_with_tags_json row)] |}
           | [] => throw TypeError
           end)
          (λ error, ROLLBACK faults ;;; throw error)
    end).

(** The tag loop of [PUT /:id]: names that are empty or blank are
    skipped; the link is a plain INSERT. *)
Fixpoint updateTask_tags (taskId : Z) (tags : list string) : M unit :=
  match tags with
  | [] => ret ()
  | tagName :: rest =>
      (if Js.truthy tagName && Js.truthy (Js.trim tagName)
       then
         tagId <- pool_query (upsert_tag (Js.toLowerCase (Js.trim tagName))) ;;
         pool_query (insert_task_tag false taskId tagId)
       else ret ()) ;;;
      updateTask_tags taskId rest
  end.

(** [PUT /:id].  [completed] is [None] when the body has no such field,
    [Some None] when it is [null]. *)
Definition updateTask (user : User) (taskId : Z) (title : string)
    (description priority due_date : option string)
    (completed : option (option bool))
    (tags : option (list string)) : Conn → Response * Conn :=
  route (
    taskResult <- pool_query (select (select_task taskId)) ;;
    match taskResult with
    | [] => ret (error_response 404 "Task not found")
    | task :: _ =>
        listAccess <- checkListAccess (user_id user) (task_list_id task) ;;
        match listAccess with
        | None => ret (error_response 404 "Task not found or access denied")
        | Some _ =>
            BEGIN faults ;;;
            try_catch
              (pool_query (update_task title description priority due_date
                             (match completed with
                              | Some v => v
                              | None => Some false
                              end)
                             taskId) ;;;
               (match tags with
                | Some names =>
                    pool_query (delete_task_tags taskId) ;;;
                    updateTask_tags taskId names
                | None => ret ()
                end) ;;;
               COMMIT faults ;;;
               finalTaskResult <- pool_query (select (select_task_with_tags taskId)) ;;
               match finalTaskResult with
               | row :: _ =>
                   ret {| status := 200;
                          body := JObj [("message", JStr "Task updated successfully");
                                        ("task", task_with_tags_json row)] |}
               | [] => throw TypeError
               end)
              (λ error, ROLLBACK faults ;;; throw error)
        end
    end).

(** [res.json({ message, <key>: rows[0] })]: a missing row leaves the key
    out of the JSON text. *)
Definition message_with_row (message key : string) (row : option Json) : Response :=
  {| status := 200;
     body := JObj ([("message", JStr message)]
                   ++ match row with Some j => [(key, j)] | None => [] end) |}.

(** [PATCH /:id/toggle] *)
Definition toggleTask (user : User) (taskId : Z) : Conn → Response * Conn :=
  route (
    taskResult <- pool_query (select (select_task taskId)) ;;
    match taskResult with
    | [] => ret (error_response 404 "Task not found")
    | task :: _ =>
        listAccess <- checkListAccess (user_id user) (task_list_id task) ;;
        match listAccess with
        | None => ret (error_response 404 "Task not found or access denied")
        | Some _ =>
            updateResult <- pool_query
              (update_task_completed (Some (Js.lnot (completed task))) taskId) ;;
            ret (message_with_row "Task completion toggled successfully" "task"
                   ((λ r, JObj (task_columns true r)) <$> head updateResult))
        end
    end).

(** [DELETE /:id] *)
Definition deleteTask (user : User) (taskId : Z) : Conn → Response * Conn :=
  route (
    taskResult <- pool_query (select (select_task taskId)) ;;
    match taskResult with
    | [] => ret (error_response 404 "Task not found")
    | task :: _ =>
        listAccess <- checkListAccess (user_id user) (task_list_id task) ;;
        match listAccess with
        | None => ret (error_response 404 "Task not found or access denied")
        | Some _ =>
            pool_query (delete_task taskId) ;;;
            ret {| status := 200;
                   body := JObj [("message", JStr "Task deleted successfully")] |}
        end
    end).

(** [POST /:taskId/subtasks] *)
Definition createSubtask (user : User) (taskId : Z) (title : string)
    : Conn → Response * Conn :=
  route (
    taskResult <- pool_query (select (select_task taskId)) ;;
    match taskResult with
    | [] => ret (error_response 404 "Task not found")
    | task :: _ =>
        listAccess <- checkListAccess (user_id user) (task_list_id task) ;;
        match listAccess with
        | None => ret (error_response 404 "Task not found or access denied")
        | Some _ =>
            result <- pool_query (insert_subtask taskId title) ;;
            ret {| status := 201;
                   body := JObj [("message", JStr "Subtask created successfully");
                                 ("subtask", subtask_json true result)] |}
        end
    end).

(** [PUT /subtasks/:subtaskId] *)
Definition updateSubtask (user : User) (subtaskId : Z) (title : string)
    (completed : option (option bool)) : Conn → Response * Conn :=
  route (
    subtaskResult <- pool_query (select (select_subtask_with_list subtaskId)) ;;
    match subtaskResult with
    | [] => ret (error_response 404 "Subtask not found")
    | subtask :: _ =>
        listAccess <- checkListAccess (user_id user) subtask.2 ;;
        match listAccess with
        | None => ret (error_response 404 "Subtask not found or access denied")
        | Some _ =>
            result <- pool_query
              (update_subtask title
                 (match completed with
                  | Some v => v
                  | None => subtask_completed subtask.1
                  end)
                 subtaskId) ;;
            ret (message_with_row "Subtask updated successfully" "subtask"
                   (subtask_json true <$> head result))
        end
    end).

(** [PATCH /subtasks/:subtaskId/toggle] *)
Definition toggleSubtask (user : User) (subtaskId : Z) : Conn → Response * Conn :=
  route (
    subtaskResult <- pool_query (select (select_subtask_with_list subtaskId)) ;;
    match subtaskResult with
    | [] => ret (error_response 404 "Subtask not found")
    | subtask :: _ =>
        listAccess <- checkListAccess (user_id user) subtask.2 ;;
        match listAccess with
        | None => ret (error_response 404 "Subtask not found or access denied")
        | Some _ =>
            result <- pool_query
              (update_subtask_completed (Some (Js.lnot (subtask_completed subtask.1)))
                 subtaskId) ;;
            ret (message_with_row "Subtask completion toggled successfully" "subtask"
                   (subtask_json true <$> head result))
        end
    end).

(** [DELETE /subtasks/:subtaskId] *)
Definition deleteSubtask (user : User) (subtaskId : Z) : Conn → Response * Conn :=
  route (
    subtaskResult <- pool_query (select (select_subtask_with_list subtaskId)) ;;
    match subtaskResult with
    | [] => ret (error_response 404 "Subtask not found")
    | subtask :: _ =>
        listAccess <- checkListAccess (user_id user) subtask.2 ;;
        match listAccess with
        | None => ret (error_response 404 "Subtask not found or access denied")
        | Some _ =>
            pool_query (delete_subtask subtaskId) ;;;
            ret {| status := 200;
                   body := JObj [("message", JStr "Subtask deleted successfully")] |}
        end
    end).

End Handlers.

End Tasks.

(** ** Requests, fault plans and reachable states *)

(** The role rule of [validateListMember]:
    [body('role').optional().isIn(['member', 'admin'])]. *)
Definition validateListMember (role_field : option string) : bool :=
  match role_field with
  | Some role => ListMembers.is_role role
  | None => true
  end.

(** The answer of [handleValidationErrors] (of the entries of [details]
    only the message is kept). *)
Definition validation_failed (msg : string) : Response :=
  {| status := 400;
     body := JObj [("error", JStr "Validation failed");
                   ("details", JArr [JObj [("msg", JStr msg)]])] |}.

Inductive Request :=
| GetList (listId : Z)
| CreateList (name : string)
| RenameList (listId : Z) (name : string)
| DeleteList (listId : Z)
| AddMember (listId : Z) (email : string) (role : option string)
| UpdateMemberRole (listId userId : Z) (role : option string)
| RemoveMember (listId userId : Z)
| LeaveList (listId : Z)
| TransferOwnership (listId : Z) (email : option string)
| GetTask (taskId : Z)
| CreateTask (list_id : Z) (title : string)
    (description priority due_date : option string) (tags : option (list string))
| UpdateTask (taskId : Z) (title : string)
    (description priority due_date : option string)
    (completed : option (option bool)) (tags : option (list string))
| ToggleTask (taskId : Z)
| DeleteTask (taskId : Z)
| CreateSubtask (taskId : Z) (title : string)
| UpdateSubtask (subtaskId : Z) (title : string) (completed : option (option bool))
| ToggleSubtask (subtaskId : Z)
| DeleteSubtask (subtaskId : Z).

(** One request of an authenticated user, from the point where its
    handler is called (for [POST /:listId/members], from
    [validateListMember] on). *)
Definition handle (faults : nat → bool) (user : User) (r : Request)
    : Conn → Response * Conn :=
  match r with
  | GetList l => Lists.getList faults user l
  | CreateList n => Lists.createList faults user n
  | RenameList l n => Lists.renameList faults user l n
  | DeleteList l => Lists.deleteList faults user l
  | AddMember l e role =>
      if validateListMember role then ListMembers.addMember faults user l e role
      else λ c, (validation_failed "Role must be member or admin", c)
  | UpdateMemberRole l u role => ListMembers.updateMemberRole faults user l u role
  | RemoveMember l u => ListMembers.removeMember faults user l u
  | LeaveList l => ListMembers.leaveList faults user l
  | TransferOwnership l e => ListMembers.transferOwnership faults user l e
  | GetTask i => Tasks.getTask faults user i
  | CreateTask l ti d p dd tg => Tasks.createTask faults user l ti d p dd tg
  | UpdateTask i ti d p dd co tg => Tasks.updateTask faults user i ti d p dd co tg
  | ToggleTask i => Tasks.toggleTask faults user i
  | DeleteTask i => Tasks.deleteTask faults user i
  | CreateSubtask i ti => Tasks.createSubtask faults user i ti
  | UpdateSubtask i ti co => Tasks.updateSubtask faults user i ti co
  | ToggleSubtask i => Tasks.toggleSubtask faults user i
  | DeleteSubtask i => Tasks.deleteSubtask faults user i
  end.

(** ** The routes as the routers register them *)

(** [req.params] of the route that matches the request: the names are
    those of the path the router registers.  The values are integers
    already; a value that is none is refused by each id validator. *)
Definition params (r : Request) : list (string * Z) :=
  match r with
  | GetList l => [("id", l)]                         (* GET /:id *)
  | CreateList _ => []                               (* POST / *)
  | RenameList l _ => [("id", l)]                    (* PUT /:id *)
  | DeleteList l => [("id", l)]                      (* DELETE /:id *)
  | AddMember l _ _ => [("listId", l)]               (* POST /:listId/members *)
  | UpdateMemberRole l u _ =>
      [("listId", l); ("userId", u)]                 (* PUT /:listId/members/:userId *)
  | RemoveMember l u =>
      [("listId", l); ("userId", u)]                 (* DELETE /:listId/members/:userId *)
  | LeaveList l => [("listId", l)]                   (* DELETE /:listId/leave *)
  | TransferOwnership l _ => [("listId", l)]         (* PUT /:listId/transfer-ownership *)
  | GetTask i => [("id", i)]                         (* GET /:id *)
  | CreateTask _ _ _ _ _ _ => []                     (* POST / *)
  | UpdateTask i _ _ _ _ _ _ => [("id", i)]          (* PUT /:id *)
  | ToggleTask i => [("id", i)]                      (* PATCH /:id/toggle *)
  | DeleteTask i => [("id", i)]                      (* DELETE /:id *)
  | CreateSubtask i _ => [("taskId", i)]             (* POST /:taskId/subtasks *)
  | UpdateSubtask i _ _ => [("subtaskId", i)]        (* PUT /subtasks/:subtaskId *)
  | ToggleSubtask i => [("subtaskId", i)]            (* PATCH /subtasks/:subtaskId/toggle *)
  | DeleteSubtask i => [("subtaskId", i)]            (* DELETE /subtasks/:subtaskId *)
  end.

(** [param(name)]: the value of the parameter, [undefined] when the route
    has none of that name. *)
Fixpoint param (name : string) (ps : list (string * Z)) : option Z :=
  match ps with
  | [] => None
  | (n, v) :: rest => if String.eqb n name then Some v else param name rest
  end.

(** [.isInt({ min: 1 })]; [undefined] is no integer. *)
Definition isInt_min_1 (v : option Z) : bool :=
  match v with
  | Some i => bool_decide (1 ≤ i)
  | None => false
  end.

(** [[param(name).isInt({ min: 1 }).withMessage(msg), handleValidationErrors]]:
    the answer that ends the request, or [None] for [next()]. *)
Definition validate_param (name msg : string) (ps : list (string * Z))
    : option Response :=
  if isInt_min_1 (param name ps) then None else Some (validation_failed msg).

Definition validateId : list (string * Z) → option Response :=
  validate_param "id" "ID must be a positive integer".

Definition validateTaskId : list (string * Z) → option Response :=
  validate_param "taskId" "Task ID must be a positive integer".

Definition validateSubtaskId : list (string * Z) → option Response :=
  validate_param "subtaskId" "Subtask ID must be a positive integer".

(** The id validator in the chain of the route, if it has one.  Every
    route of routes/listMembers.js has [validateId]. *)
Definition id_validator (r : Request)
    : option (list (string * Z) → option Response) :=
  match r with
  | GetList _ => Some validateId
  | CreateList _ => None
  | RenameList _ _ => Some validateId
  | DeleteList _ => Some validateId
  | AddMember _ _ _ => Some validateId
  | UpdateMemberRole _ _ _ => Some validateId
  | RemoveMember _ _ => Some validateId
  | LeaveList _ => Some validateId
  | TransferOwnership _ _ => Some validateId
  | GetTask _ => Some validateId
  | CreateTask _ _ _ _ _ _ => None
  | UpdateTask _ _ _ _ _ _ _ => Some validateId
  | ToggleTask _ => Some validateId
  | DeleteTask _ => Some validateId
  | CreateSubtask _ _ => Some validateTaskId
  | UpdateSubtask _ _ _ => Some validateSubtaskId
  | ToggleSubtask _ => Some validateSubtaskId
  | DeleteSubtask _ => Some validateSubtaskId
  end.

(** One request of an authenticated user, from the id validator of its
    route on.  The validator answers without touching the session. *)
Definition serve (faults : nat → bool) (user : User) (r : Request)
    : Conn → Response * Conn :=
  match id_validator r with
  | Some validate =>
      match validate (params r) with
      | Some refusal => λ c, (refusal, c)
      | None => handle faults user r
      end
  | None => handle faults user r
  end.

(** No statement fails but by a constraint of the schema. *)
Definition no_faults : nat → bool := λ _, false.

(** Counting from statement [n] of the session, the first [k] statements
    go through, the next one fails, and the one after it (the ROLLBACK of
    the handler) goes through. *)
Definition fails_first_at (faults : nat → bool) (n k : nat) : Prop :=
  (∀ i, (i < k)%nat → faults (n + i)%nat = false)
  ∧ faults (n + k)%nat = true
  ∧ faults (n + k + 1)%nat = false.

(** The fault plan that fails statement [k] and no other. *)
Definition fail_at (k : nat) : nat → bool := λ n, bool_decide (n = k).

(** A fresh database over the registered users. *)
Definition initial (registered : list User) : Conn :=
  {| db := {| users := registered; lists := ∅; list_members := ∅; tasks := ∅;
              subtasks := ∅; tags := []; task_tags := ∅ |};
     seqs := {| lists_id_seq := 1; tasks_id_seq := 1; subtasks_id_seq := 1;
                tags_id_seq := 1 |};
     tx := Idle;
     issued := 0 |}.

(** The states the public operations lead to. *)
Inductive reachable (registered : list User) : Conn → Prop :=
| reachable_initial : reachable registered (initial registered)
| reachable_handle c user r :
    reachable registered c →
    reachable registered (handle no_faults user r c).2.

(** The owner of a list has no membership row on it. *)
Definition owner_not_member (t : Tables) : Prop :=
  ∀ listId l, lists t !! listId = Some l →
    list_members t !! (listId, owner_id l) = None.

(** Every stored role is one of the two membership roles. *)
Definition roles_valid (t : Tables) : Prop :=
  ∀ k role, list_members t !! k = Some role → role = "member" ∨ role = "admin".

(** The four effective roles, [None] standing for no role at all. *)
Definition effective_roles : list (option string) :=
  [Some "owner"; Some "admin"; Some "member"; None].

(** ** Notions used by the statements *)

(** The user owns the list or has a membership row on it: the test of
    [checkListAccess]. *)
Definition has_role (t : Tables) (userId listId : Z) : Prop :=
  ∃ l, lists t !! listId = Some l
       ∧ (owner_id l = userId ∨ is_Some (list_members t !! (listId, userId))).

(** The user owns the list or is one of its admins: the test of
    [checkListPermission]. *)
Definition can_manage (t : Tables) (userId listId : Z) : Prop :=
  ∃ l, lists t !! listId = Some l
       ∧ (owner_id l = userId ∨ list_members t !! (listId, userId) = Some "admin").

(** The range of the type INT of the id columns.  A parameter outside it
    makes PostgreSQL refuse the statement, which the statements here never
    do: a theorem on a handler that gets an id from the request takes the
    id in this range. *)
Definition int4 (z : Z) : Prop := -2147483648 ≤ z ≤ 2147483647.

(** The text is ASCII, without the NUL that PostgreSQL stores in no text:
    on such text [Js.trim] and [Js.toLowerCase] are the methods of
    JavaScript. *)
Definition ascii_only (s : string) : bool :=
  forallb (λ a, (0 <? nat_of_ascii a)%nat && (nat_of_ascii a <? 128)%nat)
    (list_ascii_of_string s).

(** Two values of an [array_agg] with the same elements, whatever their
    order: what an answer says about the tags of a task. *)
Definition same_up_to_order (j j' : Json) : Prop :=
  match j' with
  | JArr l' => ∃ l, j = JArr l ∧ l ≡ₚ l'
  | _ => j = j'
  end.

(** The part of a session the list and membership routes work on. *)
Definition key (c : Conn) : gmap Z ListRow * gmap (Z * Z) string * Z :=
  (lists (db c), list_members (db c), lists_id_seq (seqs c)).

(** The invariant of the list and membership tables: owners are not
    members, memberships belong to existing lists, the list ids lie below
    the sequence, and the stored roles are the two membership roles. *)
Definition inv (ls : gmap Z ListRow) (ms : gmap (Z * Z) string) (sq : Z) : Prop :=
  (∀ lid l, ls !! lid = Some l → ms !! (lid, owner_id l) = None)
  ∧ (∀ lid u r, ms !! (lid, u) = Some r → is_Some (ls !! lid))
  ∧ (∀ lid, is_Some (ls !! lid) → lid < sq)
  ∧ (∀ k r, ms !! k = Some r → r = "member" ∨ r = "admin").

(** What holds between requests: no transaction is open and the tables
    satisfy the invariant. *)
Definition consistent (c : Conn) : Prop :=
  tx c = Idle ∧ inv (lists (db c)) (list_members (db c)) (lists_id_seq (seqs c)).

(** Two states of the tables that differ in tags and tag links at most. *)
Definition same_but_tags (t t' : Tables) : Prop :=
  users t' = users t ∧ lists t' = lists t ∧ list_members t' = list_members t
  ∧ tasks t' = tasks t ∧ subtasks t' = subtasks t.

(** A computation that runs inside an open transaction, changes the tags
    and tag links at most, and leaves the transaction open, or aborted if
    it raises. *)
Definition tag_step {A} (m : M A) : Prop :=
  ∀ c s, tx c = Open s →
    same_but_tags (db c) (db (m c).2)
    ∧ lists_id_seq (seqs (m c).2) = lists_id_seq (seqs c)
    ∧ match (m c).1 with
      | Ok _ => tx (m c).2 = Open s
      | Throw _ => tx (m c).2 = Aborted s
      end.

(** ** Routes that only read: [GET /] of routes/lists.js and
    [GET /list/:listId] of routes/tasks.js *)

#[global] Instance AccessRow_eq_dec : EqDecision Lists.AccessRow.
Proof. solve_decision. Defined.

(** [SELECT DISTINCT l.id, l.name, l.owner_id, l.created_at,
            u.name as owner_name, lm.role as user_role
     FROM lists l JOIN users u ON l.owner_id = u.id
     LEFT JOIN list_members lm ON l.id = lm.list_id AND lm.user_id = $1
     WHERE l.owner_id = $1 OR lm.user_id = $1
     ORDER BY l.created_at DESC] *)
Definition select_lists_of_user (userId : Z) (t : Tables) : list Lists.AccessRow :=
  remove_dups
    (kv ← reverse (by_id (lists t));
     let lm := list_members t !! (kv.1, userId) in
     if bool_decide (owner_id kv.2 = userId) || bool_decide (is_Some lm)
     then (λ u, {| Lists.row_id := kv.1; Lists.row_name := list_name kv.2;
                   Lists.row_owner_id := owner_id kv.2;
                   Lists.owner_name := user_name u;
                   Lists.user_role := lm |})
          <$> filter (λ u, user_id u = owner_id kv.2) (users t)
     else []).

Definition access_row_json (r : Lists.AccessRow) : Json :=
  JObj [("id", JNum (Lists.row_id r)); ("name", JStr (Lists.row_name r));
        ("owner_id", JNum (Lists.row_owner_id r));
        ("owner_name", JStr (Lists.owner_name r));
        ("user_role", json_opt (Lists.user_role r))].

(** [GET /] of routes/lists.js *)
Definition listLists (faults : nat → bool) (user : User) : Conn → Response * Conn :=
  route (
    rows <- query faults (select (select_lists_of_user (user_id user))) ;;
    ret {| status := 200;
           body := JObj [("lists", JArr (access_row_json <$> rows))] |}).

(** [GET /list/:listId] of routes/tasks.js: the rows go out as the query
    gives them, a task without tags with [tags: null]. *)
Definition listTasks (faults : nat → bool) (user : User) (listId : Z)
    : Conn → Response * Conn :=
  route (
    listAccess <- Tasks.checkListAccess faults (user_id user) listId ;;
    match listAccess with
    | None => ret (error_response 404 "List not found or access denied")
    | Some _ =>
        rows <- query faults (select (Lists.select_tasks_of_list listId)) ;;
        ret {| status := 200;
               body := JObj [("tasks",
                 JArr ((λ row, JObj (task_columns false row.1 ++ [("tags", row.2)]))
                       <$> rows))] |}
    end).

(** ** middleware/auth.js *)

Module Auth.

(** [s.split(' ')] *)
Fixpoint split_space (s : string) : list string :=
  match s with
  | EmptyString => [EmptyString]
  | String a r =>
      if Ascii.eqb a " " then EmptyString :: split_space r
      else match split_space r with
           | w :: ws => String a w :: ws
           | [] => [String a EmptyString]
           end
  end.

(** [authHeader && authHeader.split(' ')[1]] *)
Definition token_of (authHeader : option string) : option string :=
  match authHeader with
  | Some h => if Js.truthy h then split_space h !! 1%nat else Some h
  | None => None
  end.

(** [!token] *)
Definition no_token (token : option string) : bool :=
  match token with
  | Some s => negb (Js.truthy s)
  | None => true
  end.

(** [SELECT id, name, email FROM users WHERE id = $1] *)
Definition select_user_by_id (userId : Z) (t : Tables) : list User :=
  filter (λ u, user_id u = userId) (users t).

Section Middleware.

Variable faults : nat → bool.

(** [jwt.verify(token, secret)] of the jsonwebtoken package: the [userId]
    of the payload of a token that verifies, [None] when the call throws
    (a payload without [userId] is left out). *)
Variable jwt_verify : string → option Z.

(** [authenticateToken]: an answer, or [next()] with the row stored in
    [req.user].  A token that does not verify and a failing query end in
    the same [catch]. *)
Definition authenticateToken (authHeader : option string)
    : Conn → (Response + User) * Conn :=
  λ c,
    let token := token_of authHeader in
    if no_token token then (inl (error_response 401 "Access token required"), c)
    else
      match jwt_verify (default EmptyString token) with
      | Some userId =>
          match query faults (select (select_user_by_id userId)) c with
          | (Ok [], c') =>
              (inl (error_response 401 "Invalid token - user not found"), c')
          | (Ok (u :: _), c') => (inr u, c')
          | (Throw _, c') => (inl (error_response 403 "Invalid or expired token"), c')
          end
      | None => (inl (error_response 403 "Invalid or expired token"), c)
      end.

(** [optionalAuth]: always [next()], with the row or [null] in [req.user]. *)
Definition optionalAuth (authHeader : option string) : Conn → option User * Conn :=
  λ c,
    let token := token_of authHeader in
    if no_token token then (None, c)
    else
      match jwt_verify (default EmptyString token) with
      | Some userId =>
          match query faults (select (select_user_by_id userId)) c with
          | (Ok rows, c') => (head rows, c')
          | (Throw _, c') => (None, c')
          end
      | None => (None, c)
      end.

End Middleware.

End Auth.
(** ** Referential integrity and monotone sequences *)

(** No sequence of [q'] lies below its value in [q]. *)
Definition seqs_le (q q' : Seqs) : Prop :=
  lists_id_seq q ≤ lists_id_seq q' ∧ tasks_id_seq q ≤ tasks_id_seq q'
  ∧ subtasks_id_seq q ≤ subtasks_id_seq q' ∧ tags_id_seq q ≤ tags_id_seq q'.

(** The constraints of init.sql that span rows: the foreign keys, the
    UNIQUE name and the primary key of [tags], and serial ids that lie
    below their sequences. *)
Record integrity (t : Tables) (q : Seqs) : Prop := {
  fk_list_owner : ∀ lid l, lists t !! lid = Some l → owner_id l ∈ user_id <$> users t;
  fk_member_list : ∀ lid u r, list_members t !! (lid, u) = Some r → is_Some (lists t !! lid);
  fk_member_user : ∀ lid u r, list_members t !! (lid, u) = Some r → u ∈ user_id <$> users t;
  fk_task_list : ∀ tid row, tasks t !! tid = Some row → is_Some (lists t !! task_list_id row);
  fk_subtask_task : ∀ sid s, subtasks t !! sid = Some s → is_Some (tasks t !! subtask_task_id s);
  fk_link_task : ∀ p, p ∈ task_tags t → is_Some (tasks t !! p.1);
  fk_link_tag : ∀ p, p ∈ task_tags t → p.2 ∈ tag_id <$> tags t;
  unique_tag_name : NoDup (tag_name <$> tags t);
  unique_tag_id : NoDup (tag_id <$> tags t);
  list_ids_below : ∀ lid, is_Some (lists t !! lid) → lid < lists_id_seq q;
  task_ids_below : ∀ tid, is_Some (tasks t !! tid) → tid < tasks_id_seq q;
  subtask_ids_below : ∀ sid, is_Some (subtasks t !! sid) → sid < subtasks_id_seq q;
  tag_ids_below : ∀ g, g ∈ tags t → tag_id g < tags_id_seq q
}.

(** Integrity of a session: of the tables as they stand and of the
    snapshot a transaction would return to, with every sequence at [q0]
    or beyond. *)
Definition sound (q0 : Seqs) (c : Conn) : Prop :=
  seqs_le q0 (seqs c)
  ∧ integrity (db c) (seqs c)
  ∧ match tx c with
    | Idle => True
    | Open s | Aborted s => integrity s (seqs c)
    end.

(** A statement that keeps the integrity of the tables when it succeeds
    and moves no sequence back. *)
Definition stmt_sound {A} (st : Stmt A) : Prop :=
  ∀ t q a t' q', integrity t q → st t q = inr (a, t', q') →
    integrity t' q' ∧ seqs_le q q'.

(** A computation that keeps a property of the session, whatever it
    returns or raises. *)
Definition keeps {A} (I : Conn → Prop) (m : M A) : Prop := ∀ c, I c → I (m c).2.

(** The tables and the sequences are [t] and [q]. *)
Definition unchanged (t : Tables) (q : Seqs) (c : Conn) : Prop :=
  db c = t ∧ seqs c = q.

(** The sessions that follow [c]: any number of requests, of any of the
    routes and of the two middlewares, under any fault plans. *)
Inductive follows (c : Conn) : Conn → Prop :=
| follows_refl : follows c c
| follows_handle faults user r c' :
    follows c c' → follows c (handle faults user r c').2
| follows_listLists faults user c' :
    follows c c' → follows c (listLists faults user c').2
| follows_listTasks faults user listId c' :
    follows c c' → follows c (listTasks faults user listId c').2
| follows_authenticateToken faults jwt_verify authHeader c' :
    follows c c' →
    follows c (Auth.authenticateToken faults jwt_verify authHeader c').2
| follows_optionalAuth faults jwt_verify authHeader c' :
    follows c c' →
    follows c (Auth.optionalAuth faults jwt_verify authHeader c').2.

(** The names that the tag loop of [PUT /:id] does not skip:
    [tagName && tagName.trim()]. *)
Definition nonblank (names : list string) : list string :=
  filter (λ n, Js.truthy n && Js.truthy (Js.trim n) = true) names.

(** The task carries a tag of that name. *)
Definition linked (t : Tables) (taskId : Z) (name : string) : Prop :=
  ∃ g, g ∈ tags t ∧ tag_name g = name ∧ (taskId, tag_id g) ∈ task_tags t.

(** The string contains a space. *)
Fixpoint has_space (s : string) : bool :=
  match s with
  | EmptyString => false
  | String a r => Ascii.eqb a " " || has_space r
  end.

(** The tag names in the tables, and in the snapshot a transaction would
    return to, are trimmed and in lower case. *)
Definition tags_normal (c : Conn) : Prop :=
  (∀ g, g ∈ tags (db c) → Js.toLowerCase (Js.trim (tag_name g)) = tag_name g)
  ∧ match tx c with
    | Idle => True
    | Open s | Aborted s =>
        ∀ g, g ∈ tags s → Js.toLowerCase (Js.trim (tag_name g)) = tag_name g
    end.

(** A statement that adds no tag, or only tags whose names are trimmed
    and in lower case. *)
Definition stmt_tags {A} (st : Stmt A) : Prop :=
  ∀ t q a t' q', st t q = inr (a, t', q') →
    ∀ g, g ∈ tags t' →
      g ∈ tags t ∨ Js.toLowerCase (Js.trim (tag_name g)) = tag_name g.

(** ** A small database for the examples *)

Module Sample.

Definition ann : User :=
  {| user_id := 1; user_name := "Ann"; user_email := "ann@example.org" |}.
Definition bob : User :=
  {| user_id := 2; user_name := "Bob"; user_email := "bob@example.org" |}.
Definition cyd : User :=
  {| user_id := 3; user_name := "Cyd"; user_email := "cyd@example.org" |}.

Definition start : Conn := initial [ann; bob; cyd].

(** Ann creates list 1, and the handler of [POST /:listId/members] stores
    Bob as a member of it. *)
Definition shared : Conn :=
  (handle no_faults ann (AddMember 1 "bob@example.org" None)
     (handle no_faults ann (CreateList "Groceries") start).2).2.

Definition groceries : ListRow := {| list_name := "Groceries"; owner_id := 1 |}.

(** Bob adds task 1, tagged "work", with subtask 1, and ticks both. *)
Definition with_task : Conn :=
  (handle no_faults bob (ToggleSubtask 1)
     (handle no_faults bob (ToggleTask 1)
        (handle no_faults bob (CreateSubtask 1 "Skimmed")
           (handle no_faults bob
              (CreateTask 1 "Milk" None None None (Some ["work"])) shared).2).2).2).2.

Definition milk : TaskRow :=
  {| task_list_id := 1; title := "Milk"; description := None; priority := None;
     due_date := None; completed := Some true |}.

Definition skimmed : SubtaskRow :=
  {| subtask_task_id := 1; subtask_title := "Skimmed";
     subtask_completed := Some true |}.

(** Ann hands list 1 over to Bob. *)
Definition transferred : Conn :=
  (handle no_faults ann (TransferOwnership 1 (Some "Bob@Example.org")) shared).2.

(** Through the routes: Ann creates list 1, and task 1 on it. *)
Definition own_list : Conn :=
  (serve no_faults ann (CreateList "Groceries") start).2.

Definition own_task : Conn :=
  (serve no_faults ann (CreateTask 1 "Milk" None None None None) own_list).2.

End Sample.

(** ** Proof automation *)

(** Unfolding the session monad in the goal. *)
Ltac unfold_session :=
  unfold route, bind, try_catch, query, BEGIN, COMMIT, ROLLBACK, select, ret, throw,
    no_faults, sent, failed.

Ltac frame_cases :=
  repeat first
    [ progress simpl in *
    | progress simplify_eq
    | case_match ].

(** * Properties *)

(** ** The access tests *)

Lemma select_owner_or_member_role t uid lid :
  has_role t uid lid → ∃ row, select_owner_or_member uid lid t = [row].
Proof.
  intros (l & Hl & Hr). unfold select_owner_or_member. rewrite Hl.
  assert (bool_decide (owner_id l = uid)
          || bool_decide (is_Some (list_members t !! (lid, uid))) = true) as ->; [|eauto].
  apply orb_true_iff. destruct Hr; [left|right]; by apply bool_decide_eq_true.
Qed.

Lemma select_owner_or_member_none t uid lid :
  ¬ has_role t uid lid → select_owner_or_member uid lid t = [].
Proof.
  intros Hn. unfold select_owner_or_member.
  destruct (lists t !! lid) as [l|] eqn:Hl; [|done].
  destruct (bool_decide _ || bool_decide _) eqn:E; [|done].
  destruct Hn. exists l. split; [done|].
  apply orb_true_iff in E as [E|E]; apply bool_decide_eq_true in E; auto.
Qed.

Lemma select_owner_or_admin_manage t uid lid :
  can_manage t uid lid → ∃ row, select_owner_or_admin lid uid t = [row].
Proof.
  intros (l & Hl & Hr). unfold select_owner_or_admin. rewrite Hl.
  assert (bool_decide (owner_id l = uid)
          || bool_decide (list_members t !! (lid, uid) = Some "admin") = true) as ->; [|eauto].
  apply orb_true_iff. destruct Hr; [left|right]; by apply bool_decide_eq_true.
Qed.

Lemma select_owner_or_admin_none t uid lid :
  ¬ can_manage t uid lid → select_owner_or_admin lid uid t = [].
Proof.
  intros Hn. unfold select_owner_or_admin.
  destruct (lists t !! lid) as [l|] eqn:Hl; [|done].
  destruct (bool_decide _ || bool_decide _) eqn:E; [|done].
  destruct Hn. exists l. split; [done|].
  apply orb_true_iff in E as [E|E]; apply bool_decide_eq_true in E; auto.
Qed.

Lemma select_owned_list_owner t lid l uid :
  lists t !! lid = Some l → owner_id l = uid → select_owned_list lid uid t = [lid].
Proof. intros Hl Ho. unfold select_owned_list. by rewrite Hl, bool_decide_eq_true_2. Qed.

Lemma select_users_by_email_none t email :
  (∀ u, u ∈ users t → user_email u ≠ email) → select_users_by_email email t = [].
Proof.
  unfold select_users_by_email. induction (users t) as [|u us IH]; [done|].
  intros H. rewrite filter_cons. case_decide as E.
  - destruct (H u); [left|done].
  - apply IH. intros v Hv. apply H. by right.
Qed.

Lemma select_users_by_email_cons t email u rest :
  select_users_by_email email t = u :: rest →
  u ∈ users t ∧ user_email u = email.
Proof.
  intros H. assert (Hin : u ∈ select_users_by_email email t) by (rewrite H; left).
  unfold select_users_by_email in Hin. by apply list_elem_of_filter in Hin as [? ?].
Qed.

Lemma user_exists_elem_of t u : u ∈ users t → user_exists (user_id u) t = true.
Proof.
  intros H. unfold user_exists. apply bool_decide_eq_true.
  apply list_elem_of_fmap. eauto.
Qed.

Lemma truthy_nonempty s : s ≠ EmptyString → Js.truthy s = true.
Proof. unfold Js.truthy. by destruct s. Qed.

Lemma is_role_valid role : ListMembers.is_role role = true → role = "member" ∨ role = "admin".
Proof.
  unfold ListMembers.is_role. intros H%bool_decide_eq_true.
  rewrite !elem_of_cons in H. destruct H as [?|[?|?%elem_of_nil]]; auto; done.
Qed.

(** ** The effective role *)

(** The join [JOIN users u ON l.owner_id = u.id] finds a row when the
    foreign key of [lists.owner_id] holds. *)
Lemma filter_user_id_cons (us : list User) (uid : Z) :
  uid ∈ user_id <$> us →
  ∃ u rest, filter (λ u, user_id u = uid) us = u :: rest ∧ user_id u = uid.
Proof.
  induction us as [|u us IH]; [by intros ?%elem_of_nil|].
  rewrite fmap_cons, elem_of_cons, filter_cons.
  intros [->|Hin]; [case_decide; [eauto|done]|].
  case_decide; [eauto|]. by apply IH.
Qed.

Lemma effectiveRole_owner t uid lid L :
  lists t !! lid = Some L → owner_id L ∈ user_id <$> users t →
  owner_id L = uid → Lists.effectiveRole uid lid t = Some "owner".
Proof.
  intros HL [u [rest [Hf _]]]%filter_user_id_cons Ho.
  unfold Lists.effectiveRole, Lists.accessCheck. rewrite HL, Hf.
  rewrite (bool_decide_eq_true_2 _ Ho). done.
Qed.

Lemma effectiveRole_not_owner t uid lid L :
  lists t !! lid = Some L → owner_id L ∈ user_id <$> users t →
  owner_id L ≠ uid →
  Lists.effectiveRole uid lid t = list_members t !! (lid, uid).
Proof.
  intros HL [u [rest [Hf _]]]%filter_user_id_cons Ho.
  unfold Lists.effectiveRole, Lists.accessCheck. rewrite HL, Hf.
  rewrite (bool_decide_eq_false_2 _ Ho). simpl.
  by destruct (list_members t !! (lid, uid)).
Qed.

Lemma has_role_effectiveRole t uid lid L :
  lists t !! lid = Some L →
  owner_id L ∈ user_id <$> users t →
  has_role t uid lid ↔ Lists.effectiveRole uid lid t ≠ None.
Proof.
  intros HL Hfk. destruct (decide (owner_id L = uid)) as [Ho|Ho].
  - rewrite (effectiveRole_owner _ _ _ _ HL Hfk Ho). split; [done|].
    intros _. exists L. auto.
  - rewrite (effectiveRole_not_owner _ _ _ _ HL Hfk Ho). split.
    + intros (l & Hl & [?|[r Hr]]); simplify_eq. by rewrite Hr.
    + intros Hr. exists L. split; [done|]. right.
      by destruct (list_members t !! (lid, uid)) eqn:E; [eauto|].
Qed.

(** C1. For a principal and a list of the store (whose owner is a
    registered user, and with the stored roles being the two membership
    roles), the role reported by the access query is "owner" exactly when
    the principal is the list's owner; otherwise it is the role of the
    membership row keyed by the list and the principal when there is one,
    and no role when there is none; and it is exactly one of owner, admin,
    member and none. *)
Theorem effective_role_spec t (P : User) lid L :
  lists t !! lid = Some L →
  owner_id L ∈ user_id <$> users t →
  roles_valid t →
  let role := Lists.effectiveRole (user_id P) lid t in
  (role = Some "owner" ↔ owner_id L = user_id P)
  ∧ (owner_id L ≠ user_id P → role = list_members t !! (lid, user_id P))
  ∧ (exists! r, r ∈ effective_roles ∧ role = r).
Proof.
  intros HL Hfk Hroles role.
  assert (Hne : owner_id L ≠ user_id P → role = list_members t !! (lid, user_id P))
    by (intros; by eapply effectiveRole_not_owner).
  assert (Hin : role ∈ effective_roles).
  { destruct (decide (owner_id L = user_id P)) as [Ho|Ho].
    - unfold role. erewrite effectiveRole_owner by done. left.
    - rewrite (Hne Ho). unfold effective_roles.
      destruct (list_members t !! (lid, user_id P)) as [r|] eqn:E;
        [|by do 3 right; left].
      destruct (Hroles _ _ E) as [-> | ->]; [do 2 right; left|right; left]. }
  split_and!; [|done|].
  - split.
    + intros Hrole. destruct (decide (owner_id L = user_id P)) as [|Ho]; [done|].
      rewrite (Hne Ho) in Hrole. destruct (Hroles _ _ Hrole); done.
    + intros Ho. by eapply effectiveRole_owner.
  - exists role. split; [done|]. by intros r [_ <-].
Qed.

(** ** Transfer of ownership *)

Lemma fails_first_at_before faults n k i m :
  fails_first_at faults n k → (i < k)%nat → m = (n + i)%nat → faults m = false.
Proof. intros (H & _ & _) ? ->. by apply H. Qed.

Lemma fails_first_at_here faults n k m :
  fails_first_at faults n k → m = (n + k)%nat → faults m = true.
Proof. by intros (_ & H & _) ->. Qed.

Lemma fails_first_at_after faults n k m :
  fails_first_at faults n k → m = (n + k + 1)%nat → faults m = false.
Proof. by intros (_ & _ & H) ->. Qed.

Lemma fails_first_at_fail_at n k : fails_first_at (fail_at (n + k)) n k.
Proof.
  unfold fails_first_at, fail_at. split_and!.
  - intros i Hi. apply bool_decide_eq_false. lia.
  - by apply bool_decide_eq_true.
  - apply bool_decide_eq_false. lia.
Qed.

Lemma insert_list_member_ok t q lid uid role :
  list_members t !! (lid, uid) = None →
  is_Some (lists t !! lid) →
  user_exists uid t = true →
  insert_list_member lid uid role t q
  = inr ((), set_list_members (insert (lid, uid) role) t, q).
Proof.
  intros H1 H2 H3. unfold insert_list_member.
  by rewrite H1, (bool_decide_eq_true_2 _ H2), H3.
Qed.

(** After step (b) the previous owner still has no membership row. *)
Lemma delete_list_member_other t q lid uid uid' :
  uid ≠ uid' →
  list_members t !! (lid, uid') = None →
  ∃ n t', delete_list_member lid uid t q = inr (n, t', q)
          ∧ list_members t' !! (lid, uid') = None
          ∧ lists t' = lists t ∧ users t' = users t.
Proof.
  intros Hne Hnone. unfold delete_list_member.
  destruct (list_members t !! (lid, uid)); eexists _, _; (split; [done|]); simpl;
    [rewrite lookup_delete_ne by congruence|]; done.
Qed.

Lemma transferOwnership_succeeds c (P : User) lid l email newOwner rest :
  tx c = Idle →
  lists (db c) !! lid = Some l → owner_id l = user_id P →
  P ∈ users (db c) →
  list_members (db c) !! (lid, user_id P) = None →
  email ≠ EmptyString →
  select_users_by_email (Js.toLowerCase email) (db c) = newOwner :: rest →
  user_id newOwner ≠ user_id P →
  let r := ListMembers.transferOwnership no_faults P lid (Some email) c in
  status r.1 = 200
  ∧ tx r.2 = Idle
  ∧ lists (db r.2)
    = <[lid := {| list_name := list_name l; owner_id := user_id newOwner |}]> (lists (db c))
  ∧ list_members (db r.2)
    = <[(lid, user_id P) := "admin"]> (delete (lid, user_id newOwner) (list_members (db c))).
Proof.
  intros Htx Hl Ho HP Hnone Hemail Hsel Hne r. subst r.
  destruct c as [t q x n]. simpl in *. subst x.
  apply select_users_by_email_cons in Hsel as Hnew. destruct Hnew as [Hnew _].
  pose proof (user_exists_elem_of _ _ HP) as HPex.
  pose proof (user_exists_elem_of _ _ Hnew) as Hnewex.
  unfold ListMembers.transferOwnership, ListMembers.checkListPermission.
  rewrite (truthy_nonempty _ Hemail). unfold_session. simpl.
  rewrite (select_owned_list_owner _ _ _ _ Hl Ho). simpl.
  rewrite Hsel. simpl. rewrite (bool_decide_eq_false_2 _ Hne). simpl.
  unfold delete_list_member.
  destruct (list_members t !! (lid, user_id newOwner)) eqn:Hold; simpl.
  - rewrite insert_list_member_ok;
      [|simpl; by rewrite lookup_delete_ne by congruence|simpl; by rewrite Hl|done].
    simpl. unfold ListMembers.update_list_owner. simpl. rewrite Hl.
    unfold user_exists in *. simpl. rewrite Hnewex. done.
  - rewrite insert_list_member_ok; [|done|by rewrite Hl|done].
    simpl. unfold ListMembers.update_list_owner. simpl. rewrite Hl.
    unfold user_exists in *. simpl. rewrite Hnewex. simpl.
    by rewrite (delete_id _ _ Hold).
Qed.

(** With no fault, a conflict at step (c) (the previous owner already has
    a membership row) is rolled back as well. *)
Lemma transferOwnership_conflict_rolled_back c (P : User) lid l email newOwner rest role :
  tx c = Idle →
  lists (db c) !! lid = Some l → owner_id l = user_id P →
  list_members (db c) !! (lid, user_id P) = Some role →
  email ≠ EmptyString →
  select_users_by_email (Js.toLowerCase email) (db c) = newOwner :: rest →
  user_id newOwner ≠ user_id P →
  let r := ListMembers.transferOwnership no_faults P lid (Some email) c in
  status r.1 = 500 ∧ db r.2 = db c ∧ tx r.2 = Idle.
Proof.
  intros Htx Hl Ho Hrow Hemail Hsel Hne r. subst r.
  destruct c as [t q x n]. simpl in *. subst x.
  unfold ListMembers.transferOwnership, ListMembers.checkListPermission.
  rewrite (truthy_nonempty _ Hemail). unfold_session. simpl.
  rewrite (select_owned_list_owner _ _ _ _ Hl Ho). simpl.
  rewrite Hsel. simpl. rewrite (bool_decide_eq_false_2 _ Hne). simpl.
  unfold delete_list_member, insert_list_member.
  destruct (list_members t !! (lid, user_id newOwner)) eqn:Hold; simpl;
    rewrite ?lookup_delete_ne by congruence; rewrite Hrow; done.
Qed.

(** C2. The transfer is atomic.  When the owner of a list asks for it to
    be handed to another registered user and one of the statements (b)
    DELETE of the new owner's membership, (c) INSERT of the previous owner
    as admin, (d) UPDATE of the owner fails (statement 3, 4 or 5 of the
    handler, counting from 0: the permission query, the user lookup and
    BEGIN come first; the ROLLBACK that follows goes through), the answer
    is 500 and the tables are the ones before the call: the list has the
    owner it had and no membership row has changed. *)
Theorem transferOwnership_atomic faults c (P : User) lid l email newOwner rest k :
  tx c = Idle →
  lists (db c) !! lid = Some l → owner_id l = user_id P →
  P ∈ users (db c) →
  list_members (db c) !! (lid, user_id P) = None →
  email ≠ EmptyString →
  select_users_by_email (Js.toLowerCase email) (db c) = newOwner :: rest →
  user_id newOwner ≠ user_id P →
  (3 ≤ k ≤ 5)%nat →
  fails_first_at faults (issued c) k →
  let r := ListMembers.transferOwnership faults P lid (Some email) c in
  status r.1 = 500 ∧ db r.2 = db c ∧ tx r.2 = Idle.
Proof.
  intros Htx Hl Ho HP Hnone Hemail Hsel Hne Hk Hf r. subst r.
  destruct c as [t q x n]. simpl in *. subst x.
  destruct (delete_list_member_other t q lid _ _ Hne Hnone)
    as (cnt & t' & Hdel & Hnone' & Hl' & Hu').
  assert (Hins : insert_list_member lid (user_id P) "admin" t' q
                 = inr ((), set_list_members (insert (lid, user_id P) "admin") t', q)).
  { apply insert_list_member_ok; [done|by rewrite Hl', Hl|].
    unfold user_exists. rewrite Hu'. by apply user_exists_elem_of. }
  unfold ListMembers.transferOwnership, ListMembers.checkListPermission.
  rewrite (truthy_nonempty _ Hemail). unfold_session. simpl.
  rewrite (fails_first_at_before _ _ _ 0 n Hf) by lia.
  rewrite (select_owned_list_owner _ _ _ _ Hl Ho). simpl.
  rewrite (fails_first_at_before _ _ _ 1 (S n) Hf) by lia.
  rewrite Hsel. simpl. rewrite (bool_decide_eq_false_2 _ Hne). simpl.
  rewrite (fails_first_at_before _ _ _ 2 (S (S n)) Hf) by lia. simpl.
  assert (k = 3 ∨ k = 4 ∨ k = 5)%nat as [->|[->| ->]] by lia.
  - rewrite (fails_first_at_here _ _ _ (S (S (S n))) Hf) by lia. simpl.
    rewrite (fails_first_at_after _ _ _ (S (S (S (S n)))) Hf) by lia. done.
  - rewrite (fails_first_at_before _ _ _ 3 (S (S (S n))) Hf) by lia. simpl.
    rewrite Hdel. simpl.
    rewrite (fails_first_at_here _ _ _ (S (S (S (S n)))) Hf) by lia. simpl.
    rewrite (fails_first_at_after _ _ _ (S (S (S (S (S n))))) Hf) by lia. done.
  - rewrite (fails_first_at_before _ _ _ 3 (S (S (S n))) Hf) by lia. simpl.
    rewrite Hdel. simpl.
    rewrite (fails_first_at_before _ _ _ 4 (S (S (S (S n)))) Hf) by lia. simpl.
    rewrite Hins. simpl.
    rewrite (fails_first_at_here _ _ _ (S (S (S (S (S n))))) Hf) by lia. simpl.
    rewrite (fails_first_at_after _ _ _ (S (S (S (S (S (S n)))))) Hf) by lia. done.
Qed.

(** ** Existence hiding *)

Lemma getList_not_found_or_denied c (P : User) lid :
  tx c = Idle →
  ¬ has_role (db c) (user_id P) lid →
  (Lists.getList no_faults P lid c).1
  = error_response 404 "List not found or access denied".
Proof.
  intros Htx Hno. unfold Lists.getList. unfold_session. simpl. rewrite Htx.
  assert (Lists.accessCheck (user_id P) lid (db c) = []) as ->; [|done].
  unfold Lists.accessCheck. destruct (lists (db c) !! lid) as [l|] eqn:Hl; [|done].
  destruct (bool_decide _ || bool_decide _) eqn:E; [|done].
  destruct Hno. exists l. split; [done|].
  apply orb_true_iff in E as [E|E]; apply bool_decide_eq_true in E; auto.
Qed.

Lemma getTask_missing c (P : User) tid :
  tx c = Idle →
  tasks (db c) !! tid = None →
  (Tasks.getTask no_faults P tid c).1 = error_response 404 "Task not found".
Proof.
  intros Htx Hno. unfold Tasks.getTask, Tasks.select_task_with_tags. unfold_session.
  simpl. by rewrite Htx, Hno.
Qed.

Lemma getTask_denied c (P : User) tid row :
  tx c = Idle →
  tasks (db c) !! tid = Some row →
  ¬ has_role (db c) (user_id P) (task_list_id row) →
  (Tasks.getTask no_faults P tid c).1
  = error_response 404 "Task not found or access denied".
Proof.
  intros Htx Hrow Hno%select_owner_or_member_none.
  unfold Tasks.getTask, Tasks.checkListAccess, Tasks.select_task_with_tags.
  unfold_session. simpl. rewrite Htx, Hrow. simpl. by rewrite Hno.
Qed.

Lemma getTask_distinguishes c (P : User) tid tid' row :
  tx c = Idle →
  tasks (db c) !! tid = Some row →
  ¬ has_role (db c) (user_id P) (task_list_id row) →
  tasks (db c) !! tid' = None →
  (Tasks.getTask no_faults P tid c).1 ≠ (Tasks.getTask no_faults P tid' c).1.
Proof.
  intros Htx Hrow Hno Hnone.
  rewrite (getTask_denied _ _ _ _ Htx Hrow Hno), (getTask_missing _ _ _ Htx Hnone).
  discriminate.
Qed.

(** ** Tag loops inside a transaction *)

Create HintDb tag_step.

Lemma same_but_tags_refl t : same_but_tags t t.
Proof. by repeat split. Qed.

Lemma same_but_tags_trans t1 t2 t3 :
  same_but_tags t1 t2 → same_but_tags t2 t3 → same_but_tags t1 t3.
Proof. unfold same_but_tags. intros (?&?&?&?&?) (?&?&?&?&?). split_and!; congruence. Qed.

Lemma tag_step_ret {A} (a : A) : tag_step (ret a).
Proof. intros c s Hc. simpl. split_and!; [apply same_but_tags_refl|done..]. Qed.

Lemma tag_step_bind {A B} (m : M A) (k : A → M B) :
  tag_step m → (∀ a, tag_step (k a)) → tag_step (bind m k).
Proof.
  intros Hm Hk c s Hc. specialize (Hm c s Hc). unfold bind.
  destruct (m c) as [[a|e] c']; simpl in *; [|done].
  destruct Hm as (H1 & H2 & H3). specialize (Hk a c' s H3).
  destruct Hk as (H4 & H5 & H6).
  split_and!; [by eapply same_but_tags_trans|congruence|done].
Qed.

Lemma tag_step_query {A} (st : Stmt A) :
  (∀ t q a t' q', st t q = inr (a, t', q') →
     same_but_tags t t' ∧ lists_id_seq q' = lists_id_seq q) →
  tag_step (query no_faults st).
Proof.
  intros Hst [t q x n] s. simpl. intros ->. unfold query, no_faults, failed. simpl.
  destruct (st t q) as [e|[[a t'] q']] eqn:E; simpl.
  - split_and!; [apply same_but_tags_refl|done..].
  - destruct (Hst _ _ _ _ _ E). by split_and!.
Qed.

Lemma tag_step_upsert_tag n : tag_step (query no_faults (Tasks.upsert_tag n)).
Proof.
  apply tag_step_query. intros t q a t' q'. unfold Tasks.upsert_tag.
  intros; repeat case_match; simplify_eq; by repeat split.
Qed.

Lemma tag_step_insert_task_tag b tid gid :
  tag_step (query no_faults (Tasks.insert_task_tag b tid gid)).
Proof.
  apply tag_step_query. intros t q a t' q'. unfold Tasks.insert_task_tag.
  intros; repeat case_match; simplify_eq; by repeat split.
Qed.

Lemma tag_step_delete_task_tags tid :
  tag_step (query no_faults (Tasks.delete_task_tags tid)).
Proof.
  apply tag_step_query. intros t q a t' q'. unfold Tasks.delete_task_tags.
  intros; simplify_eq; by repeat split.
Qed.

#[local] Hint Resolve tag_step_ret tag_step_upsert_tag tag_step_insert_task_tag
  tag_step_delete_task_tags : tag_step.

Lemma tag_step_updateTask_tags tid names :
  tag_step (Tasks.updateTask_tags no_faults tid names).
Proof.
  induction names as [|n names IH]; simpl; [auto with tag_step|].
  apply tag_step_bind; [|done].
  case_match; [|auto with tag_step].
  apply tag_step_bind; auto with tag_step.
Qed.

Lemma tag_step_createTask_tags tid names :
  tag_step (Tasks.createTask_tags no_faults tid names).
Proof.
  induction names as [|n names IH]; simpl; [auto with tag_step|].
  apply tag_step_bind; [auto with tag_step|]. intros gid.
  apply tag_step_bind; [auto with tag_step|done].
Qed.

Lemma tag_step_update_tags tid (tags : option (list string)) :
  tag_step (match tags with
            | Some names =>
                bind (query no_faults (Tasks.delete_task_tags tid))
                     (λ _, Tasks.updateTask_tags no_faults tid names)
            | None => ret ()
            end).
Proof.
  destruct tags; [|auto with tag_step].
  apply tag_step_bind; [auto with tag_step|]. intros _. apply tag_step_updateTask_tags.
Qed.

Ltac use_tag_step :=
  repeat match goal with
    | H : Tasks.createTask_tags _ ?tid ?names ?c = _ |- _ =>
        let F := fresh "F" in
        pose proof (tag_step_createTask_tags tid names c _ eq_refl) as F;
        unfold no_faults in F; rewrite H in F; clear H; simpl in F;
        destruct F as ((? & ? & ? & ? & ?) & ? & ?)
    | H : Tasks.updateTask_tags _ ?tid ?names ?c = _ |- _ =>
        let F := fresh "F" in
        pose proof (tag_step_updateTask_tags tid names c _ eq_refl) as F;
        unfold no_faults in F; rewrite H in F; clear H; simpl in F;
        destruct F as ((? & ? & ? & ? & ?) & ? & ?)
    end.

(** ** The invariant of lists and memberships *)

Section Invariant.

Context (ls : gmap Z ListRow) (ms : gmap (Z * Z) string) (sq : Z).

Hypothesis Hinv : inv ls ms sq.

Lemma inv_insert_list nm owner :
  inv (<[sq := {| list_name := nm; owner_id := owner |}]> ls) ms (sq + 1).
Proof.
  destruct Hinv as (H1 & H2 & H3 & H4).
  assert (Hfresh : ls !! sq = None).
  { destruct (ls !! sq) eqn:E; [|done]. assert (sq < sq) by eauto. lia. }
  split_and!; [| | |done].
  - intros lid l. rewrite lookup_insert. case_decide; [|by auto].
    intros [= <-]. subst lid. simpl.
    destruct (ms !! (sq, owner)) eqn:E; [|done].
    apply H2 in E as [? E]. congruence.
  - intros lid u r Hm. rewrite lookup_insert. case_decide; eauto.
  - intros lid. rewrite lookup_insert. case_decide; [lia|].
    intros ?%H3. lia.
Qed.

Lemma inv_rename_list lid l nm :
  ls !! lid = Some l →
  inv (<[lid := {| list_name := nm; owner_id := owner_id l |}]> ls) ms sq.
Proof.
  destruct Hinv as (H1 & H2 & H3 & H4). intros Hl.
  split_and!; [| | |done].
  - intros j l'. rewrite lookup_insert. case_decide; [|by auto].
    intros [= <-]. subst j. simpl. eauto.
  - intros j u r Hm. rewrite lookup_insert. case_decide; eauto.
  - intros j. rewrite lookup_insert. case_decide; [|by auto]. subst j. eauto.
Qed.

Lemma inv_delete_list lid :
  inv (delete lid ls) (filter (λ kv, kv.1.1 ≠ lid) ms) sq.
Proof.
  destruct Hinv as (H1 & H2 & H3 & H4).
  split_and!.
  - intros j l. rewrite lookup_delete. case_decide; [done|]. intros Hl.
    apply map_lookup_filter_None. left. eauto.
  - intros j u r [Hm Hne]%map_lookup_filter_Some. simpl in Hne.
    rewrite lookup_delete_ne by done. eauto.
  - intros j. rewrite lookup_delete. case_decide; [by intros [? ?]|]. auto.
  - intros k r [Hm _]%map_lookup_filter_Some. eauto.
Qed.

Lemma inv_insert_member lid u role :
  (∀ l, ls !! lid = Some l → owner_id l ≠ u) →
  is_Some (ls !! lid) →
  role = "member" ∨ role = "admin" →
  inv ls (<[(lid, u) := role]> ms) sq.
Proof.
  destruct Hinv as (H1 & H2 & H3 & H4). intros Hown Hex Hrole.
  split_and!; [| |done|].
  - intros j l Hl. rewrite lookup_insert. case_decide as E; [|by eauto].
    injection E as Ej Eu. subst j. by destruct (Hown l).
  - intros j v r. rewrite lookup_insert. case_decide as E; [|by eauto].
    injection E as Ej Eu. by subst j.
  - intros k r. rewrite lookup_insert. case_decide; [|by eauto]. by intros [= <-].
Qed.

Lemma inv_update_member k role :
  is_Some (ms !! k) →
  role = "member" ∨ role = "admin" →
  inv ls (<[k := role]> ms) sq.
Proof.
  destruct k as [lid u]. intros [r0 Hk] Hrole.
  apply inv_insert_member; [|by destruct Hinv as (_ & H2 & _); eauto|done].
  intros l Hl <-. destruct Hinv as (H1 & _). rewrite (H1 _ _ Hl) in Hk. done.
Qed.

Lemma inv_delete_member k : inv ls (delete k ms) sq.
Proof.
  destruct Hinv as (H1 & H2 & H3 & H4).
  split_and!; [| |done|].
  - intros j l Hl. rewrite lookup_delete. case_decide; eauto.
  - intros j u r. rewrite lookup_delete. case_decide; [done|eauto].
  - intros k' r. rewrite lookup_delete. case_decide; [done|eauto].
Qed.

Lemma inv_transfer lid l old new :
  ls !! lid = Some l → old ≠ new →
  inv (<[lid := {| list_name := list_name l; owner_id := new |}]> ls)
      (<[(lid, old) := "admin"]> (delete (lid, new) ms)) sq.
Proof.
  destruct Hinv as (H1 & H2 & H3 & H4). intros Hl Hne.
  split_and!.
  - intros j l'. rewrite lookup_insert. case_decide as E.
    + intros [= <-]. subst j. simpl.
      rewrite lookup_insert_ne by congruence. apply lookup_delete_eq.
    + intros Hl'. rewrite lookup_insert_ne by congruence.
      rewrite lookup_delete_ne by congruence. eauto.
  - intros j u r. rewrite !lookup_insert. case_decide as E.
    + injection E as Ej Eu. subst j. rewrite decide_True by done. eauto.
    + rewrite lookup_delete. case_decide; [done|]. intros ?%H2.
      case_decide; [eauto|done].
  - intros j. rewrite lookup_insert. case_decide; [|by auto]. subst j. eauto.
  - intros k r. rewrite lookup_insert. case_decide; [by intros [= <-]; auto|].
    rewrite lookup_delete. case_decide; [done|eauto].
Qed.

End Invariant.

Ltac start_handler :=
  match goal with
  | |- consistent ?c → _ =>
      destruct c as [t q x n]; intros [Htx Hinv]; simpl in Htx, Hinv; subst x
  end.

Lemma createList_consistent (P : User) nm c :
  consistent c → consistent (Lists.createList no_faults P nm c).2.
Proof.
  start_handler. unfold Lists.createList, Lists.insert_list. unfold_session.
  frame_cases; (split; [done|]); simpl; auto using inv_insert_list.
Qed.

Lemma renameList_consistent (P : User) lid nm c :
  consistent c → consistent (Lists.renameList no_faults P lid nm c).2.
Proof.
  start_handler. unfold Lists.renameList, Lists.update_list_name. unfold_session.
  frame_cases; (split; [done|]); simpl; auto using inv_rename_list.
Qed.

Lemma deleteList_consistent (P : User) lid c :
  consistent c → consistent (Lists.deleteList no_faults P lid c).2.
Proof.
  start_handler. unfold Lists.deleteList, Lists.delete_list. unfold_session.
  frame_cases; (split; [done|]); simpl; auto using inv_delete_list.
Qed.

Lemma removeMember_consistent (P : User) lid uid c :
  consistent c → consistent (ListMembers.removeMember no_faults P lid uid c).2.
Proof.
  start_handler.
  unfold ListMembers.removeMember, ListMembers.checkListPermission, delete_list_member.
  unfold_session.
  frame_cases; (split; [done|]); simpl; auto using inv_delete_member.
Qed.

Lemma leaveList_consistent (P : User) lid c :
  consistent c → consistent (ListMembers.leaveList no_faults P lid c).2.
Proof.
  start_handler. unfold ListMembers.leaveList, delete_list_member. unfold_session.
  frame_cases; (split; [done|]); simpl; auto using inv_delete_member.
Qed.

Lemma updateMemberRole_consistent (P : User) lid uid role c :
  consistent c → consistent (ListMembers.updateMemberRole no_faults P lid uid role c).2.
Proof.
  start_handler.
  unfold ListMembers.updateMemberRole, ListMembers.checkListPermission,
    ListMembers.update_member_role, select_member_role.
  unfold_session.
  frame_cases; (split; [done|]); simpl; try done.
  all: apply inv_update_member; [done|by eauto|].
  all: apply is_role_valid.
  all: match goal with H : _ || negb _ = false |- _ => apply orb_false_iff in H as [_ H] end.
  all: by apply negb_false_iff.
Qed.

Lemma addMember_consistent (P : User) lid email role c :
  validateListMember role = true →
  consistent c → consistent (ListMembers.addMember no_faults P lid email role c).2.
Proof.
  intros Hrole. start_handler.
  assert (Hvalid : default "member" role = "member" ∨ default "member" role = "admin").
  { destruct role as [r|]; [by apply is_role_valid|by left]. }
  unfold ListMembers.addMember, ListMembers.checkListPermission, insert_list_member,
    select_owner_or_admin, select_owned_list, select_member_role.
  unfold_session.
  frame_cases; (split; [done|]); simpl; try done.
  all: apply inv_insert_member; [done| |done|done].
  all: intros l' ?; simplify_eq.
  all: by match goal with H : bool_decide _ = false |- _ => apply bool_decide_eq_false in H end.
Qed.

Lemma transferOwnership_consistent (P : User) lid email c :
  consistent c → consistent (ListMembers.transferOwnership no_faults P lid email c).2.
Proof.
  start_handler.
  unfold ListMembers.transferOwnership, ListMembers.checkListPermission,
    insert_list_member, delete_list_member, ListMembers.update_list_owner,
    select_owned_list.
  unfold_session.
  frame_cases; (split; [done|]); simpl; try done.
  all: repeat match goal with H : bool_decide _ = _ |- _ =>
          first [apply bool_decide_eq_false in H | apply bool_decide_eq_true in H] end.
  all: try (apply inv_transfer; [done..|congruence]).
  all: match goal with
       | Hne : user_id ?v ≠ user_id _ |- inv _ (<[_ := _]> (list_members ?t')) _ =>
           rewrite <- (delete_id (list_members t') (lid, user_id v)) by done;
           apply inv_transfer; [done..|congruence]
       end.
Qed.

(** ** Routes that leave lists and memberships alone *)

Lemma consistent_frame c c' :
  tx c' = Idle → key c' = key c → consistent c → consistent c'.
Proof.
  unfold key, consistent. intros Htx [= H1 H2 H3] [_ Hinv]. by rewrite H1, H2, H3.
Qed.

Ltac frame_handler :=
  match goal with
  | |- tx ?c = Idle → _ => destruct c as [t q x n]; simpl; intros ->
  end;
  unfold key; unfold_session; frame_cases; use_tag_step; simpl in *;
  try congruence; try (split; congruence).

Lemma createTask_frame (P : User) lid ti d p dd tags c :
  tx c = Idle →
  let c' := (Tasks.createTask no_faults P lid ti d p dd tags c).2 in
  tx c' = Idle ∧ key c' = key c.
Proof.
  unfold Tasks.createTask, Tasks.checkListAccess, Tasks.insert_task. frame_handler.
Qed.

Lemma updateTask_frame (P : User) tid ti d p dd co tags c :
  tx c = Idle →
  let c' := (Tasks.updateTask no_faults P tid ti d p dd co tags c).2 in
  tx c' = Idle ∧ key c' = key c.
Proof.
  unfold Tasks.updateTask, Tasks.checkListAccess, Tasks.update_task, Tasks.delete_task_tags.
  frame_handler.
Qed.

Lemma getList_frame (P : User) lid c :
  tx c = Idle →
  let c' := (Lists.getList no_faults P lid c).2 in tx c' = Idle ∧ key c' = key c.
Proof. unfold Lists.getList. frame_handler. Qed.

Lemma getTask_frame (P : User) tid c :
  tx c = Idle →
  let c' := (Tasks.getTask no_faults P tid c).2 in tx c' = Idle ∧ key c' = key c.
Proof. unfold Tasks.getTask, Tasks.checkListAccess. frame_handler. Qed.

Lemma toggleTask_frame (P : User) tid c :
  tx c = Idle →
  let c' := (Tasks.toggleTask no_faults P tid c).2 in tx c' = Idle ∧ key c' = key c.
Proof.
  unfold Tasks.toggleTask, Tasks.checkListAccess, Tasks.update_task_completed.
  frame_handler.
Qed.

Lemma deleteTask_frame (P : User) tid c :
  tx c = Idle →
  let c' := (Tasks.deleteTask no_faults P tid c).2 in tx c' = Idle ∧ key c' = key c.
Proof. unfold Tasks.deleteTask, Tasks.checkListAccess, Tasks.delete_task. frame_handler. Qed.

Lemma createSubtask_frame (P : User) tid ti c :
  tx c = Idle →
  let c' := (Tasks.createSubtask no_faults P tid ti c).2 in tx c' = Idle ∧ key c' = key c.
Proof.
  unfold Tasks.createSubtask, Tasks.checkListAccess, Tasks.insert_subtask. frame_handler.
Qed.

Lemma updateSubtask_frame (P : User) sid ti co c :
  tx c = Idle →
  let c' := (Tasks.updateSubtask no_faults P sid ti co c).2 in
  tx c' = Idle ∧ key c' = key c.
Proof.
  unfold Tasks.updateSubtask, Tasks.checkListAccess, Tasks.update_subtask. frame_handler.
Qed.

Lemma toggleSubtask_frame (P : User) sid c :
  tx c = Idle →
  let c' := (Tasks.toggleSubtask no_faults P sid c).2 in tx c' = Idle ∧ key c' = key c.
Proof.
  unfold Tasks.toggleSubtask, Tasks.checkListAccess, Tasks.update_subtask_completed.
  frame_handler.
Qed.

Lemma deleteSubtask_frame (P : User) sid c :
  tx c = Idle →
  let c' := (Tasks.deleteSubtask no_faults P sid c).2 in tx c' = Idle ∧ key c' = key c.
Proof.
  unfold Tasks.deleteSubtask, Tasks.checkListAccess, Tasks.delete_subtask. frame_handler.
Qed.

(** ** Reachable states *)

Lemma handle_consistent (P : User) r c :
  consistent c → consistent (handle no_faults P r c).2.
Proof.
  intros Hc. pose proof Hc as [Htx _].
  assert (Hframe : ∀ c', tx c' = Idle ∧ key c' = key c → consistent c')
    by (intros c' [? ?]; by eapply consistent_frame).
  destruct r; simpl.
  - by apply Hframe, getList_frame.
  - by apply createList_consistent.
  - by apply renameList_consistent.
  - by apply deleteList_consistent.
  - destruct (validateListMember role) eqn:E; [by apply addMember_consistent|done].
  - by apply updateMemberRole_consistent.
  - by apply removeMember_consistent.
  - by apply leaveList_consistent.
  - by apply transferOwnership_consistent.
  - by apply Hframe, getTask_frame.
  - by apply Hframe, createTask_frame.
  - by apply Hframe, updateTask_frame.
  - by apply Hframe, toggleTask_frame.
  - by apply Hframe, deleteTask_frame.
  - by apply Hframe, createSubtask_frame.
  - by apply Hframe, updateSubtask_frame.
  - by apply Hframe, toggleSubtask_frame.
  - by apply Hframe, deleteSubtask_frame.
Qed.

Lemma initial_consistent us : consistent (initial us).
Proof.
  split; [done|]. simpl. split_and!.
  - intros ? ?. by rewrite lookup_empty.
  - intros ? ? ?. by rewrite lookup_empty.
  - intros ? [? H]. by rewrite lookup_empty in H.
  - intros ? ?. by rewrite lookup_empty.
Qed.

Lemma reachable_consistent us c : reachable us c → consistent c.
Proof.
  induction 1 as [|c P r _ IH]; [apply initial_consistent|by apply handle_consistent].
Qed.

Lemma reachable_roles_valid us c : reachable us c → roles_valid (db c).
Proof. intros [_ (_ & _ & _ & H)]%reachable_consistent. exact H. Qed.

Lemma shared_reachable : reachable [Sample.ann; Sample.bob; Sample.cyd] Sample.shared.
Proof. do 2 apply reachable_handle. apply reachable_initial. Qed.

Lemma transferred_reachable :
  reachable [Sample.ann; Sample.bob; Sample.cyd] Sample.transferred.
Proof. apply reachable_handle, shared_reachable. Qed.

(** C4. In every state reachable from a fresh database by the public
    operations, no list has a membership row for its own owner. *)
Theorem owner_never_member us c : reachable us c → owner_not_member (db c).
Proof. intros [_ (H & _)]%reachable_consistent. exact H. Qed.

(** ** The owner as the target of a membership operation

    What the two handlers do once they are called. *)

Lemma removeMember_owner c (P : User) lid l :
  tx c = Idle →
  can_manage (db c) (user_id P) lid →
  lists (db c) !! lid = Some l →
  let r := ListMembers.removeMember no_faults P lid (owner_id l) c in
  r.1 = error_response 400 "Cannot remove the list owner" ∧ db r.2 = db c.
Proof.
  intros Htx [pr Hpr]%select_owner_or_admin_manage Hl.
  unfold ListMembers.removeMember, ListMembers.checkListPermission. unfold_session.
  simpl. rewrite Htx. simpl. rewrite Hpr. simpl.
  by rewrite (select_owned_list_owner _ _ _ _ Hl eq_refl).
Qed.

Lemma updateMemberRole_owner c (P : User) lid l role :
  tx c = Idle →
  can_manage (db c) (user_id P) lid →
  lists (db c) !! lid = Some l →
  list_members (db c) !! (lid, owner_id l) = None →
  role = "member" ∨ role = "admin" →
  let r := ListMembers.updateMemberRole no_faults P lid (owner_id l) (Some role) c in
  r.1 = error_response 404 "User is not a member of this list" ∧ db r.2 = db c.
Proof.
  intros Htx [pr Hpr]%select_owner_or_admin_manage Hl Hnone Hrole.
  unfold ListMembers.updateMemberRole, ListMembers.checkListPermission, select_member_role.
  assert (negb (Js.truthy role) || negb (ListMembers.is_role role) = false) as ->
    by (by destruct Hrole as [-> | ->]).
  unfold_session. simpl. rewrite Htx. simpl. rewrite Hpr. simpl. by rewrite Hnone.
Qed.

(** ** Tag names that repeat *)

(** Once a name has been upserted, upserting it again gives the same id
    and leaves the tables alone. *)
Lemma upsert_tag_again w t q gid t' q' :
  Tasks.upsert_tag w t q = inr (gid, t', q') →
  tag_exists gid t' = true
  ∧ ∀ t'' q'', tags t'' = tags t' →
      ∃ q3, Tasks.upsert_tag w t'' q'' = inr (gid, t'', q3).
Proof.
  unfold Tasks.upsert_tag.
  destruct (filter (λ g, tag_name g = w) (tags t)) as [|g gs] eqn:Hf.
  - case_match; [done|]. intros [= <- <- <-]. split.
    + unfold tag_exists. apply bool_decide_eq_true. simpl.
      rewrite fmap_app. apply elem_of_app. right. simpl. left.
    + intros t'' q'' ->. simpl. rewrite filter_app, Hf. simpl.
      rewrite filter_cons. simpl. rewrite decide_True by done. eauto.
  - intros [= <- <- <-]. split.
    + unfold tag_exists. apply bool_decide_eq_true.
      apply list_elem_of_fmap. exists g. split; [done|].
      assert (g ∈ filter (λ g, tag_name g = w) (tags t)) as Hin by (rewrite Hf; left).
      by apply list_elem_of_filter in Hin as [_ ?].
    + intros t'' q'' ->. rewrite Hf. eauto.
Qed.

Lemma insert_task_tag_new b tid gid t q :
  (tid, gid) ∉ task_tags t →
  is_Some (tasks t !! tid) →
  tag_exists gid t = true →
  Tasks.insert_task_tag b tid gid t q
  = inr ((), set_task_tags (union {[ (tid, gid) ]}) t, q).
Proof.
  intros H1 H2 H3. unfold Tasks.insert_task_tag.
  by rewrite (bool_decide_eq_false_2 _ H1), (bool_decide_eq_true_2 _ H2), H3.
Qed.

Lemma insert_task_tag_again tid gid t q :
  (tid, gid) ∈ task_tags t →
  Tasks.insert_task_tag false tid gid t q = inl UniqueViolation.
Proof.
  intros H. unfold Tasks.insert_task_tag. by rewrite (bool_decide_eq_true_2 _ H).
Qed.

(** [PUT /:id] with a tag list whose two names are the same after
    trimming and lower-casing: the second link violates the primary key
    of [task_tags], and the whole update is rolled back. *)
Lemma updateTask_repeated_tag c (P : User) tid row ti d p dd co n1 n2 :
  tx c = Idle →
  tasks (db c) !! tid = Some row →
  has_role (db c) (user_id P) (task_list_id row) →
  Js.truthy n1 && Js.truthy (Js.trim n1) = true →
  Js.truthy n2 && Js.truthy (Js.trim n2) = true →
  Js.toLowerCase (Js.trim n1) = Js.toLowerCase (Js.trim n2) →
  let r := Tasks.updateTask no_faults P tid ti d p dd co (Some [n1; n2]) c in
  r.1 = error_response 500 "Internal server error" ∧ db r.2 = db c ∧ tx r.2 = Idle.
Proof.
  intros Htx Hrow [pr Hpr]%select_owner_or_member_role H1 H2 Hsame.
  unfold Tasks.updateTask, Tasks.checkListAccess, Tasks.select_task, Tasks.update_task,
    Tasks.delete_task_tags.
  unfold_session. simpl. rewrite Htx, Hrow. simpl. rewrite Hpr. simpl. rewrite Hrow.
  simpl. rewrite H1, H2, <- Hsame. unfold_session. simpl.
  match goal with |- context [Tasks.upsert_tag ?w ?t1 ?q1] =>
    destruct (Tasks.upsert_tag w t1 q1) as [e|[[gid t2] q2]] eqn:Hup end; [done|].
  simpl.
  destruct (upsert_tag_again _ _ _ _ _ _ Hup) as [Hex Hagain].
  assert (Htags : tasks t2 = <[tid := {| task_list_id := task_list_id row; title := ti;
                    description := d; priority := p; due_date := dd;
                    completed := match co with Some v => v | None => Some false end |}]>
                    (tasks (db c))
                  ∧ task_tags t2 = filter (λ p, p.1 ≠ tid) (task_tags (db c))).
  { revert Hup. unfold Tasks.upsert_tag. simpl.
    repeat case_match; intros; simplify_eq; done. }
  destruct Htags as [Ht2 Htt2].
  rewrite insert_task_tag_new; [|rewrite Htt2|rewrite Ht2, lookup_insert_eq|]; [| |by eauto|done].
  2: { intros [Hne _]%elem_of_filter. by apply Hne. }
  simpl.
  match goal with |- context [Tasks.upsert_tag ?w ?t3 ?q3] =>
    destruct (Hagain t3 q3 eq_refl) as [q4 ->] end.
  simpl. rewrite insert_task_tag_again; [done|].
  simpl. apply elem_of_union. left. by apply elem_of_singleton.
Qed.

(** ** Completion of tasks and of subtasks *)

Ltac keep_handler :=
  match goal with
  | |- tx ?c = Idle → _ => destruct c as [t q x n]; simpl; intros ->
  end;
  unfold_session; frame_cases; use_tag_step; simpl in *; try congruence.

Lemma subtask_routes_keep_tasks (P : User) r c :
  tx c = Idle →
  match r with
  | CreateSubtask _ _ | UpdateSubtask _ _ _ | ToggleSubtask _ | DeleteSubtask _ =>
      tasks (db (handle no_faults P r c).2) = tasks (db c)
  | _ => True
  end.
Proof.
  destruct r; try done; simpl.
  - unfold Tasks.createSubtask, Tasks.checkListAccess, Tasks.insert_subtask. keep_handler.
  - unfold Tasks.updateSubtask, Tasks.checkListAccess, Tasks.update_subtask. keep_handler.
  - unfold Tasks.toggleSubtask, Tasks.checkListAccess, Tasks.update_subtask_completed.
    keep_handler.
  - unfold Tasks.deleteSubtask, Tasks.checkListAccess, Tasks.delete_subtask. keep_handler.
Qed.

Lemma task_routes_keep_subtasks (P : User) r c :
  tx c = Idle →
  match r with
  | CreateTask _ _ _ _ _ _ | UpdateTask _ _ _ _ _ _ _ | ToggleTask _ =>
      subtasks (db (handle no_faults P r c).2) = subtasks (db c)
  | _ => True
  end.
Proof.
  destruct r; try done; simpl.
  - unfold Tasks.createTask, Tasks.checkListAccess, Tasks.insert_task. keep_handler.
  - unfold Tasks.updateTask, Tasks.checkListAccess, Tasks.update_task,
      Tasks.delete_task_tags. keep_handler.
  - unfold Tasks.toggleTask, Tasks.checkListAccess, Tasks.update_task_completed.
    keep_handler.
Qed.

(** What [PUT /:id] does to an existing task the user may access: either
    the task row is rewritten from the request (with [completed] as
    supplied, or false) and only tags and tag links change besides, or the
    request fails and the transaction is rolled back. *)
Lemma updateTask_run c (P : User) tid row ti d p dd co tags :
  tx c = Idle →
  tasks (db c) !! tid = Some row →
  has_role (db c) (user_id P) (task_list_id row) →
  let r := Tasks.updateTask no_faults P tid ti d p dd co tags c in
  tx r.2 = Idle
  ∧ ((status r.1 = 200
      ∧ same_but_tags
          (set_tasks (insert tid
             {| task_list_id := task_list_id row; title := ti; description := d;
                priority := p; due_date := dd;
                completed := match co with Some v => v | None => Some false end |}) (db c))
          (db r.2))
     ∨ (status r.1 = 500 ∧ db r.2 = db c)).
Proof.
  intros Htx Hrow [pr Hpr]%select_owner_or_member_role.
  unfold Tasks.updateTask, Tasks.checkListAccess.
  set (m := match tags with Some names => _ | None => _ end).
  assert (Hm : tag_step m) by apply tag_step_update_tags.
  unfold Tasks.select_task, Tasks.update_task. unfold_session. simpl.
  rewrite Htx, Hrow. simpl. rewrite Hpr. simpl. rewrite Hrow. simpl.
  match goal with |- context [m ?c1] => specialize (Hm c1 (db c) eq_refl) end.
  simpl in Hm.
  match goal with |- context [m ?c1] => destruct (m c1) as [[[]|e] c2] end;
    simpl in *; destruct Hm as (Hsame & _ & Htx2); rewrite Htx2; simpl.
  - unfold Tasks.select_task_with_tags.
    pose proof Hsame as (_ & _ & _ & Ht & _). simpl in Ht. rewrite Ht.
    rewrite lookup_insert_eq. simpl. split; [done|]. by left.
  - split; [done|]. by right.
Qed.

Lemma updateTask_no_tags c (P : User) tid row ti d p dd co :
  tx c = Idle →
  tasks (db c) !! tid = Some row →
  has_role (db c) (user_id P) (task_list_id row) →
  let r := Tasks.updateTask no_faults P tid ti d p dd co None c in
  status r.1 = 200.
Proof.
  intros Htx Hrow [pr Hpr]%select_owner_or_member_role.
  unfold Tasks.updateTask, Tasks.checkListAccess, Tasks.select_task, Tasks.update_task,
    Tasks.select_task_with_tags.
  unfold_session. simpl. rewrite Htx, Hrow. simpl. rewrite Hpr. simpl. rewrite Hrow. simpl.
  by rewrite lookup_insert_eq.
Qed.

Lemma updateSubtask_run c (P : User) sid s row ti co :
  tx c = Idle →
  subtasks (db c) !! sid = Some s →
  tasks (db c) !! subtask_task_id s = Some row →
  has_role (db c) (user_id P) (task_list_id row) →
  let r := Tasks.updateSubtask no_faults P sid ti co c in
  status r.1 = 200
  ∧ tx r.2 = Idle
  ∧ db r.2 = set_subtasks (insert sid
               {| subtask_task_id := subtask_task_id s; subtask_title := ti;
                  subtask_completed := match co with
                                       | Some v => v
                                       | None => subtask_completed s
                                       end |}) (db c).
Proof.
  intros Htx Hs Hrow [pr Hpr]%select_owner_or_member_role.
  unfold Tasks.updateSubtask, Tasks.checkListAccess, Tasks.select_subtask_with_list,
    Tasks.update_subtask.
  unfold_session. simpl. rewrite Htx, Hs, Hrow. simpl. rewrite Hpr. simpl.
  rewrite Hs. done.
Qed.

Lemma toggleTask_run c (P : User) tid row :
  tx c = Idle →
  tasks (db c) !! tid = Some row →
  has_role (db c) (user_id P) (task_list_id row) →
  let r := Tasks.toggleTask no_faults P tid c in
  status r.1 = 200
  ∧ tx r.2 = Idle
  ∧ db r.2 = set_tasks (insert tid
               {| task_list_id := task_list_id row; title := title row;
                  description := description row; priority := priority row;
                  due_date := due_date row;
                  completed := Some (Js.lnot (completed row)) |}) (db c).
Proof.
  intros Htx Hrow [pr Hpr]%select_owner_or_member_role.
  unfold Tasks.toggleTask, Tasks.checkListAccess, Tasks.select_task,
    Tasks.update_task_completed.
  unfold_session. simpl. rewrite Htx, Hrow. simpl. rewrite Hpr. simpl.
  rewrite Hrow. done.
Qed.

(** C8. Toggling is an involution on a [completed] that is true or
    false.  For an existing task the principal may access, one toggle
    answers 200 and stores [!completed] (true for NULL, which a
    [PUT /:id] with [completed: null] stores), every other field of the
    task and every other task being as before; a second toggle answers 200
    and stores what was there at the start, with false for NULL.  So, when
    [completed] was true or false, two toggles give back the database of
    the start. *)
Theorem toggleTask_involution c (P : User) tid row :
  tx c = Idle →
  tasks (db c) !! tid = Some row →
  has_role (db c) (user_id P) (task_list_id row) →
  let once := Tasks.toggleTask no_faults P tid c in
  let twice := Tasks.toggleTask no_faults P tid once.2 in
  status once.1 = 200 ∧ status twice.1 = 200
  ∧ (∃ row', tasks (db once.2) !! tid = Some row'
       ∧ completed row' = Some (negb (default false (completed row)))
       ∧ task_list_id row' = task_list_id row ∧ title row' = title row
       ∧ description row' = description row ∧ priority row' = priority row
       ∧ due_date row' = due_date row)
  ∧ (∀ j, j ≠ tid → tasks (db once.2) !! j = tasks (db c) !! j)
  ∧ (∃ row'', tasks (db twice.2) !! tid = Some row''
       ∧ completed row'' = Some (default false (completed row))
       ∧ task_list_id row'' = task_list_id row ∧ title row'' = title row
       ∧ description row'' = description row ∧ priority row'' = priority row
       ∧ due_date row'' = due_date row)
  ∧ (∀ j, j ≠ tid → tasks (db twice.2) !! j = tasks (db c) !! j)
  ∧ (is_Some (completed row)
     → tasks (db twice.2) !! tid = Some row ∧ db twice.2 = db c).
Proof.
  intros Htx Hrow Hrole once twice.
  destruct (toggleTask_run c P tid row Htx Hrow Hrole) as (Hs1 & Htx1 & Hdb1).
  fold once in Hs1, Htx1, Hdb1.
  set (row' := {| task_list_id := task_list_id row; title := title row;
                  description := description row; priority := priority row;
                  due_date := due_date row;
                  completed := Some (Js.lnot (completed row)) |}) in *.
  assert (Hrow1 : tasks (db once.2) !! tid = Some row')
    by (rewrite Hdb1; simpl; apply lookup_insert_eq).
  assert (Hrole1 : has_role (db once.2) (user_id P) (task_list_id row'))
    by (rewrite Hdb1; exact Hrole).
  destruct (toggleTask_run once.2 P tid row' Htx1 Hrow1 Hrole1) as (Hs2 & Htx2 & Hdb2).
  fold twice in Hs2, Htx2, Hdb2.
  set (row'' := {| task_list_id := task_list_id row'; title := title row';
                   description := description row'; priority := priority row';
                   due_date := due_date row';
                   completed := Some (Js.lnot (completed row')) |}) in *.
  assert (Hrow2 : tasks (db twice.2) !! tid = Some row'')
    by (rewrite Hdb2; simpl; apply lookup_insert_eq).
  assert (Hback : is_Some (completed row) → db twice.2 = db c).
  { intros [b Hb]. rewrite Hdb2, Hdb1.
    destruct (db c) as [us ls ms ts ss gs tt]. unfold set_tasks. simpl in *.
    f_equal. rewrite insert_insert_eq. apply insert_id. rewrite Hrow. f_equal.
    subst row'' row'. destruct row; simpl in *. subst.
    unfold Js.lnot. simpl. by rewrite negb_involutive. }
  split_and!; try done.
  - exists row'. by split_and!.
  - intros j Hj. rewrite Hdb1. simpl. by apply lookup_insert_ne.
  - exists row''. split_and!; try done. subst row'' row'. simpl.
    unfold Js.lnot. simpl. by rewrite negb_involutive.
  - intros j Hj. rewrite Hdb2, Hdb1. simpl. by rewrite !lookup_insert_ne.
  - intros Hb. split; [|by apply Hback]. by rewrite (Hback Hb).
Qed.

(** C10. The two update routes treat an omitted [completed] differently.
    [PUT /subtasks/:subtaskId] without [completed] answers 200 and keeps the
    stored value of the subtask; [PUT /:id] without [completed] stores false
    whenever it succeeds (and it succeeds when no tags are supplied). *)
Theorem update_omitted_completed :
  (∀ c (P : User) sid s row ti,
     tx c = Idle →
     subtasks (db c) !! sid = Some s →
     tasks (db c) !! subtask_task_id s = Some row →
     has_role (db c) (user_id P) (task_list_id row) →
     let r := Tasks.updateSubtask no_faults P sid ti None c in
     status r.1 = 200
     ∧ subtask_completed <$> subtasks (db r.2) !! sid = Some (subtask_completed s))
  ∧ (∀ c (P : User) tid row ti d p dd tags,
       tx c = Idle →
       tasks (db c) !! tid = Some row →
       has_role (db c) (user_id P) (task_list_id row) →
       let r := Tasks.updateTask no_faults P tid ti d p dd None tags c in
       (tags = None → status r.1 = 200)
       ∧ (status r.1 = 200
          → completed <$> tasks (db r.2) !! tid = Some (Some false))).
Proof.
  split.
  - intros c P sid s row ti Htx Hs Hrow Hrole r.
    destruct (updateSubtask_run c P sid s row ti None Htx Hs Hrow Hrole) as (H1 & _ & H3).
    fold r in H1, H3. split; [done|]. rewrite H3. simpl. by rewrite lookup_insert_eq.
  - intros c P tid row ti d p dd tags Htx Hrow Hrole r. split.
    + intros ->. by eapply updateTask_no_tags.
    + destruct (updateTask_run c P tid row ti d p dd None tags Htx Hrow Hrole)
        as (_ & [[_ Hsame]|[H500 _]]); fold r in Hsame || fold r in H500.
      * intros _. destruct Hsame as (_ & _ & _ & Ht & _). rewrite Ht. simpl.
        by rewrite lookup_insert_eq.
      * rewrite H500. done.
Qed.

(** ** Adding a member

    What the handler does once it is called. *)

Lemma addMember_cases c (P : User) lid email role :
  tx c = Idle →
  let r := ListMembers.addMember no_faults P lid email role c in
  (status r.1 ≠ 201 → db r.2 = db c)
  ∧ (can_manage (db c) (user_id P) lid →
     ((∀ u, u ∈ users (db c) → user_email u ≠ email) → status r.1 = 404)
     ∧ (∀ u rest, select_users_by_email email (db c) = u :: rest →
          ((∃ l, lists (db c) !! lid = Some l ∧ owner_id l = user_id u)
           ∨ is_Some (list_members (db c) !! (lid, user_id u)) →
           status r.1 = 409)
          ∧ (¬ (∃ l, lists (db c) !! lid = Some l ∧ owner_id l = user_id u) →
             list_members (db c) !! (lid, user_id u) = None →
             status r.1 = 201
             ∧ db r.2 = set_list_members
                          (insert (lid, user_id u) (default "member" role)) (db c)))).
Proof.
  intros Htx r. split.
  - subst r. destruct c as [t q x n]. simpl in *. subst x.
    unfold ListMembers.addMember, ListMembers.checkListPermission, insert_list_member.
    unfold_session. frame_cases; done.
  - intros Hman. pose proof Hman as (l & Hl & _).
    apply select_owner_or_admin_manage in Hman as [pr Hpr].
    subst r. unfold ListMembers.addMember, ListMembers.checkListPermission.
    unfold_session. simpl. rewrite Htx. simpl. rewrite Hpr. simpl. split.
    + intros Hno. by rewrite select_users_by_email_none.
    + intros u rest Hsel. rewrite Hsel. simpl.
      apply select_users_by_email_cons in Hsel as [Hu _].
      unfold select_owned_list, select_member_role, insert_list_member.
      rewrite Hl. split.
      * intros [(l' & Hl' & Ho)|[r Hr]].
        -- simplify_eq. by rewrite bool_decide_eq_true_2.
        -- case_bool_decide; [done|]. simpl. by rewrite Hr.
      * intros Hno Hnone. rewrite bool_decide_eq_false_2 by (intros ?; apply Hno; eauto).
        simpl. rewrite Hnone. simpl. rewrite Hnone, Hl.
        rewrite (user_exists_elem_of _ _ Hu). done.
Qed.

Lemma addMember_failure_inserts_nothing faults c (P : User) lid email role :
  tx c = Idle →
  let r := ListMembers.addMember faults P lid email role c in
  status r.1 ≠ 201 → db r.2 = db c.
Proof.
  intros Htx r. subst r. destruct c as [t q x n]. simpl in *. subst x.
  unfold ListMembers.addMember, ListMembers.checkListPermission, insert_list_member.
  unfold_session. frame_cases; done.
Qed.

(** ** Examples on the sample database *)

Lemma bob_has_role : has_role (db Sample.with_task) 2 1.
Proof.
  exists Sample.groceries. split; [vm_compute; reflexivity|].
  right. exists "member". vm_compute. reflexivity.
Qed.

Lemma ann_can_manage : can_manage (db Sample.shared) 1 1.
Proof. exists Sample.groceries. split; [vm_compute; reflexivity|by left]. Qed.

(** Cyd has no role on list 1. *)
Lemma cyd_has_no_role : ¬ has_role (db Sample.with_task) 3 1.
Proof.
  intros (l & Hl & [Ho|[r Hr]]).
  - vm_compute in Hl. injection Hl as <-. discriminate.
  - vm_compute in Hr. discriminate.
Qed.

(** The effective role of Bob, a member of list 1. *)
Lemma effective_role_spec_witness :
  let role := Lists.effectiveRole 2 1 (db Sample.shared) in
  (role = Some "owner" ↔ 1 = 2)
  ∧ (1 ≠ 2 → role = list_members (db Sample.shared) !! (1, 2))
  ∧ (exists! r, r ∈ effective_roles ∧ role = r).
Proof.
  apply (effective_role_spec (db Sample.shared) Sample.bob 1 Sample.groceries).
  - vm_compute. reflexivity.
  - apply (bool_decide_unpack _). vm_compute. exact I.
  - apply (reachable_roles_valid _ _ shared_reachable).
Defined.

(** Ann hands list 1 to Bob and statement (c) fails. *)
Lemma transferOwnership_atomic_witness :
  let r := ListMembers.transferOwnership (fail_at (issued Sample.shared + 4)) Sample.ann 1
             (Some "Bob@Example.org") Sample.shared in
  status r.1 = 500 ∧ db r.2 = db Sample.shared ∧ tx r.2 = Idle.
Proof.
  apply (transferOwnership_atomic (fail_at (issued Sample.shared + 4)) Sample.shared
           Sample.ann 1 Sample.groceries "Bob@Example.org" Sample.bob [] 4).
  - vm_compute. reflexivity.
  - vm_compute. reflexivity.
  - reflexivity.
  - vm_compute. left.
  - vm_compute. reflexivity.
  - discriminate.
  - vm_compute. reflexivity.
  - vm_compute. discriminate.
  - lia.
  - apply fails_first_at_fail_at.
Defined.

(** After the transfer, Bob owns list 1 and has no membership row on it. *)
Lemma owner_never_member_witness : owner_not_member (db Sample.transferred).
Proof.
  apply (owner_never_member [Sample.ann; Sample.bob; Sample.cyd] Sample.transferred).
  exact transferred_reachable.
Defined.

(** Bob toggles task 1 twice. *)
Lemma toggleTask_involution_witness :
  let once := Tasks.toggleTask no_faults Sample.bob 1 Sample.with_task in
  let twice := Tasks.toggleTask no_faults Sample.bob 1 once.2 in
  completed <$> tasks (db once.2) !! 1 = Some (Some false)
  ∧ db twice.2 = db Sample.with_task.
Proof.
  destruct (toggleTask_involution Sample.with_task Sample.bob 1 Sample.milk)
    as (_ & _ & (row' & Hrow' & Hflip & _) & _ & _ & _ & Hback).
  - vm_compute. reflexivity.
  - vm_compute. reflexivity.
  - exact bob_has_role.
  - split; [|apply Hback; by eexists]. rewrite Hrow'. simpl. rewrite Hflip. reflexivity.
Defined.

(** Ann, who owns list 1 with task 1, sends [PUT /tasks/1] with
    [completed: null] and then [PATCH /tasks/1/toggle] twice: the task ends
    not completed, which is not the NULL it had before the two toggles. *)
Lemma toggleTask_null_is_not_restored :
  let null := serve no_faults Sample.ann
                (UpdateTask 1 "Milk" None None None (Some None) None)
                Sample.own_task in
  let once := serve no_faults Sample.ann (ToggleTask 1) null.2 in
  let twice := serve no_faults Sample.ann (ToggleTask 1) once.2 in
  once = Tasks.toggleTask no_faults Sample.ann 1 null.2
  ∧ twice = Tasks.toggleTask no_faults Sample.ann 1 once.2
  ∧ status null.1 = 200 ∧ status once.1 = 200 ∧ status twice.1 = 200
  ∧ completed <$> tasks (db null.2) !! 1 = Some None
  ∧ completed <$> tasks (db once.2) !! 1 = Some (Some true)
  ∧ completed <$> tasks (db twice.2) !! 1 = Some (Some false)
  ∧ completed <$> tasks (db twice.2) !! 1 ≠ completed <$> tasks (db null.2) !! 1.
Proof. split_and!; vm_compute; (reflexivity || discriminate). Qed.

(** Bob renames the ticked subtask 1 and the ticked task 1. *)
Lemma update_omitted_completed_witness :
  subtask_completed <$>
    subtasks (db (Tasks.updateSubtask no_faults Sample.bob 1 "Semi" None
                    Sample.with_task).2) !! 1 = Some (Some true)
  ∧ completed <$>
      tasks (db (Tasks.updateTask no_faults Sample.bob 1 "Oat milk" None None None
                   None None Sample.with_task).2) !! 1 = Some (Some false).
Proof.
  destruct update_omitted_completed as [Hsub Htask]. split.
  - apply (Hsub Sample.with_task Sample.bob 1 Sample.skimmed Sample.milk "Semi").
    + vm_compute. reflexivity.
    + vm_compute. reflexivity.
    + vm_compute. reflexivity.
    + exact bob_has_role.
  - destruct (Htask Sample.with_task Sample.bob 1 Sample.milk "Oat milk" None None None
                None) as [H200 Hfalse].
    + vm_compute. reflexivity.
    + vm_compute. reflexivity.
    + exact bob_has_role.
    + apply Hfalse, H200. reflexivity.
Defined.

(** C3. Existence hiding does not hold for tasks and subtasks: for Cyd,
    who has no role on list 1, the answer for task 1 (which exists) and the
    answer for task 2 (which does not) carry the same status but different
    messages, and so do the answers for subtask 1 and subtask 2. *)
Example getTask_reveals_existence :
  let denied := (Tasks.getTask no_faults Sample.cyd 1 Sample.with_task).1 in
  let missing := (Tasks.getTask no_faults Sample.cyd 2 Sample.with_task).1 in
  let denied_subtask := (Tasks.toggleSubtask no_faults Sample.cyd 1 Sample.with_task).1 in
  let missing_subtask := (Tasks.toggleSubtask no_faults Sample.cyd 2 Sample.with_task).1 in
  tasks (db Sample.with_task) !! 1 = Some Sample.milk
  ∧ subtasks (db Sample.with_task) !! 1 = Some Sample.skimmed
  ∧ ¬ has_role (db Sample.with_task) (user_id Sample.cyd) (task_list_id Sample.milk)
  ∧ tasks (db Sample.with_task) !! 2 = None
  ∧ subtasks (db Sample.with_task) !! 2 = None
  ∧ denied = error_response 404 "Task not found or access denied"
  ∧ missing = error_response 404 "Task not found"
  ∧ denied ≠ missing
  ∧ denied_subtask = error_response 404 "Subtask not found or access denied"
  ∧ missing_subtask = error_response 404 "Subtask not found"
  ∧ denied_subtask ≠ missing_subtask.
Proof.
  split_and!; try (vm_compute; reflexivity); try (vm_compute; discriminate).
  exact cyd_has_no_role.
Qed.

(** C5. Ann, who has created list 1 and owns it, as the target of
    [PUT /lists/1/members/1] and of [DELETE /lists/1/members/1], which she
    sends herself.  Both end in [validateId], which looks for a parameter
    [id] where the routes have [listId] and [userId]: the answer is 400
    "Validation failed", not the refusal of an operation on the owner.
    The handlers behind it, were they reached, differ: the removal is
    refused with 400 "Cannot remove the list owner", the role update with
    404 (the owner has no membership row to look up).  Nothing changes the
    tables. *)
Example updateMemberRole_owner_is_refused :
  let c := Sample.own_list in
  let put := serve no_faults Sample.ann (UpdateMemberRole 1 1 (Some "member")) c in
  let del := serve no_faults Sample.ann (RemoveMember 1 1) c in
  let update := ListMembers.updateMemberRole no_faults Sample.ann 1 1 (Some "member") c in
  let remove := ListMembers.removeMember no_faults Sample.ann 1 1 c in
  owner_id <$> lists (db c) !! 1 = Some 1
  ∧ put = (validation_failed "ID must be a positive integer", c)
  ∧ del = (validation_failed "ID must be a positive integer", c)
  ∧ update.1 = error_response 404 "User is not a member of this list"
  ∧ remove.1 = error_response 400 "Cannot remove the list owner"
  ∧ db update.2 = db c
  ∧ db remove.2 = db c.
Proof. split_and!; vm_compute; reflexivity. Qed.

(** C9. [POST /lists/:listId/members] ends in [validateId], which looks
    for a parameter [id] where the route has [listId]: whoever asks, for
    whichever list, e-mail address and role, in whichever state, the
    answer is 400 "Validation failed" and the session is as before, so
    that no membership row is ever created.  On the sample: Ann has
    created list 1 and Bob, a registered user, has no role on it; the request
    that adds him is refused and the list has no member, where the
    handler, were it reached, would answer 201 and store the row. *)
Theorem addMember_is_refused :
  (∀ faults (P : User) lid email role c,
     serve faults P (AddMember lid email role) c
     = (validation_failed "ID must be a positive integer", c))
  ∧ let c := Sample.own_list in
    let r := serve no_faults Sample.ann (AddMember 1 "bob@example.org" None) c in
    let h := ListMembers.addMember no_faults Sample.ann 1 "bob@example.org" None c in
    owner_id <$> lists (db c) !! 1 = Some 1
    ∧ Sample.bob ∈ users (db c)
    ∧ list_members (db c) = ∅
    ∧ status r.1 = 400
    ∧ r.2 = c
    ∧ status h.1 = 201
    ∧ list_members (db h.2) = {[ (1, 2) := "member" ]}.
Proof.
  split; [reflexivity|].
  split_and!; try (vm_compute; reflexivity).
  apply elem_of_cons. right. apply elem_of_cons. by left.
Qed.

(** C6. The tag list ["work"; "work"]: [POST /] creates the task with one
    tag row named "work" and one link to it; [PUT /:id] fails with 500 and
    is rolled back. *)
Example updateTask_repeated_tag_fails :
  let create := Tasks.createTask no_faults Sample.bob 1 "Bread" None None None
                  (Some ["work"; "work"]) Sample.with_task in
  let update := Tasks.updateTask no_faults Sample.bob 1 "Milk" None None None
                  (Some (Some true)) (Some ["work"; "work"]) Sample.with_task in
  status create.1 = 201
  ∧ filter (λ g, tag_name g = "work") (tags (db create.2))
    = [ {| tag_id := 1; tag_name := "work" |} ]
  ∧ filter (λ p, p.1 = 2) (task_tags (db create.2)) = {[ (2, 1) ]}
  ∧ update.1 = error_response 500 "Internal server error"
  ∧ db update.2 = db Sample.with_task.
Proof. split_and!; vm_compute; reflexivity. Qed.

(** C7. Task 1 is completed; [PUT /:id] with no [completed] in the body
    answers 200 and leaves it not completed. *)
Example updateTask_resets_completed :
  let r := Tasks.updateTask no_faults Sample.bob 1 "Oat milk" None None None None None
             Sample.with_task in
  completed <$> tasks (db Sample.with_task) !! 1 = Some (Some true)
  ∧ status r.1 = 200
  ∧ completed <$> tasks (db r.2) !! 1 = Some (Some false).
Proof. split_and!; vm_compute; reflexivity. Qed.

(** * Further properties *)

(** ** Computations that keep a property of the session *)

Section Keeps.

Context (I : Conn → Prop).

Lemma keeps_ret {A} (a : A) : keeps I (ret a).
Proof. by intros c. Qed.

Lemma keeps_throw {A} e : keeps I (throw (A := A) e).
Proof. by intros c. Qed.

Lemma keeps_bind {A B} (m : M A) (k : A → M B) :
  keeps I m → (∀ a, keeps I (k a)) → keeps I (bind m k).
Proof.
  intros Hm Hk c Hc. specialize (Hm c Hc). unfold bind.
  destruct (m c) as [[a|e] c']; simpl in *; [by apply Hk|done].
Qed.

Lemma keeps_try_catch {A} (m : M A) (h : Error → M A) :
  keeps I m → (∀ e, keeps I (h e)) → keeps I (try_catch m h).
Proof.
  intros Hm Hh c Hc. specialize (Hm c Hc). unfold try_catch.
  destruct (m c) as [[a|e] c']; simpl in *; [done|by apply Hh].
Qed.

Lemma keeps_route (m : M Response) c : keeps I m → I c → I (route m c).2.
Proof.
  intros Hm Hc. specialize (Hm c Hc). unfold route.
  by destruct (m c) as [[a|e] c'].
Qed.

End Keeps.

(** ** Every statement keeps the constraints of the schema *)

Lemma seqs_le_refl q : seqs_le q q.
Proof. unfold seqs_le. lia. Qed.

Lemma integrity_mono t q q' : integrity t q → seqs_le q q' → integrity t q'.
Proof.
  intros [] (H1 & H2 & H3 & H4). constructor; try done.
  - intros lid ?%list_ids_below0. lia.
  - intros tid ?%task_ids_below0. lia.
  - intros sid ?%subtask_ids_below0. lia.
  - intros g ?%tag_ids_below0. lia.
Qed.

Ltac stmt_intro :=
  intros t q a t' q' Hi; intros Hst; simpl in Hst.

Ltac stmt_done := split; [|unfold seqs_le; simpl; lia].

Lemma select_sound {A} (f : Tables → A) : stmt_sound (select f).
Proof. stmt_intro. unfold select in Hst. simplify_eq. split; [done|apply seqs_le_refl]. Qed.

Lemma insert_list_member_sound lid uid role : stmt_sound (insert_list_member lid uid role).
Proof.
  stmt_intro. unfold insert_list_member in Hst. repeat case_match; simplify_eq.
  stmt_done.
  match goal with H : _ && _ = true |- _ => apply andb_true_iff in H as [Hl Hu] end.
  apply bool_decide_eq_true in Hl, Hu.
  destruct Hi; constructor; simpl; try done.
  - intros j v w. rewrite lookup_insert. case_decide as E; [|by eauto].
    injection E as <- <-. done.
  - intros j v w. rewrite lookup_insert. case_decide as E; [|by eauto].
    injection E as <- <-. done.
Qed.

Lemma delete_list_member_sound lid uid : stmt_sound (delete_list_member lid uid).
Proof.
  stmt_intro. unfold delete_list_member in Hst. repeat case_match; simplify_eq;
    (split; [|apply seqs_le_refl]); [|done].
  destruct Hi; constructor; simpl; try done.
  - intros j v w. rewrite lookup_delete. case_decide; [done|eauto].
  - intros j v w. rewrite lookup_delete. case_decide; [done|eauto].
Qed.

Lemma insert_list_sound nm owner : stmt_sound (Lists.insert_list nm owner).
Proof.
  stmt_intro. unfold Lists.insert_list in Hst. repeat case_match; simplify_eq.
  stmt_done.
  match goal with H : user_exists _ _ = true |- _ => apply bool_decide_eq_true in H end.
  destruct Hi; constructor; simpl; try done.
  - intros j w. rewrite lookup_insert. case_decide; [|by eauto]. by intros [= <-].
  - intros j v w ?%fk_member_list0. rewrite lookup_insert. case_decide; eauto.
  - intros j w ?%fk_task_list0. rewrite lookup_insert. case_decide; eauto.
  - intros j. rewrite lookup_insert. case_decide; [lia|]. intros ?%list_ids_below0. lia.
Qed.

Lemma update_list_name_sound nm lid : stmt_sound (Lists.update_list_name nm lid).
Proof.
  stmt_intro. unfold Lists.update_list_name in Hst. repeat case_match; simplify_eq;
    (split; [|apply seqs_le_refl]); [|done].
  destruct Hi; constructor; simpl; try done.
  - intros j w. rewrite lookup_insert. case_decide; [|by eauto].
    intros [= <-]. simpl. subst. eauto.
  - intros j v w ?%fk_member_list0. rewrite lookup_insert. case_decide; eauto.
  - intros j w ?%fk_task_list0. rewrite lookup_insert. case_decide; eauto.
  - intros j. rewrite lookup_insert. case_decide; [|by eauto]. subst. eauto.
Qed.

Lemma update_list_owner_sound new lid : stmt_sound (ListMembers.update_list_owner new lid).
Proof.
  stmt_intro. unfold ListMembers.update_list_owner in Hst.
  repeat case_match; simplify_eq; (split; [|apply seqs_le_refl]); [|done].
  match goal with H : user_exists _ _ = true |- _ => apply bool_decide_eq_true in H end.
  destruct Hi; constructor; simpl; try done.
  - intros j w. rewrite lookup_insert. case_decide; [|by eauto]. by intros [= <-].
  - intros j v w ?%fk_member_list0. rewrite lookup_insert. case_decide; eauto.
  - intros j w ?%fk_task_list0. rewrite lookup_insert. case_decide; eauto.
  - intros j. rewrite lookup_insert. case_decide; [|by eauto]. subst. eauto.
Qed.

Lemma update_member_role_sound role lid uid :
  stmt_sound (ListMembers.update_member_role role lid uid).
Proof.
  stmt_intro. unfold ListMembers.update_member_role in Hst.
  repeat case_match; simplify_eq; (split; [|apply seqs_le_refl]); [|done].
  destruct Hi; constructor; simpl; try done.
  - intros j v w. rewrite lookup_insert. case_decide as E; [|by eauto].
    injection E as <- <-. eauto.
  - intros j v w. rewrite lookup_insert. case_decide as E; [|by eauto].
    injection E as <- <-. eauto.
Qed.

Lemma delete_list_sound lid : stmt_sound (Lists.delete_list lid).
Proof.
  stmt_intro. unfold Lists.delete_list in Hst. simplify_eq.
  split; [|apply seqs_le_refl].
  destruct Hi; constructor; simpl; try done.
  - intros j w. rewrite lookup_delete. case_decide; [done|eauto].
  - intros j v w [Hm Hne]%map_lookup_filter_Some. simpl in Hne.
    rewrite lookup_delete_ne by done. eauto.
  - intros j v w [Hm _]%map_lookup_filter_Some. eauto.
  - intros j w [Ht Hne]%map_lookup_filter_Some. simpl in Hne.
    rewrite lookup_delete_ne by done. eauto.
  - intros j w [Hs Hkeep]%map_lookup_filter_Some. simpl in Hkeep.
    destruct (fk_subtask_task0 _ _ Hs) as [row Hrow].
    exists row. apply map_lookup_filter_Some. split; [done|]. simpl.
    intros E. apply Hkeep. rewrite Hrow. simpl. by rewrite E.
  - intros p [Hkeep Hp]%elem_of_filter.
    destruct (fk_link_task0 _ Hp) as [row Hrow].
    exists row. apply map_lookup_filter_Some. split; [done|]. simpl.
    intros E. apply Hkeep. rewrite Hrow. simpl. by rewrite E.
  - intros p [_ Hp]%elem_of_filter. eauto.
  - intros j. rewrite lookup_delete. case_decide; [by intros [? ?]|eauto].
  - intros j [w [Ht _]%map_lookup_filter_Some]. eauto.
  - intros j [w [Hs _]%map_lookup_filter_Some]. eauto.
Qed.

Lemma delete_task_sound tid : stmt_sound (Tasks.delete_task tid).
Proof.
  stmt_intro. unfold Tasks.delete_task in Hst. simplify_eq.
  split; [|apply seqs_le_refl].
  destruct Hi; constructor; simpl; try done.
  - intros j w. rewrite lookup_delete. case_decide; [done|eauto].
  - intros j w [Hs Hne]%map_lookup_filter_Some. simpl in Hne.
    rewrite lookup_delete_ne by done. eauto.
  - intros p [Hne Hp]%elem_of_filter. rewrite lookup_delete_ne by done. eauto.
  - intros p [_ Hp]%elem_of_filter. eauto.
  - intros j. rewrite lookup_delete. case_decide; [by intros [? ?]|eauto].
  - intros j [w [Hs _]%map_lookup_filter_Some]. eauto.
Qed.

Lemma delete_subtask_sound sid : stmt_sound (Tasks.delete_subtask sid).
Proof.
  stmt_intro. unfold Tasks.delete_subtask in Hst. simplify_eq.
  split; [|apply seqs_le_refl].
  destruct Hi; constructor; simpl; try done.
  - intros j w. rewrite lookup_delete. case_decide; [done|eauto].
  - intros j. rewrite lookup_delete. case_decide; [by intros [? ?]|eauto].
Qed.

Lemma insert_task_sound lid ti d p dd : stmt_sound (Tasks.insert_task lid ti d p dd).
Proof.
  stmt_intro. unfold Tasks.insert_task in Hst. repeat case_match; simplify_eq.
  stmt_done.
  match goal with H : bool_decide _ = true |- _ => apply bool_decide_eq_true in H end.
  destruct Hi; constructor; simpl; try done.
  - intros j w. rewrite lookup_insert. case_decide; [|by eauto]. by intros [= <-].
  - intros j w ?%fk_subtask_task0. rewrite lookup_insert. case_decide; eauto.
  - intros x ?%fk_link_task0. rewrite lookup_insert. case_decide; eauto.
  - intros j. rewrite lookup_insert. case_decide; [lia|]. intros ?%task_ids_below0. lia.
Qed.

Lemma update_task_sound ti d p dd co tid : stmt_sound (Tasks.update_task ti d p dd co tid).
Proof.
  stmt_intro. unfold Tasks.update_task in Hst.
  repeat case_match; simplify_eq; (split; [|apply seqs_le_refl]); [|done].
  destruct Hi; constructor; simpl; try done.
  - intros j w. rewrite lookup_insert. case_decide; [|by eauto].
    intros [= <-]. simpl. subst. eauto.
  - intros j w ?%fk_subtask_task0. rewrite lookup_insert. case_decide; eauto.
  - intros x ?%fk_link_task0. rewrite lookup_insert. case_decide; eauto.
  - intros j. rewrite lookup_insert. case_decide; [|by eauto]. subst. eauto.
Qed.

Lemma update_task_completed_sound co tid : stmt_sound (Tasks.update_task_completed co tid).
Proof.
  stmt_intro. unfold Tasks.update_task_completed in Hst.
  repeat case_match; simplify_eq; (split; [|apply seqs_le_refl]); [|done].
  destruct Hi; constructor; simpl; try done.
  - intros j w. rewrite lookup_insert. case_decide; [|by eauto].
    intros [= <-]. simpl. subst. eauto.
  - intros j w ?%fk_subtask_task0. rewrite lookup_insert. case_decide; eauto.
  - intros x ?%fk_link_task0. rewrite lookup_insert. case_decide; eauto.
  - intros j. rewrite lookup_insert. case_decide; [|by eauto]. subst. eauto.
Qed.

Lemma insert_subtask_sound tid ti : stmt_sound (Tasks.insert_subtask tid ti).
Proof.
  stmt_intro. unfold Tasks.insert_subtask in Hst. repeat case_match; simplify_eq.
  stmt_done.
  match goal with H : bool_decide _ = true |- _ => apply bool_decide_eq_true in H end.
  destruct Hi; constructor; simpl; try done.
  - intros j w. rewrite lookup_insert. case_decide; [|by eauto]. by intros [= <-].
  - intros j. rewrite lookup_insert. case_decide; [lia|]. intros ?%subtask_ids_below0. lia.
Qed.

Lemma update_subtask_sound ti co sid : stmt_sound (Tasks.update_subtask ti co sid).
Proof.
  stmt_intro. unfold Tasks.update_subtask in Hst.
  repeat case_match; simplify_eq; (split; [|apply seqs_le_refl]); [|done].
  destruct Hi; constructor; simpl; try done.
  - intros j w. rewrite lookup_insert. case_decide; [|by eauto].
    intros [= <-]. simpl. subst. eauto.
  - intros j. rewrite lookup_insert. case_decide; [|by eauto]. subst. eauto.
Qed.

Lemma update_subtask_completed_sound co sid :
  stmt_sound (Tasks.update_subtask_completed co sid).
Proof.
  stmt_intro. unfold Tasks.update_subtask_completed in Hst.
  repeat case_match; simplify_eq; (split; [|apply seqs_le_refl]); [|done].
  destruct Hi; constructor; simpl; try done.
  - intros j w. rewrite lookup_insert. case_decide; [|by eauto].
    intros [= <-]. simpl. subst. eauto.
  - intros j. rewrite lookup_insert. case_decide; [|by eauto]. subst. eauto.
Qed.

Lemma upsert_tag_sound nm : stmt_sound (Tasks.upsert_tag nm).
Proof.
  stmt_intro. unfold Tasks.upsert_tag in Hst.
  destruct (filter (λ g, tag_name g = nm) (tags t)) as [|g gs] eqn:Hf.
  - case_match eqn:Hex; simplify_eq. stmt_done.
    apply bool_decide_eq_false in Hex.
    destruct Hi; constructor; simpl; try done.
    + intros x ?%fk_link_tag0. rewrite fmap_app. apply elem_of_app. by left.
    + rewrite fmap_app. simpl. apply NoDup_app. split_and!; [done| |apply NoDup_singleton].
      intros n Hn Hn'%list_elem_of_singleton. subst n.
      apply list_elem_of_fmap in Hn as (g & Hnm & Hg).
      assert (Hin : g ∈ filter (λ g0, tag_name g0 = nm) (tags t))
        by (by apply list_elem_of_filter).
      rewrite Hf in Hin. by apply elem_of_nil in Hin.
    + rewrite fmap_app. simpl. apply NoDup_app. split_and!; [done| |apply NoDup_singleton].
      intros n Hn Hn'%list_elem_of_singleton. by subst n.
    + intros g [Hg|Hg%list_elem_of_singleton]%elem_of_app; [|subst g; simpl; lia].
      apply tag_ids_below0 in Hg. lia.
  - simplify_eq. stmt_done.
    destruct Hi; constructor; simpl; try done.
    intros g' ?%tag_ids_below0. lia.
Qed.

Lemma insert_task_tag_sound b tid gid : stmt_sound (Tasks.insert_task_tag b tid gid).
Proof.
  stmt_intro. unfold Tasks.insert_task_tag in Hst.
  repeat case_match; simplify_eq; (split; [|apply seqs_le_refl]); [done|].
  match goal with H : _ && _ = true |- _ => apply andb_true_iff in H as [Ht Hg] end.
  apply bool_decide_eq_true in Ht, Hg.
  destruct Hi; constructor; simpl; try done.
  - intros x [->%elem_of_singleton|Hx]%elem_of_union; [done|eauto].
  - intros x [->%elem_of_singleton|Hx]%elem_of_union; [done|eauto].
Qed.

Lemma delete_task_tags_sound tid : stmt_sound (Tasks.delete_task_tags tid).
Proof.
  stmt_intro. unfold Tasks.delete_task_tags in Hst. simplify_eq.
  split; [|apply seqs_le_refl].
  destruct Hi; constructor; simpl; try done.
  - intros x [_ Hx]%elem_of_filter. eauto.
  - intros x [_ Hx]%elem_of_filter. eauto.
Qed.

(** ** Every route keeps them, whatever fails *)

Section Sound.

Variable faults : nat → bool.
Variable q0 : Seqs.

Lemma seqs_le_trans q1 q2 q3 : seqs_le q1 q2 → seqs_le q2 q3 → seqs_le q1 q3.
Proof. unfold seqs_le. lia. Qed.

Lemma sound_query {A} (st : Stmt A) : stmt_sound st → keeps (sound q0) (query faults st).
Proof.
  intros Hst [t q x n] (Hq & Hi & Hs). unfold query, failed, sent. simpl in *.
  destruct (faults n); simpl; [by destruct x|].
  destruct x as [|s|s]; simpl; [| |done];
    (destruct (st t q) as [e|[[a t'] q']] eqn:E; simpl; [done|]);
    destruct (Hst _ _ _ _ _ Hi E) as [Hi' Hle];
    (split; [|split]); simpl; eauto using integrity_mono, seqs_le_trans.
Qed.

Lemma sound_BEGIN : keeps (sound q0) (BEGIN faults).
Proof.
  intros [t q x n] (Hq & Hi & Hs). unfold BEGIN, failed, sent. simpl in *.
  destruct (faults n); simpl; by destruct x.
Qed.

Lemma sound_COMMIT : keeps (sound q0) (COMMIT faults).
Proof.
  intros [t q x n] (Hq & Hi & Hs). unfold COMMIT, failed. simpl in *.
  destruct (faults n); simpl; by destruct x.
Qed.

Lemma sound_ROLLBACK : keeps (sound q0) (ROLLBACK faults).
Proof.
  intros [t q x n] (Hq & Hi & Hs). unfold ROLLBACK, failed, sent. simpl in *.
  destruct (faults n); simpl; by destruct x.
Qed.

(** A SELECT leaves tables and sequences as they are, also when it
    fails. *)
Lemma unchanged_select {A} t q (f : Tables → A) :
  keeps (unchanged t q) (query faults (select f)).
Proof.
  intros [t' q' x n] [Ht Hq]. unfold query, select, failed, sent. simpl in *.
  destruct (faults n); simpl; [done|]. by destruct x.
Qed.

End Sound.

Create HintDb keeps.

#[local] Hint Resolve keeps_ret keeps_throw sound_query sound_BEGIN sound_COMMIT
  sound_ROLLBACK unchanged_select
  select_sound insert_list_member_sound delete_list_member_sound insert_list_sound
  update_list_name_sound update_list_owner_sound update_member_role_sound
  delete_list_sound delete_task_sound delete_subtask_sound insert_task_sound
  update_task_sound update_task_completed_sound insert_subtask_sound
  update_subtask_sound update_subtask_completed_sound upsert_tag_sound
  insert_task_tag_sound delete_task_tags_sound : keeps.

(** Walks a handler: binds, handlers of exceptions and case distinctions
    down to the statements. *)
Ltac walk :=
  repeat first
    [ apply keeps_bind; [|intros ?]
    | apply keeps_try_catch; [|intros ?]
    | solve [auto with keeps]
    | case_match ].

Ltac walk_route := apply keeps_route; [walk|done].

Lemma sound_createTask_tags faults q0 tid names :
  keeps (sound q0) (Tasks.createTask_tags faults tid names).
Proof. induction names; simpl; walk. Qed.

Lemma sound_updateTask_tags faults q0 tid names :
  keeps (sound q0) (Tasks.updateTask_tags faults tid names).
Proof. induction names; simpl; walk. Qed.

#[local] Hint Resolve sound_createTask_tags sound_updateTask_tags : keeps.

Lemma handle_sound faults q0 (P : User) r c :
  sound q0 c → sound q0 (handle faults P r c).2.
Proof.
  intros Hc. destruct r; simpl.
  - unfold Lists.getList. walk_route.
  - unfold Lists.createList. walk_route.
  - unfold Lists.renameList. walk_route.
  - unfold Lists.deleteList. walk_route.
  - case_match; [|done].
    unfold ListMembers.addMember, ListMembers.checkListPermission. walk_route.
  - unfold ListMembers.updateMemberRole, ListMembers.checkListPermission. walk_route.
  - unfold ListMembers.removeMember, ListMembers.checkListPermission. walk_route.
  - unfold ListMembers.leaveList. walk_route.
  - unfold ListMembers.transferOwnership, ListMembers.checkListPermission. walk_route.
  - unfold Tasks.getTask, Tasks.checkListAccess. walk_route.
  - unfold Tasks.createTask, Tasks.checkListAccess. walk_route.
  - unfold Tasks.updateTask, Tasks.checkListAccess. walk_route.
  - unfold Tasks.toggleTask, Tasks.checkListAccess. walk_route.
  - unfold Tasks.deleteTask, Tasks.checkListAccess. walk_route.
  - unfold Tasks.createSubtask, Tasks.checkListAccess. walk_route.
  - unfold Tasks.updateSubtask, Tasks.checkListAccess. walk_route.
  - unfold Tasks.toggleSubtask, Tasks.checkListAccess. walk_route.
  - unfold Tasks.deleteSubtask, Tasks.checkListAccess. walk_route.
Qed.

(** The two middlewares send one SELECT at most. *)
Lemma authenticateToken_keeps (I : Conn → Prop) faults jwt_verify h c :
  (∀ uid, keeps I (query faults (select (Auth.select_user_by_id uid)))) →
  I c → I (Auth.authenticateToken faults jwt_verify h c).2.
Proof.
  intros Hk Hc. unfold Auth.authenticateToken.
  destruct (Auth.no_token _); [done|].
  destruct (jwt_verify _) as [uid|]; [|done].
  specialize (Hk uid c Hc).
  by destruct (query _ _ c) as [[[|u rows]|e] c'].
Qed.

Lemma optionalAuth_keeps (I : Conn → Prop) faults jwt_verify h c :
  (∀ uid, keeps I (query faults (select (Auth.select_user_by_id uid)))) →
  I c → I (Auth.optionalAuth faults jwt_verify h c).2.
Proof.
  intros Hk Hc. unfold Auth.optionalAuth.
  destruct (Auth.no_token _); [done|].
  destruct (jwt_verify _) as [uid|]; [|done].
  specialize (Hk uid c Hc).
  by destruct (query _ _ c) as [[rows|e] c'].
Qed.

Lemma follows_sound q0 c c' : sound q0 c → follows c c' → sound q0 c'.
Proof.
  intros Hc. induction 1 as [|? ? ? ? _ IH|? ? ? _ IH|? ? ? ? _ IH|? ? ? ? _ IH|? ? ? ? _ IH].
  - done.
  - by apply handle_sound.
  - unfold listLists. walk_route.
  - unfold listTasks, Tasks.checkListAccess. walk_route.
  - apply authenticateToken_keeps; [auto with keeps|done].
  - apply optionalAuth_keeps; [auto with keeps|done].
Qed.

Lemma initial_integrity us : integrity (db (initial us)) (seqs (initial us)).
Proof.
  constructor; simpl; try done;
    try (intros; by rewrite lookup_empty in *);
    try (intros ? [? H]; by rewrite lookup_empty in H);
    try (intros ? ?%elem_of_empty; done);
    try apply NoDup_nil_2.
  intros ? ?%elem_of_nil. done.
Qed.

Lemma idle_sound c : tx c = Idle → integrity (db c) (seqs c) → sound (seqs c) c.
Proof. intros Hx Hi. split; [apply seqs_le_refl|]. split; [done|]. by rewrite Hx. Qed.

(** X1. In every session that follows a fresh database, whichever
    statements failed on the way, the tables meet the constraints of the
    schema that span rows: foreign keys, the UNIQUE name and the primary
    key of tags, and serial ids below their sequences. *)
Theorem integrity_always us c :
  follows (initial us) c → integrity (db c) (seqs c).
Proof.
  intros H. by apply (follows_sound (seqs (initial us))) in H as (_ & H & _);
    [|apply idle_sound; [done|apply initial_integrity]].
Qed.

(** X2. A serial id in use at some time stays below its sequence for
    ever after, so that no later INSERT receives it again, whether its
    row has been deleted or not and whatever was rolled back. *)
Theorem ids_never_reused c c' :
  tx c = Idle → integrity (db c) (seqs c) → follows c c' →
  (∀ lid, is_Some (lists (db c) !! lid) → lid < lists_id_seq (seqs c'))
  ∧ (∀ tid, is_Some (tasks (db c) !! tid) → tid < tasks_id_seq (seqs c'))
  ∧ (∀ sid, is_Some (subtasks (db c) !! sid) → sid < subtasks_id_seq (seqs c'))
  ∧ (∀ g, g ∈ tags (db c) → tag_id g < tags_id_seq (seqs c')).
Proof.
  intros Hx Hi H. apply (follows_sound (seqs c)) in H as ((H1 & H2 & H3 & H4) & _);
    [|by apply idle_sound].
  destruct Hi. repeat split.
  - intros lid ?%list_ids_below0. lia.
  - intros tid ?%task_ids_below0. lia.
  - intros sid ?%subtask_ids_below0. lia.
  - intros g ?%tag_ids_below0. lia.
Qed.

(** X3. The routes that only read, and the two middlewares, leave the
    tables and the sequences as they are, also when a statement fails. *)
Theorem reads_never_write faults (P : User) c :
  (∀ lid, unchanged (db c) (seqs c) (Lists.getList faults P lid c).2)
  ∧ unchanged (db c) (seqs c) (listLists faults P c).2
  ∧ (∀ lid, unchanged (db c) (seqs c) (listTasks faults P lid c).2)
  ∧ (∀ tid, unchanged (db c) (seqs c) (Tasks.getTask faults P tid c).2)
  ∧ (∀ jwt_verify h,
       unchanged (db c) (seqs c) (Auth.authenticateToken faults jwt_verify h c).2
       ∧ unchanged (db c) (seqs c) (Auth.optionalAuth faults jwt_verify h c).2).
Proof.
  assert (unchanged (db c) (seqs c) c) by done.
  split; [|split; [|split; [|split]]].
  - intros lid. unfold Lists.getList. walk_route.
  - unfold listLists. walk_route.
  - intros lid. unfold listTasks, Tasks.checkListAccess. walk_route.
  - intros tid. unfold Tasks.getTask, Tasks.checkListAccess. walk_route.
  - intros jwt_verify h. split.
    + apply authenticateToken_keeps; auto with keeps.
    + apply optionalAuth_keeps; auto with keeps.
Qed.

(** ** The lists router *)

(** A handler at a session outside a transaction, with no fault. *)
Ltac at_idle :=
  match goal with
  | |- tx ?c = Idle → _ => destruct c as [t q x n]; simpl; intros ->
  end.

Lemma not_has_role_no_list t uid lid : lists t !! lid = None → ¬ has_role t uid lid.
Proof. intros E (l & Hl & _). congruence. Qed.

Lemma not_can_manage_no_list t uid lid : lists t !! lid = None → ¬ can_manage t uid lid.
Proof. intros E (l & Hl & _). congruence. Qed.

Lemma can_manage_has_role t uid lid : can_manage t uid lid → has_role t uid lid.
Proof. intros (l & Hl & [H|H]); exists l; (split; [done|]); [by left|right; by rewrite H]. Qed.

Lemma select_owned_list_other t lid uid :
  (∀ l, lists t !! lid = Some l → owner_id l ≠ uid) → select_owned_list lid uid t = [].
Proof.
  intros H. unfold select_owned_list. destruct (lists t !! lid) as [l|]; [|done].
  rewrite bool_decide_eq_false_2; [done|]. by apply H.
Qed.



(** X6. DELETE /lists/:id: for the owner the list goes, with its
    memberships, its tasks and their subtasks and tag links, while the
    other lists and their contents and every tag stay; for anyone else,
    admins included, the answer is 403 and nothing changes.  The id is in
    the range of INT. *)
Theorem deleteList_spec c (P : User) lid :
  tx c = Idle → int4 lid →
  let r := Lists.deleteList no_faults P lid c in
  (∀ l, lists (db c) !! lid = Some l → owner_id l = user_id P →
     status r.1 = 200
     ∧ lists (db r.2) = delete lid (lists (db c))
     ∧ (∀ k, list_members (db r.2) !! k
             = if bool_decide (k.1 = lid) then None else list_members (db c) !! k)
     ∧ (∀ tid row, tasks (db r.2) !! tid = Some row
                   ↔ tasks (db c) !! tid = Some row ∧ task_list_id row ≠ lid)
     ∧ (∀ sid s, subtasks (db r.2) !! sid = Some s
                 ↔ subtasks (db c) !! sid = Some s
                   ∧ task_list_id <$> tasks (db c) !! subtask_task_id s ≠ Some lid)
     ∧ (∀ p, p ∈ task_tags (db r.2)
             ↔ p ∈ task_tags (db c) ∧ task_list_id <$> tasks (db c) !! p.1 ≠ Some lid)
     ∧ tags (db r.2) = tags (db c)
     ∧ users (db r.2) = users (db c))
  ∧ ((∀ l, lists (db c) !! lid = Some l → owner_id l ≠ user_id P) →
     r.1 = error_response 403 "Permission denied - only list owners can delete lists"
     ∧ db r.2 = db c).
Proof.
  at_idle. intros _. split.
  - intros l Hl Ho.
    unfold Lists.deleteList, Lists.delete_list. unfold_session. simpl.
    rewrite (select_owned_list_owner _ _ _ _ Hl Ho). simpl.
    split; [done|]. split; [done|]. split; [|split; [|split; [|split]]]; try done.
    + intros k. rewrite map_lookup_filter. destruct (list_members t !! k) as [v|] eqn:E;
        simpl; case_bool_decide; try done.
      * by rewrite option_guard_False by (simpl; tauto).
      * by rewrite option_guard_True.
    + intros tid row. rewrite map_lookup_filter_Some. done.
    + intros sid s. rewrite map_lookup_filter_Some. done.
    + intros p. rewrite elem_of_filter. tauto.
  - intros Hno%select_owned_list_other.
    unfold Lists.deleteList. unfold_session. simpl. by rewrite Hno.
Qed.

(** ** The listing of lists *)

Lemma elem_of_by_id {A} (m : gmap Z A) k v : (k, v) ∈ by_id m ↔ m !! k = Some v.
Proof.
  unfold by_id. rewrite merge_sort_Permutation. apply elem_of_map_to_list.
Qed.

(** X7. GET /lists: a list is among the rows exactly when the user owns
    it or is a member of it (and its owner is a registered user); every
    row carries the stored name and owner of its list, the name of a
    registered user with the owner's id, and as [user_role] the stored
    membership role, which is null on the lists the user owns unless a
    membership row goes with the ownership; and no row comes twice. *)
Theorem listLists_rows t uid :
  let rows := select_lists_of_user uid t in
  (∀ lid, (∃ row, row ∈ rows ∧ Lists.row_id row = lid)
          ↔ has_role t uid lid
            ∧ ∃ l, lists t !! lid = Some l ∧ owner_id l ∈ user_id <$> users t)
  ∧ (∀ row, row ∈ rows →
       lists t !! Lists.row_id row
       = Some {| list_name := Lists.row_name row; owner_id := Lists.row_owner_id row |}
       ∧ (∃ u, u ∈ users t ∧ user_id u = Lists.row_owner_id row
               ∧ user_name u = Lists.owner_name row)
       ∧ Lists.user_role row = list_members t !! (Lists.row_id row, uid))
  ∧ NoDup rows.
Proof.
  simpl. unfold select_lists_of_user.
  assert (∀ row,
    row ∈ remove_dups
      (kv ← reverse (by_id (lists t));
       let lm := list_members t !! (kv.1, uid) in
       if bool_decide (owner_id kv.2 = uid) || bool_decide (is_Some lm)
       then (λ u, {| Lists.row_id := kv.1; Lists.row_name := list_name kv.2;
                     Lists.row_owner_id := owner_id kv.2;
                     Lists.owner_name := user_name u;
                     Lists.user_role := lm |})
            <$> filter (λ u, user_id u = owner_id kv.2) (users t)
       else [])
    ↔ ∃ l u, lists t !! Lists.row_id row = Some l
             ∧ (owner_id l = uid ∨ is_Some (list_members t !! (Lists.row_id row, uid)))
             ∧ u ∈ users t ∧ user_id u = owner_id l
             ∧ row = {| Lists.row_id := Lists.row_id row; Lists.row_name := list_name l;
                        Lists.row_owner_id := owner_id l;
                        Lists.owner_name := user_name u;
                        Lists.user_role := list_members t !! (Lists.row_id row, uid) |})
    as Hrow.
  { intros row. rewrite elem_of_remove_dups, list_elem_of_bind. split.
    - intros ([k l] & Hin & Hk). rewrite elem_of_reverse, elem_of_by_id in Hk.
      simpl in Hin. destruct (_ || _) eqn:E; [|by apply elem_of_nil in Hin].
      apply list_elem_of_fmap in Hin as (u & -> & [Hu Hu']%list_elem_of_filter).
      simpl. exists l, u. repeat split; try done.
      apply orb_true_iff in E as [E|E]; apply bool_decide_eq_true in E; auto.
    - intros (l & u & Hl & Hacc & Hu & Hu' & ->). simpl in *.
      exists (Lists.row_id row, l). split.
      + simpl. rewrite (proj2 (orb_true_iff _ _)).
        * apply list_elem_of_fmap. exists u. split; [done|].
          by apply list_elem_of_filter.
        * destruct Hacc; [left|right]; by apply bool_decide_eq_true.
      + by rewrite elem_of_reverse, elem_of_by_id. }
  split; [|split].
  - intros lid. split.
    + intros (row & (l & u & Hl & Hacc & Hu & Hu' & _)%Hrow & <-). split.
      * by exists l.
      * exists l. split; [done|]. apply list_elem_of_fmap. by exists u.
    + intros [(l & Hl & Hacc) (l' & Hl' & (u & Hu' & Hu)%list_elem_of_fmap)].
      simplify_eq.
      exists {| Lists.row_id := lid; Lists.row_name := list_name l;
                Lists.row_owner_id := owner_id l; Lists.owner_name := user_name u;
                Lists.user_role := list_members t !! (lid, uid) |}.
      split; [|done]. apply Hrow. simpl. by exists l, u.
  - intros row (l & u & Hl & Hacc & Hu & Hu' & Hr)%Hrow.
    rewrite Hr; simpl. split; [by destruct l|]. split; [|done]. by exists u.
  - apply NoDup_remove_dups.
Qed.

(** ** The membership router *)


(** A request either is refused by the id validator of its route, the
    session being untouched, or runs its handler: what holds of every
    session that follows another holds of those that [serve] makes. *)
Lemma serve_follows faults (P : User) r c0 c :
  follows c0 c → follows c0 (serve faults P r c).2.
Proof.
  intros H. unfold serve.
  destruct (id_validator r) as [validate|]; [|by apply follows_handle].
  destruct (validate (params r)); [done|by apply follows_handle].
Qed.

Lemma lower_ascii_idemp a : Js.lower_ascii (Js.lower_ascii a) = Js.lower_ascii a.
Proof. by destruct a as [[] [] [] [] [] [] [] []]. Qed.

Lemma toLowerCase_idemp s : Js.toLowerCase (Js.toLowerCase s) = Js.toLowerCase s.
Proof. induction s as [|a s IH]; simpl; [done|]. by rewrite lower_ascii_idemp, IH. Qed.

Lemma same_up_to_order_refl j : same_up_to_order j j.
Proof. destruct j; simpl; eauto. Qed.

(** ** Creating a task *)

(** The upsert of a tag name always goes through on tables that meet the
    constraints, and returns the id of the one row with the name. *)
Lemma upsert_tag_run name t q :
  integrity t q →
  ∃ gid t' q', Tasks.upsert_tag name t q = inr (gid, t', q')
    ∧ {| tag_id := gid; tag_name := name |} ∈ tags t'
    ∧ (tags t' = tags t ∨ tags t' = tags t ++ [ {| tag_id := gid; tag_name := name |} ])
    ∧ same_but_tags t t' ∧ task_tags t' = task_tags t
    ∧ tasks_id_seq q' = tasks_id_seq q.
Proof.
  intros Hi. unfold Tasks.upsert_tag.
  destruct (filter _ (tags t)) as [|g gs] eqn:E.
  - unfold tag_exists. rewrite (bool_decide_eq_false_2 (tags_id_seq q ∈ tag_id <$> tags t)).
    + eexists _, _, _. split; [done|]. simpl.
      split; [|split; [by right|by repeat split]].
      apply elem_of_app. right. by apply list_elem_of_singleton.
    + intros (g & Hg & Hin%(tag_ids_below _ _ Hi))%list_elem_of_fmap. lia.
  - assert (g ∈ filter (λ g, tag_name g = name) (tags t)) as [Hn Hg]%list_elem_of_filter.
    { rewrite E. by left. }
    eexists _, _, _. split; [done|]. split; [|split; [by left|by repeat split]].
    destruct g; simpl in *. by subst.
Qed.

Lemma insert_task_tag_run tid gid t q :
  is_Some (tasks t !! tid) → gid ∈ tag_id <$> tags t →
  ∃ t', Tasks.insert_task_tag true tid gid t q = inr ((), t', q)
    ∧ task_tags t' = {[ (tid, gid) ]} ∪ task_tags t
    ∧ same_but_tags t t' ∧ tags t' = tags t.
Proof.
  intros Ht Hg. unfold Tasks.insert_task_tag. case_bool_decide as Hin.
  - exists t. repeat split; try done. symmetry. apply subseteq_union_1_L.
    by apply singleton_subseteq_l.
  - rewrite (bool_decide_eq_true_2 _ Ht). unfold tag_exists.
    rewrite (bool_decide_eq_true_2 _ Hg). simpl. by eexists.
Qed.

Lemma NoDup_fmap_eq {A B} (f : A → B) (l : list A) x y :
  NoDup (f <$> l) → x ∈ l → y ∈ l → f x = f y → x = y.
Proof.
  induction l as [|a l IH]; simpl; [by intros _ ?%elem_of_nil|].
  intros [Hno Hnd]%NoDup_cons [->|Hx]%elem_of_cons [->|Hy]%elem_of_cons E; try done.
  - destruct Hno. rewrite E. apply list_elem_of_fmap. by exists y.
  - destruct Hno. rewrite <- E. apply list_elem_of_fmap. by exists x.
  - by apply IH.
Qed.

Lemma query_ok {A} (st : Stmt A) c s a t' q' :
  tx c = Open s → st (db c) (seqs c) = inr (a, t', q') →
  query no_faults st c
  = (Ok a, {| db := t'; seqs := q'; tx := Open s; issued := S (issued c) |}).
Proof. intros Hx E. unfold query, no_faults. by rewrite Hx, E. Qed.

Lemma bind_ok {A B} (m : M A) (k : A → M B) c a c1 :
  m c = (Ok a, c1) → bind m k c = k a c1.
Proof. intros E. unfold bind. by rewrite E. Qed.

(** The tag loop of POST /tasks on a transaction that is open. *)
Lemma createTask_tags_run tid names c s :
  tx c = Open s → integrity (db c) (seqs c) → is_Some (tasks (db c) !! tid) →
  ∃ c', Tasks.createTask_tags no_faults tid names c = (Ok (), c')
    ∧ tx c' = Open s
    ∧ integrity (db c') (seqs c')
    ∧ same_but_tags (db c) (db c')
    ∧ tasks_id_seq (seqs c') = tasks_id_seq (seqs c)
    ∧ (∀ g, g ∈ tags (db c') ↔
            g ∈ tags (db c)
            ∨ (g ∈ tags (db c')
               ∧ ∃ n, n ∈ names ∧ tag_name g = Js.toLowerCase (Js.trim n)))
    ∧ (∀ n, n ∈ names → ∃ g, g ∈ tags (db c')
                             ∧ tag_name g = Js.toLowerCase (Js.trim n))
    ∧ (∀ p, p ∈ task_tags (db c') ↔
            p ∈ task_tags (db c)
            ∨ ∃ g n, g ∈ tags (db c') ∧ n ∈ names
                     ∧ tag_name g = Js.toLowerCase (Js.trim n) ∧ p = (tid, tag_id g)).
Proof.
  revert c. induction names as [|n names IH]; intros c Hx Hi Ht.
  - exists c. simpl. unfold ret. do 5 (split; [done|]). split; [|split].
    + intros g. split; [by left|]. by intros [?|[? _]].
    + by intros n ?%elem_of_nil.
    + intros p. split; [by left|]. by intros [?|(g & n & _ & ?%elem_of_nil & _)].
  - simpl.
    destruct (upsert_tag_run (Js.toLowerCase (Js.trim n)) _ _ Hi)
      as (gid & t1 & q1 & E1 & Hg & Htags & Hsame1 & Hlinks1 & Hseq1).
    pose proof (upsert_tag_sound _ _ _ _ _ _ Hi E1) as [Hi1 _].
    assert (is_Some (tasks t1 !! tid)) as Ht1.
    { destruct Hsame1 as (_ & _ & _ & -> & _). done. }
    assert (gid ∈ tag_id <$> tags t1) as Hg'.
    { apply list_elem_of_fmap. by eexists; split; [|apply Hg]. }
    destruct (insert_task_tag_run tid gid t1 q1 Ht1 Hg')
      as (t2 & E2 & Hlinks2 & Hsame2 & Htags2).
    pose proof (insert_task_tag_sound _ _ _ _ _ _ _ _ Hi1 E2) as [Hi2 _].
    set (c2 := {| db := t2; seqs := q1; tx := Open s; issued := S (S (issued c)) |}).
    destruct (IH c2) as (c' & Hrun & Hx' & Hi' & Hsame' & Hseq' & Hgs & Hnames & Hps);
      [done|done|..].
    { simpl. destruct Hsame2 as (_ & _ & _ & -> & _). done. }
    exists c'.
    erewrite bind_ok; [|by apply query_ok].
    erewrite bind_ok; [|by apply query_ok]. fold c2.
    split; [done|]. split; [done|]. split; [done|]. split.
    { eauto using same_but_tags_trans. }
    split; [simpl in *; congruence|].
    assert (∀ g, g ∈ tags (db c) → g ∈ tags t2) as Hold.
    { intros g Hin. rewrite Htags2. destruct Htags as [->| ->]; [done|].
      apply elem_of_app. by left. }
    assert (∀ g, g ∈ tags t2 →
              g ∈ tags (db c) ∨ tag_name g = Js.toLowerCase (Js.trim n)) as Hnew.
    { intros g. rewrite Htags2. destruct Htags as [->| ->]; [by left|].
      intros [?|Hs%list_elem_of_singleton]%elem_of_app; [by left|right; by subst]. }
    split; [|split].
    + intros g. split.
      * intros Hin. destruct (proj1 (Hgs g) Hin) as [Hin2|(_ & n' & Hn' & Hnm)].
        -- destruct (Hnew g Hin2) as [?|?]; [by left|right].
           split; [done|]. exists n. split; [by left|done].
        -- right. split; [done|]. exists n'. split; [by right|done].
      * intros [Hin|[Hin _]]; [|done]. apply Hgs. left. by apply Hold.
    + intros n' [->|Hn']%elem_of_cons; [|by apply Hnames].
      exists {| tag_id := gid; tag_name := Js.toLowerCase (Js.trim n) |}.
      split; [|done]. apply Hgs. left. simpl. by rewrite Htags2.
    + intros p. rewrite Hps. simpl. rewrite Hlinks2, Hlinks1. split.
      * intros [[Hs%elem_of_singleton|?]%elem_of_union|(g & n' & ? & ? & ? & ?)].
        -- subst p. right. exists {| tag_id := gid; tag_name := Js.toLowerCase (Js.trim n) |}, n.
           split; [|split; [by left|done]]. apply Hgs. left. simpl. by rewrite Htags2.
        -- by left.
        -- right. exists g, n'. split; [done|]. split; [by right|done].
      * intros [?|(g & n' & Hgin & [->|Hn']%elem_of_cons & Hnm & ->)].
        -- left. apply elem_of_union. by right.
        -- left. apply elem_of_union. left. apply elem_of_singleton. f_equal.
           assert ({| tag_id := gid; tag_name := Js.toLowerCase (Js.trim n) |}
                   ∈ tags (db c')) as Hg0.
           { apply Hgs. left. simpl. by rewrite Htags2. }
           by rewrite (NoDup_fmap_eq tag_name _ _ _ (unique_tag_name _ _ Hi') Hgin Hg0 Hnm).
        -- right. by exists g, n'.
Qed.

Lemma try_catch_ok {A} (m : M A) (h : Error → M A) c a c1 :
  m c = (Ok a, c1) → try_catch m h c = (Ok a, c1).
Proof. intros E. unfold try_catch. by rewrite E. Qed.

Lemma filter_none {A} (P : A → Prop) `{∀ x, Decision (P x)} (l : list A) :
  (∀ x, x ∈ l → ¬ P x) → filter P l = [].
Proof.
  intros Hno. destruct (filter P l) as [|y ys] eqn:E; [done|].
  assert (y ∈ filter P l) as [Hy Hin]%list_elem_of_filter by (rewrite E; by left).
  by destruct (Hno y Hin).
Qed.

(** The run of POST /tasks for a user with a role on the list. *)
Lemma createTask_run c (P : User) lid ti d pr dd tg :
  tx c = Idle → integrity (db c) (seqs c) → has_role (db c) (user_id P) lid →
  let tid := tasks_id_seq (seqs c) in
  let row := {| task_list_id := lid; title := ti; description := d; priority := pr;
                due_date := dd; completed := Some false |} in
  ∃ c', Tasks.createTask no_faults P lid ti d pr dd tg c
        = ({| status := 201;
              body := JObj [("message", JStr "Task created successfully");
                            ("task", Tasks.task_with_tags_json
                                       ((tid, row), tags_agg tid (db c')))] |}, c')
    ∧ tx c' = Idle
    ∧ integrity (db c') (seqs c')
    ∧ tasks (db c) !! tid = None
    ∧ same_but_tags (set_tasks (insert tid row) (db c)) (db c')
    ∧ (∀ g, g ∈ tags (db c') ↔
            g ∈ tags (db c)
            ∨ (g ∈ tags (db c')
               ∧ ∃ n, n ∈ default [] tg ∧ tag_name g = Js.toLowerCase (Js.trim n)))
    ∧ (∀ n, n ∈ default [] tg → ∃ g, g ∈ tags (db c')
                                      ∧ tag_name g = Js.toLowerCase (Js.trim n))
    ∧ (∀ p, p ∈ task_tags (db c') ↔
            p ∈ task_tags (db c)
            ∨ ∃ g n, g ∈ tags (db c') ∧ n ∈ default [] tg
                     ∧ tag_name g = Js.toLowerCase (Js.trim n) ∧ p = (tid, tag_id g)).
Proof.
  destruct c as [t q x n]. simpl. intros -> Hi Hrole.
  destruct (select_owner_or_member_role _ _ _ Hrole) as [prow Hprow].
  assert (tasks t !! tasks_id_seq q = None) as Hnew.
  { apply eq_None_not_Some. intros H%(task_ids_below _ _ Hi). lia. }
  assert (is_Some (lists t !! lid)) as Hl.
  { destruct Hrole as (l & -> & _). done. }
  set (tid := tasks_id_seq q).
  set (row := {| task_list_id := lid; title := ti; description := d; priority := pr;
                 due_date := dd; completed := Some false |}).
  set (q1 := {| lists_id_seq := lists_id_seq q; tasks_id_seq := tid + 1;
                subtasks_id_seq := subtasks_id_seq q; tags_id_seq := tags_id_seq q |}).
  assert (Tasks.insert_task lid ti d pr dd t q
          = inr ((tid, row), set_tasks (insert tid row) t, q1)) as Eins.
  { unfold Tasks.insert_task. cbv zeta. subst q1 row tid. rewrite Hnew.
    by rewrite (bool_decide_eq_true_2 _ Hl). }
  pose proof (insert_task_sound _ _ _ _ _ _ _ _ _ _ Hi Eins) as [Hi1 _].
  destruct (createTask_tags_run tid (default [] tg)
              {| db := set_tasks (insert tid row) t; seqs := q1; tx := Open t;
                 issued := S (S (S n)) |} t eq_refl Hi1)
    as (c' & Hrun & Hx' & Hi' & Hsame & Hseq & Hgs & Hnames & Hps).
  { simpl. by rewrite lookup_insert_eq. }
  assert ((match tg with
           | Some names => Tasks.createTask_tags no_faults tid names
           | None => ret ()
           end) {| db := set_tasks (insert tid row) t; seqs := q1; tx := Open t;
                   issued := S (S (S n)) |} = (Ok (), c')) as Hloop.
  { by destruct tg. }
  destruct c' as [t' q' x' n']. simpl in *. subst x'.
  pose proof Hsame as (_ & _ & _ & Hts & _). simpl in Hts.
  exists {| db := t'; seqs := q'; tx := Idle; issued := S (S n') |}. simpl.
  split; [|by repeat (split; [done|])].
  unfold Tasks.createTask, Tasks.checkListAccess. unfold_session. simpl.
  rewrite Hprow. simpl. rewrite Eins. simpl.
  unfold no_faults, ret in Hloop. simpl in Hloop. rewrite Hloop. simpl.
  unfold Tasks.select_task_with_tags. rewrite Hts. simpl.
  rewrite lookup_insert_eq. done.
Qed.



(** ** Replacing the tags of a task *)

Lemma bind_throw {A B} (m : M A) (k : A → M B) c e c1 :
  m c = (Throw e, c1) → bind m k c = (Throw e, c1).
Proof. intros E. unfold bind. by rewrite E. Qed.

Lemma query_fail {A} (st : Stmt A) c s e :
  tx c = Open s → st (db c) (seqs c) = inl e →
  query no_faults st c
  = (Throw e, {| db := db c; seqs := seqs c; tx := Aborted s; issued := S (issued c) |}).
Proof. intros Hx E. unfold query, no_faults, failed. by rewrite Hx, E. Qed.

(** One round of the loop: the upsert of the name and the plain INSERT of
    the link, on a task that does not carry the name yet. *)
Lemma link_tag_run w tid t q :
  integrity t q → is_Some (tasks t !! tid) → ¬ linked t tid w →
  ∃ gid t1 q1 t2,
    Tasks.upsert_tag w t q = inr (gid, t1, q1)
    ∧ Tasks.insert_task_tag false tid gid t1 q1 = inr ((), t2, q1)
    ∧ integrity t2 q1
    ∧ same_but_tags t t2
    ∧ (∀ g, g ∈ tags t → g ∈ tags t2)
    ∧ (∀ name, linked t2 tid name ↔ linked t tid name ∨ name = w)
    ∧ (∀ p, p.1 ≠ tid → p ∈ task_tags t2 ↔ p ∈ task_tags t).
Proof.
  intros Hi Ht Hnot.
  destruct (upsert_tag_run w _ _ Hi)
    as (gid & t1 & q1 & E1 & Hg & Htags & Hsame1 & Hlinks1 & Hseq1).
  pose proof (upsert_tag_sound _ _ _ _ _ _ Hi E1) as [Hi1 _].
  assert (∀ g, g ∈ tags t → g ∈ tags t1) as Hold.
  { intros g Hin. destruct Htags as [->| ->]; [done|]. apply elem_of_app. by left. }
  assert (∀ g, g ∈ tags t1 → g ∈ tags t ∨ g = {| tag_id := gid; tag_name := w |})
    as Hnew.
  { intros g. destruct Htags as [->| ->]; [by left|].
    intros [?|Hs%list_elem_of_singleton]%elem_of_app; by auto. }
  assert ((tid, gid) ∉ task_tags t1) as Hfresh.
  { rewrite Hlinks1. intros Hin. apply Hnot.
    destruct (proj1 (list_elem_of_fmap _ _ _) (fk_link_tag _ _ Hi _ Hin))
      as (g & Hid & Hgin). simpl in Hid.
    exists g. split; [done|]. split; [|by rewrite <- Hid].
    apply Hold in Hgin.
    by rewrite (NoDup_fmap_eq tag_id _ g {| tag_id := gid; tag_name := w |}
                  (unique_tag_id _ _ Hi1) Hgin Hg). }
  assert (is_Some (tasks t1 !! tid)) as Ht1.
  { destruct Hsame1 as (_ & _ & _ & -> & _). done. }
  assert (tag_exists gid t1 = true) as Hex.
  { apply bool_decide_eq_true, list_elem_of_fmap. by eexists; split; [|apply Hg]. }
  pose proof (insert_task_tag_new false tid gid t1 q1 Hfresh Ht1 Hex) as E2.
  pose proof (insert_task_tag_sound _ _ _ _ _ _ _ _ Hi1 E2) as [Hi2 _].
  eexists gid, t1, q1, _. do 3 (split; [done|]). simpl.
  split; [|split; [|split]].
  - destruct Hsame1 as (? & ? & ? & ? & ?). by repeat split.
  - done.
  - intros name. split.
    + intros (g & Hgin & <- & [Hs%elem_of_singleton|Hin]%elem_of_union); simpl in *.
      * right. injection Hs as Hs.
        by rewrite (NoDup_fmap_eq tag_id _ g {| tag_id := gid; tag_name := w |}
                      (unique_tag_id _ _ Hi1) Hgin Hg).
      * destruct (Hnew g Hgin) as [Hgt| ->]; [|by right].
        left. exists g. by rewrite <- Hlinks1.
    + intros [(g & Hgin & Hnm & Hin)| ->].
      * exists g. simpl. split; [by apply Hold|]. split; [done|].
        apply elem_of_union. right. by rewrite Hlinks1.
      * exists {| tag_id := gid; tag_name := w |}. simpl. do 2 (split; [done|]).
        apply elem_of_union. left. by apply elem_of_singleton.
  - intros p Hp. rewrite elem_of_union, elem_of_singleton, Hlinks1. split; [|by right].
    intros [->|?]; done.
Qed.

(** On a task that carries the name, the INSERT of the link fails. *)
Lemma link_tag_fails w tid t q :
  integrity t q → linked t tid w →
  ∃ gid t1 q1, Tasks.upsert_tag w t q = inr (gid, t1, q1)
               ∧ Tasks.insert_task_tag false tid gid t1 q1 = inl UniqueViolation.
Proof.
  intros Hi (g & Hgin & Hnm & Hin).
  destruct (upsert_tag_run w _ _ Hi)
    as (gid & t1 & q1 & E1 & Hg & Htags & Hsame1 & Hlinks1 & Hseq1).
  pose proof (upsert_tag_sound _ _ _ _ _ _ Hi E1) as [Hi1 _].
  exists gid, t1, q1. split; [done|]. apply insert_task_tag_again.
  assert (g ∈ tags t1) as Hgin1.
  { destruct Htags as [->| ->]; [done|]. apply elem_of_app. by left. }
  rewrite Hlinks1.
  assert (g = {| tag_id := gid; tag_name := w |}) as Hsame.
  { by apply (NoDup_fmap_eq tag_name (tags t1) _ _ (unique_tag_name _ _ Hi1)). }
  by rewrite Hsame in Hin.
Qed.

Lemma nonblank_cons n names :
  nonblank (n :: names)
  = if Js.truthy n && Js.truthy (Js.trim n) then n :: nonblank names else nonblank names.
Proof.
  unfold nonblank. rewrite filter_cons. destruct (_ && _); by case_decide.
Qed.

(** The tag loop of PUT /tasks/:id goes through when the names it keeps
    are pairwise distinct once trimmed and lower-cased, and the task
    carries none of them. *)
Lemma updateTask_tags_run tid names c s :
  tx c = Open s → integrity (db c) (seqs c) → is_Some (tasks (db c) !! tid) →
  NoDup ((λ n, Js.toLowerCase (Js.trim n)) <$> nonblank names) →
  (∀ n, n ∈ nonblank names → ¬ linked (db c) tid (Js.toLowerCase (Js.trim n))) →
  ∃ c', Tasks.updateTask_tags no_faults tid names c = (Ok (), c')
    ∧ tx c' = Open s
    ∧ integrity (db c') (seqs c')
    ∧ same_but_tags (db c) (db c')
    ∧ (∀ g, g ∈ tags (db c) → g ∈ tags (db c'))
    ∧ (∀ name, linked (db c') tid name
               ↔ linked (db c) tid name
                 ∨ name ∈ (λ n, Js.toLowerCase (Js.trim n)) <$> nonblank names)
    ∧ (∀ p, p.1 ≠ tid → p ∈ task_tags (db c') ↔ p ∈ task_tags (db c)).
Proof.
  revert c. induction names as [|n names IH]; intros c Hx Hi Ht Hnd Hnot.
  - exists c. simpl. unfold ret. do 5 (split; [done|]). split; [|done].
    intros name. split; [by left|]. by intros [?|?%elem_of_nil].
  - simpl. rewrite nonblank_cons in Hnd, Hnot |- *.
    destruct (Js.truthy n && Js.truthy (Js.trim n)) eqn:Hkeep.
    + rewrite fmap_cons in Hnd. apply NoDup_cons in Hnd as [Hn Hnd].
      destruct (link_tag_run (Js.toLowerCase (Js.trim n)) tid _ _ Hi Ht)
        as (gid & t1 & q1 & t2 & E1 & E2 & Hi2 & Hsame2 & Hold2 & Hl2 & Hp2).
      { apply Hnot. by left. }
      set (c2 := {| db := t2; seqs := q1; tx := Open s; issued := S (S (issued c)) |}).
      destruct (IH c2) as (c' & Hrun & Hx' & Hi' & Hsame' & Hold' & Hl' & Hp');
        [done|done| |done|..].
      { simpl. destruct Hsame2 as (_ & _ & _ & -> & _). done. }
      { intros n' Hn' [Hlk|E]%Hl2.
        - apply (Hnot n'); [by right|done].
        - apply Hn. rewrite <- E. apply list_elem_of_fmap. by exists n'. }
      exists c'.
      erewrite bind_ok; [|erewrite bind_ok; [|by apply query_ok]; by apply query_ok].
      fold c2. do 3 (split; [done|]). split; [by eauto using same_but_tags_trans|].
      split; [by auto|]. split.
      * intros name. rewrite Hl'. simpl. rewrite Hl2, elem_of_cons. tauto.
      * intros p Hp. rewrite (Hp' p Hp). by apply Hp2.
    + erewrite bind_ok; [|done]. by apply IH.
Qed.

(** It fails, and leaves the transaction aborted, when two of the names
    it keeps are the same once trimmed and lower-cased, or the task
    carries one of them already. *)
Lemma updateTask_tags_fails tid names c s :
  tx c = Open s → integrity (db c) (seqs c) → is_Some (tasks (db c) !! tid) →
  ¬ NoDup ((λ n, Js.toLowerCase (Js.trim n)) <$> nonblank names)
  ∨ (∃ n, n ∈ nonblank names ∧ linked (db c) tid (Js.toLowerCase (Js.trim n))) →
  ∃ c', Tasks.updateTask_tags no_faults tid names c = (Throw UniqueViolation, c')
        ∧ tx c' = Aborted s.
Proof.
  revert c. induction names as [|n names IH]; intros c Hx Hi Ht Hbad.
  - destruct Hbad as [[]|(n & ?%elem_of_nil & _)]; [apply NoDup_nil_2|done].
  - simpl. rewrite nonblank_cons in Hbad.
    destruct (Js.truthy n && Js.truthy (Js.trim n)) eqn:Hkeep.
    + set (w := Js.toLowerCase (Js.trim n)) in *.
      destruct (upsert_tag_run w _ _ Hi)
        as (gid & t1 & q1 & E1 & Hg & Htags & Hsame1 & Hlinks1 & Hseq1).
      pose proof (upsert_tag_sound _ _ _ _ _ _ Hi E1) as [Hi1 _].
      destruct (decide ((tid, gid) ∈ task_tags t1)) as [Hin|Hout].
      * eexists. split.
        -- erewrite bind_throw; [done|]. erewrite bind_ok; [|by apply query_ok].
           apply query_fail; [done|]. simpl. by apply insert_task_tag_again.
        -- done.
      * assert (¬ linked (db c) tid w) as Hnot.
        { intros Hlk. destruct (link_tag_fails w tid _ _ Hi Hlk)
            as (gid' & t1' & q1' & E1' & E2').
          rewrite E1 in E1'. injection E1' as <- <- <-.
          unfold Tasks.insert_task_tag in E2'.
          by rewrite (bool_decide_eq_false_2 _ Hout) in E2'; repeat case_match. }
        destruct (link_tag_run w tid _ _ Hi Ht Hnot)
          as (gid' & t1' & q1' & t2 & E1' & E2 & Hi2 & Hsame2 & Hold2 & Hl2 & Hp2).
        rewrite E1 in E1'. injection E1' as <- <- <-.
        set (c2 := {| db := t2; seqs := q1; tx := Open s;
                      issued := S (S (issued c)) |}).
        destruct (IH c2) as (c' & Hrun & Hx'); [done|done|..].
        { simpl. destruct Hsame2 as (_ & _ & _ & -> & _). done. }
        { destruct Hbad as [Hnd|(n' & [->|Hn']%elem_of_cons & Hlk)].
          - rewrite fmap_cons in Hnd.
            destruct (decide (w ∈ (λ n, Js.toLowerCase (Js.trim n)) <$> nonblank names))
              as [(n' & Hw & Hn')%list_elem_of_fmap|Hw].
            + right. exists n'. split; [done|]. simpl. apply Hl2. by right.
            + left. intros Hnd'. apply Hnd. by apply NoDup_cons.
          - done.
          - right. exists n'. split; [done|]. simpl. apply Hl2. by left. }
        exists c'. split; [|done].
        erewrite bind_ok; [|erewrite bind_ok; [|by apply query_ok]; by apply query_ok].
        done.
    + erewrite bind_ok; [|done]. by apply IH.
Qed.


(** ** Deleting a task, and the subtask toggle *)

Ltac tasks_route :=
  unfold Tasks.createTask, Tasks.updateTask, Tasks.toggleTask, Tasks.deleteTask,
    Tasks.createSubtask, Tasks.updateSubtask, Tasks.toggleSubtask, Tasks.deleteSubtask,
    Tasks.getTask, listTasks, Tasks.checkListAccess, Tasks.select_task,
    Tasks.select_subtask_with_list;
  unfold_session; simpl.

(** X18. DELETE /tasks/:id by any user with a role on the list: the task
    goes, with its subtasks and its tag links; the other tasks, their
    subtasks and links stay, and so does every tag, also one that no task
    carries any more. *)
Theorem deleteTask_spec c (P : User) tid row :
  tx c = Idle →
  tasks (db c) !! tid = Some row →
  has_role (db c) (user_id P) (task_list_id row) →
  let r := Tasks.deleteTask no_faults P tid c in
  status r.1 = 200
  ∧ tasks (db r.2) = delete tid (tasks (db c))
  ∧ (∀ sid s, subtasks (db r.2) !! sid = Some s
              ↔ subtasks (db c) !! sid = Some s ∧ subtask_task_id s ≠ tid)
  ∧ (∀ p, p ∈ task_tags (db r.2) ↔ p ∈ task_tags (db c) ∧ p.1 ≠ tid)
  ∧ tags (db r.2) = tags (db c)
  ∧ lists (db r.2) = lists (db c)
  ∧ list_members (db r.2) = list_members (db c)
  ∧ users (db r.2) = users (db c).
Proof.
  at_idle. intros Hrow [prow Hprow]%select_owner_or_member_role.
  tasks_route. rewrite Hrow. simpl. rewrite Hprow. simpl.
  do 2 (split; [done|]). split; [|split; [|done]].
  - intros sid s. rewrite map_lookup_filter_Some. done.
  - intros p. rewrite elem_of_filter. tauto.
Qed.

Lemma toggleSubtask_run c (P : User) sid s row :
  tx c = Idle →
  subtasks (db c) !! sid = Some s →
  tasks (db c) !! subtask_task_id s = Some row →
  has_role (db c) (user_id P) (task_list_id row) →
  Tasks.toggleSubtask no_faults P sid c
  = (Tasks.message_with_row "Subtask completion toggled successfully" "subtask"
       (Some (subtask_json true
                (sid, {| subtask_task_id := subtask_task_id s;
                         subtask_title := subtask_title s;
                         subtask_completed := Some (Js.lnot (subtask_completed s)) |}))),
     {| db := set_subtasks (insert sid
                {| subtask_task_id := subtask_task_id s;
                   subtask_title := subtask_title s;
                   subtask_completed := Some (Js.lnot (subtask_completed s)) |}) (db c);
        seqs := seqs c; tx := Idle; issued := S (S (S (issued c))) |}).
Proof.
  destruct c as [t q x n]. simpl. intros -> Hs Hrow [prow Hprow]%select_owner_or_member_role.
  tasks_route. rewrite Hs, Hrow. simpl. rewrite Hprow. simpl.
  unfold Tasks.update_subtask_completed. by rewrite Hs.
Qed.

(** X19. PATCH /tasks/subtasks/:subtaskId/toggle stores [!completed]
    (true for the NULL that a PUT with [completed: null] stores) and
    changes nothing else; a second toggle stores what was there at the
    start, with false for NULL.  So, when [completed] was true or false,
    two toggles in a row give back the tables as they were. *)
Theorem toggleSubtask_involution c (P : User) sid s row :
  tx c = Idle →
  subtasks (db c) !! sid = Some s →
  tasks (db c) !! subtask_task_id s = Some row →
  has_role (db c) (user_id P) (task_list_id row) →
  let once := Tasks.toggleSubtask no_faults P sid c in
  let twice := Tasks.toggleSubtask no_faults P sid once.2 in
  status once.1 = 200 ∧ status twice.1 = 200
  ∧ subtasks (db once.2) !! sid
    = Some {| subtask_task_id := subtask_task_id s; subtask_title := subtask_title s;
              subtask_completed :=
                Some (negb (default false (subtask_completed s))) |}
  ∧ (∀ j, j ≠ sid → subtasks (db once.2) !! j = subtasks (db c) !! j)
  ∧ tasks (db once.2) = tasks (db c)
  ∧ db twice.2
    = set_subtasks (insert sid
        {| subtask_task_id := subtask_task_id s; subtask_title := subtask_title s;
           subtask_completed := Some (default false (subtask_completed s)) |}) (db c)
  ∧ (is_Some (subtask_completed s) → db twice.2 = db c).
Proof.
  intros Hx Hs Hrow Hrole. simpl.
  rewrite (toggleSubtask_run c P sid s row Hx Hs Hrow Hrole). simpl.
  erewrite toggleSubtask_run; [|done|simpl; by rewrite lookup_insert_eq|done|done].
  simpl. split; [done|]. split; [done|]. split; [by rewrite lookup_insert_eq|].
  split; [by intros j Hj; rewrite lookup_insert_ne|]. split; [done|].
  assert (set_subtasks (insert sid
            {| subtask_task_id := subtask_task_id s; subtask_title := subtask_title s;
               subtask_completed :=
                 Some (Js.lnot (Some (Js.lnot (subtask_completed s)))) |})
            (set_subtasks (insert sid
               {| subtask_task_id := subtask_task_id s;
                  subtask_title := subtask_title s;
                  subtask_completed := Some (Js.lnot (subtask_completed s)) |}) (db c))
          = set_subtasks (insert sid
              {| subtask_task_id := subtask_task_id s; subtask_title := subtask_title s;
                 subtask_completed := Some (default false (subtask_completed s)) |})
              (db c)) as ->.
  { destruct c as [t q x n]; destruct t; simpl in *. unfold set_subtasks. simpl. f_equal.
    rewrite insert_insert_eq. unfold Js.lnot. simpl. by rewrite negb_involutive. }
  split; [done|]. intros [b Hb].
  destruct c as [t q x n]; destruct t; simpl in *. unfold set_subtasks. simpl. f_equal.
  apply insert_id. rewrite Hs. f_equal. destruct s; simpl in *. by subst.
Qed.

(** X20. Without a role on the list nothing of it can be read or
    changed through the task routes: the answer is 404, with the text of
    the route, and the tables stay as they are.  Where the request names
    the list, its id is in the range of INT. *)
Theorem tasks_need_a_role c (P : User) :
  tx c = Idle →
  (∀ lid, int4 lid → ¬ has_role (db c) (user_id P) lid →
     (∀ ti d pr dd tg,
        let r := Tasks.createTask no_faults P lid ti d pr dd tg c in
        r.1 = error_response 404 "List not found or access denied" ∧ db r.2 = db c)
     ∧ (let r := listTasks no_faults P lid c in
        r.1 = error_response 404 "List not found or access denied" ∧ db r.2 = db c))
  ∧ (∀ tid row, tasks (db c) !! tid = Some row →
       ¬ has_role (db c) (user_id P) (task_list_id row) →
       (∀ ti d pr dd co tg,
          let r := Tasks.updateTask no_faults P tid ti d pr dd co tg c in
          r.1 = error_response 404 "Task not found or access denied" ∧ db r.2 = db c)
       ∧ (let r := Tasks.toggleTask no_faults P tid c in
          r.1 = error_response 404 "Task not found or access denied" ∧ db r.2 = db c)
       ∧ (let r := Tasks.deleteTask no_faults P tid c in
          r.1 = error_response 404 "Task not found or access denied" ∧ db r.2 = db c)
       ∧ (∀ ti, let r := Tasks.createSubtask no_faults P tid ti c in
          r.1 = error_response 404 "Task not found or access denied" ∧ db r.2 = db c))
  ∧ (∀ sid s row, subtasks (db c) !! sid = Some s →
       tasks (db c) !! subtask_task_id s = Some row →
       ¬ has_role (db c) (user_id P) (task_list_id row) →
       (∀ ti co,
          let r := Tasks.updateSubtask no_faults P sid ti co c in
          r.1 = error_response 404 "Subtask not found or access denied" ∧ db r.2 = db c)
       ∧ (let r := Tasks.toggleSubtask no_faults P sid c in
          r.1 = error_response 404 "Subtask not found or access denied" ∧ db r.2 = db c)
       ∧ (let r := Tasks.deleteSubtask no_faults P sid c in
          r.1 = error_response 404 "Subtask not found or access denied"
          ∧ db r.2 = db c)).
Proof.
  at_idle. split; [|split].
  - intros lid _ Hno%select_owner_or_member_none. split; [intros ti d pr dd tg|];
      simpl; tasks_route; by rewrite Hno.
  - intros tid row Hrow Hno%select_owner_or_member_none.
    split; [intros ti d pr dd co tg|split; [|split; [|intros ti]]];
      simpl; tasks_route; rewrite Hrow; simpl; by rewrite Hno.
  - intros sid s row Hs Hrow Hno%select_owner_or_member_none.
    split; [intros ti co|split];
      simpl; tasks_route; rewrite Hs, Hrow; simpl; by rewrite Hno.
Qed.

(** ** The listing of tasks *)

Lemma tags_agg_none tid t : (∀ p, p ∈ task_tags t → p.1 ≠ tid) → tags_agg tid t = JNull.
Proof.
  intros Hno. unfold tags_agg, tags_of_task.
  assert (filter (λ p, p.1 = tid) (task_tags t) = ∅) as ->; [|by rewrite elements_empty].
  apply set_eq. intros p. rewrite elem_of_filter. split; [|by intros ?%elem_of_empty].
  intros [Hp Hin]. by destruct (Hno p Hin).
Qed.

(** X21. GET /tasks/list/:listId for a user with a role on the list: the
    rows are the tasks of the list, each with its columns but [list_id]
    and with the tags as the database aggregates them, in some order.  A
    task without tags therefore comes with [tags: null] here, while
    GET /tasks/:id gives it [tags: []]. *)
Theorem listTasks_spec c (P : User) lid :
  tx c = Idle →
  has_role (db c) (user_id P) lid →
  ∃ items,
    (listTasks no_faults P lid c).1
    = {| status := 200; body := JObj [("tasks", JArr items)] |}
    ∧ (∀ j, j ∈ items →
            ∃ tid row tagsj,
              tasks (db c) !! tid = Some row ∧ task_list_id row = lid
              ∧ same_up_to_order tagsj (tags_agg tid (db c))
              ∧ j = JObj (task_columns false (tid, row) ++ [("tags", tagsj)]))
    ∧ (∀ tid row, tasks (db c) !! tid = Some row → task_list_id row = lid →
         ∃ tagsj,
           same_up_to_order tagsj (tags_agg tid (db c))
           ∧ JObj (task_columns false (tid, row) ++ [("tags", tagsj)]) ∈ items)
    ∧ (∀ tid row, tasks (db c) !! tid = Some row → task_list_id row = lid →
         (∀ p, p ∈ task_tags (db c) → p.1 ≠ tid) →
         JObj (task_columns false (tid, row) ++ [("tags", JNull)]) ∈ items
         ∧ ∃ subs,
             (Tasks.getTask no_faults P tid c).1
             = {| status := 200;
                  body := JObj [("task",
                    JObj (task_columns true (tid, row)
                          ++ [("tags", JArr []); ("subtasks", JArr subs)]))] |}).
Proof.
  at_idle. intros Hrole.
  destruct (select_owner_or_member_role _ _ _ Hrole) as [prow Hprow].
  eexists. split; [|split; [|split]].
  - tasks_route. rewrite Hprow. simpl. reflexivity.
  - intros j. rewrite list_elem_of_fmap. unfold Lists.select_tasks_of_list.
    intros (x & -> & ([k row] & -> & Hin)%list_elem_of_fmap).
    rewrite elem_of_reverse, list_elem_of_filter, elem_of_by_id in Hin.
    destruct Hin as [Hl Hin]. exists k, row, (tags_agg k t).
    split_and!; try done. apply same_up_to_order_refl.
  - intros tid row Hrow Hl. exists (tags_agg tid t).
    split; [apply same_up_to_order_refl|].
    apply list_elem_of_fmap. unfold Lists.select_tasks_of_list.
    exists ((tid, row), tags_agg tid t). split; [done|].
    apply list_elem_of_fmap. exists (tid, row). split; [done|].
    by rewrite elem_of_reverse, list_elem_of_filter, elem_of_by_id.
  - intros tid row Hrow Hl Hno. split.
    + apply list_elem_of_fmap. exists ((tid, row), tags_agg tid t).
      split; [simpl; by rewrite tags_agg_none|].
      unfold Lists.select_tasks_of_list.
      apply list_elem_of_fmap. exists (tid, row). split; [done|].
      by rewrite elem_of_reverse, list_elem_of_filter, elem_of_by_id.
    + eexists. tasks_route. unfold Tasks.select_task_with_tags. rewrite Hrow. simpl.
      rewrite Hl, Hprow. simpl. by rewrite tags_agg_none.
Qed.

(** ** A failure after COMMIT *)


(** ** Requests that are refused *)

Ltac refused :=
  match goal with
  | |- tx ?c = Idle → _ => destruct c as [t q x n]; simpl; intros ->
  end;
  unfold_session; frame_cases; use_tag_step; simpl in *;
  try done; try congruence.

(** After COMMIT the task is there to be read back. *)
Ltac read_back :=
  intros _ _; exfalso;
  match goal with
  | H : Tasks.select_task_with_tags _ _ = [] |- _ =>
      unfold Tasks.select_task_with_tags in H; simpl in H;
      try match goal with E : tasks _ = _ |- _ => rewrite E in H end;
      rewrite lookup_insert_eq in H; discriminate
  end.

Lemma refused_lists faults (P : User) r c :
  tx c = Idle →
  match r with
  | TransferOwnership _ _ => faults = no_faults
  | _ => True
  end →
  status (handle faults P r c).1 ≠ 200 → status (handle faults P r c).1 ≠ 201 →
  match r with
  | GetList _ | CreateList _ | RenameList _ _ | DeleteList _ | AddMember _ _ _
  | UpdateMemberRole _ _ _ | RemoveMember _ _ | LeaveList _ | TransferOwnership _ _ =>
      db (handle faults P r c).2 = db c
  | _ => True
  end.
Proof.
  intros Hx Hf. revert Hx. destruct r; try done; simpl.
  - unfold Lists.getList. refused.
  - unfold Lists.createList, Lists.insert_list. refused.
  - unfold Lists.renameList, Lists.update_list_name. refused.
  - unfold Lists.deleteList, Lists.delete_list. refused.
  - destruct (validateListMember role); [|done].
    unfold ListMembers.addMember, ListMembers.checkListPermission, insert_list_member.
    refused.
  - unfold ListMembers.updateMemberRole, ListMembers.checkListPermission,
      ListMembers.update_member_role. refused.
  - unfold ListMembers.removeMember, ListMembers.checkListPermission, delete_list_member.
    refused.
  - unfold ListMembers.leaveList, delete_list_member. refused.
  - subst faults.
    unfold ListMembers.transferOwnership, ListMembers.checkListPermission,
      delete_list_member, insert_list_member, ListMembers.update_list_owner.
    refused.
Qed.

Lemma refused_tasks faults (P : User) r c :
  tx c = Idle →
  match r with
  | CreateTask _ _ _ _ _ _ | UpdateTask _ _ _ _ _ _ _ => faults = no_faults
  | _ => True
  end →
  status (handle faults P r c).1 ≠ 200 → status (handle faults P r c).1 ≠ 201 →
  match r with
  | GetTask _ | CreateTask _ _ _ _ _ _ | UpdateTask _ _ _ _ _ _ _ | ToggleTask _
  | DeleteTask _ | CreateSubtask _ _ | UpdateSubtask _ _ _ | ToggleSubtask _
  | DeleteSubtask _ =>
      db (handle faults P r c).2 = db c
  | _ => True
  end.
Proof.
  intros Hx Hf. revert Hx. destruct r; try done; simpl.
  - unfold Tasks.getTask, Tasks.checkListAccess. refused.
  - subst faults. unfold Tasks.createTask, Tasks.checkListAccess, Tasks.insert_task.
    refused; read_back.
  - subst faults.
    unfold Tasks.updateTask, Tasks.checkListAccess, Tasks.update_task, Tasks.select_task.
    refused; read_back.
  - unfold Tasks.toggleTask, Tasks.checkListAccess, Tasks.update_task_completed.
    refused.
  - unfold Tasks.deleteTask, Tasks.checkListAccess. refused.
  - unfold Tasks.createSubtask, Tasks.checkListAccess, Tasks.insert_subtask. refused.
  - unfold Tasks.updateSubtask, Tasks.checkListAccess, Tasks.update_subtask. refused.
  - unfold Tasks.toggleSubtask, Tasks.checkListAccess, Tasks.update_subtask_completed.
    refused.
  - unfold Tasks.deleteSubtask, Tasks.checkListAccess. refused.
Qed.

(** X23. A request that is not answered with 200 or 201 leaves the tables
    as they were.  For the routes that send their last write as their
    last statement this holds whichever statements fail; for the three
    routes that work in a transaction it holds when no statement fails
    but by a constraint of the schema. *)
Theorem refused_requests_change_nothing faults (P : User) r c :
  tx c = Idle →
  match r with
  | TransferOwnership _ _ | CreateTask _ _ _ _ _ _ | UpdateTask _ _ _ _ _ _ _ =>
      faults = no_faults
  | _ => True
  end →
  status (handle faults P r c).1 ≠ 200 → status (handle faults P r c).1 ≠ 201 →
  db (handle faults P r c).2 = db c.
Proof.
  intros Hx Hf H200 H201.
  pose proof (refused_lists faults P r c Hx) as Hl.
  pose proof (refused_tasks faults P r c Hx) as Ht.
  destruct r; first [by apply Hl|by apply Ht].
Qed.

(** ** The middleware *)

Lemma split_space_no_space s : has_space s = false → Auth.split_space s = [s].
Proof.
  induction s as [|a s IH]; simpl; [done|].
  intros [Ha Hs]%orb_false_iff. rewrite Ha, (IH Hs). done.
Qed.

Lemma split_space_app w r :
  has_space w = false →
  Auth.split_space (w +:+ String " " r) = w :: Auth.split_space r.
Proof.
  induction w as [|a w IH]; simpl; [done|].
  intros [Ha Hw]%orb_false_iff. rewrite Ha, (IH Hw). done.
Qed.

(** X24. The token is the second word of the Authorization header,
    whatever the first word is: a header of a scheme word, a space and a
    token without spaces gives the token, with 'Bearer' as with any other
    word or none; a header without a space, a bare token for one, gives
    no token, and neither does a missing header. *)
Theorem token_of_header :
  (∀ scheme tok, has_space scheme = false → has_space tok = false →
     Auth.token_of (Some (scheme +:+ String " " tok)) = Some tok)
  ∧ (∀ h, has_space h = false → Auth.no_token (Auth.token_of (Some h)) = true)
  ∧ Auth.no_token (Auth.token_of None) = true.
Proof.
  split; [|split; [|done]].
  - intros scheme tok Hs Ht. unfold Auth.token_of.
    assert (Js.truthy (scheme +:+ String " " tok) = true) as ->.
    { by destruct scheme. }
    by rewrite (split_space_app _ _ Hs), (split_space_no_space _ Ht).
  - intros h Hh. unfold Auth.token_of. destruct (Js.truthy h) eqn:E.
    + by rewrite (split_space_no_space _ Hh).
    + simpl. by rewrite E.
Qed.

Lemma no_token_false tok : Auth.no_token tok = false → ∃ s, tok = Some s ∧ s ≠ EmptyString.
Proof.
  destruct tok as [s|]; [|done]. simpl. intros E%negb_false_iff.
  exists s. split; [done|]. by intros ->.
Qed.

Lemma no_token_some s : s ≠ EmptyString → Auth.no_token (Some s) = false.
Proof. intros Hs. simpl. by rewrite (truthy_nonempty _ Hs). Qed.

(** X25. [authenticateToken] lets a request through exactly when the
    header carries a token that verifies and a user with the id of its
    payload is registered; the principal it stores is that user's row.
    Without a token the answer is 401, and with a token that does not
    verify 403, both before any statement is sent; a token of a user who
    is not registered gives 401; and when the SELECT fails, the answer
    is 403 as for a bad token, not 500. *)
Theorem authenticateToken_spec jwt_verify h c :
  tx c = Idle →
  (∀ u, (Auth.authenticateToken no_faults jwt_verify h c).1 = inr u
        ↔ ∃ tok, Auth.token_of h = Some tok ∧ tok ≠ EmptyString
                 ∧ jwt_verify tok = Some (user_id u)
                 ∧ head (filter (λ v, user_id v = user_id u) (users (db c))) = Some u)
  ∧ (∀ u, (Auth.authenticateToken no_faults jwt_verify h c).1 = inr u →
          u ∈ users (db c))
  ∧ (∀ faults, Auth.no_token (Auth.token_of h) = true →
       Auth.authenticateToken faults jwt_verify h c
       = (inl (error_response 401 "Access token required"), c))
  ∧ (∀ faults tok, Auth.token_of h = Some tok → tok ≠ EmptyString →
       (jwt_verify tok = None →
        Auth.authenticateToken faults jwt_verify h c
        = (inl (error_response 403 "Invalid or expired token"), c))
       ∧ (∀ uid, jwt_verify tok = Some uid →
            (uid ∉ user_id <$> users (db c) →
             (Auth.authenticateToken no_faults jwt_verify h c).1
             = inl (error_response 401 "Invalid token - user not found"))
            ∧ (faults (issued c) = true →
               (Auth.authenticateToken faults jwt_verify h c).1
               = inl (error_response 403 "Invalid or expired token")))).
Proof.
  destruct c as [t q x n]. simpl. intros ->.
  assert (∀ u, (Auth.authenticateToken no_faults jwt_verify h
                  {| db := t; seqs := q; tx := Idle; issued := n |}).1 = inr u
               ↔ ∃ tok, Auth.token_of h = Some tok ∧ tok ≠ EmptyString
                        ∧ jwt_verify tok = Some (user_id u)
                        ∧ head (filter (λ v, user_id v = user_id u) (users t)) = Some u)
    as Hiff.
  { intros u. unfold Auth.authenticateToken. split.
    - destruct (Auth.no_token _) eqn:E; [done|].
      apply no_token_false in E as (tok & -> & Htok). simpl.
      destruct (jwt_verify tok) as [uid|] eqn:Ev; [|done].
      unfold query, select, no_faults, Auth.select_user_by_id. simpl.
      destruct (filter _ (users t)) as [|v vs] eqn:Ef; simpl; [done|]. intros [= ->].
      assert (u ∈ filter (λ u, user_id u = uid) (users t)) as [Hid _]%list_elem_of_filter
        by (rewrite Ef; by left).
      exists tok. subst uid. by rewrite Ef.
    - intros (tok & -> & Htok & Ev & Hhead). rewrite (no_token_some _ Htok). simpl.
      rewrite Ev. unfold query, select, no_faults, Auth.select_user_by_id. simpl.
      destruct (filter _ (users t)); simpl in *; by simplify_eq. }
  split; [done|]. split; [|split; [|intros faults tok Htok Hne; split; [|intros uid Ev; split]]].
  - intros u (tok & _ & _ & _ & Hhead)%Hiff.
    destruct (filter _ (users t)) as [|v vs] eqn:Ef; simpl in *; simplify_eq.
    assert (u ∈ filter (λ v, user_id v = user_id u) (users t)) as [_ ?]%list_elem_of_filter
      by (rewrite Ef; by left). done.
  - intros faults E. unfold Auth.authenticateToken. by rewrite E.
  - intros Ev. unfold Auth.authenticateToken. rewrite Htok, (no_token_some _ Hne). simpl.
    by rewrite Ev.
  - intros Hno. unfold Auth.authenticateToken. rewrite Htok, (no_token_some _ Hne). simpl.
    rewrite Ev. unfold query, select, no_faults, Auth.select_user_by_id. simpl.
    rewrite filter_none; [done|]. intros v Hv E. apply Hno.
    apply list_elem_of_fmap. by exists v.
  - intros Hf. unfold Auth.authenticateToken. rewrite Htok, (no_token_some _ Hne). simpl.
    rewrite Ev. unfold query. simpl. by rewrite Hf.
Qed.

(** X26. [optionalAuth] stores a user exactly when [authenticateToken]
    would let the request through, and then the same row; the two leave
    the session in the same state.  This holds under every fault plan. *)
Theorem optionalAuth_agrees faults jwt_verify h c :
  (∀ u, (Auth.optionalAuth faults jwt_verify h c).1 = Some u
        ↔ (Auth.authenticateToken faults jwt_verify h c).1 = inr u)
  ∧ (Auth.optionalAuth faults jwt_verify h c).2
    = (Auth.authenticateToken faults jwt_verify h c).2.
Proof.
  unfold Auth.optionalAuth, Auth.authenticateToken.
  destruct (Auth.no_token _); [done|].
  destruct (jwt_verify _); [|done].
  destruct (query _ _ c) as [[[|v vs]|e] c']; simpl; split; try done;
    intros u; split; by intros [= ->].
Qed.

(** ** Tag names are kept trimmed and in lower case *)

Lemma is_white_lower a : Js.is_white (Js.lower_ascii a) = Js.is_white a.
Proof. by destruct a as [[] [] [] [] [] [] [] []]. Qed.

Lemma trimStart_lower s : Js.trimStart (Js.toLowerCase s) = Js.toLowerCase (Js.trimStart s).
Proof.
  induction s as [|a s IH]; simpl; [done|].
  rewrite is_white_lower. by destruct (Js.is_white a).
Qed.

Lemma trimEnd_lower s : Js.trimEnd (Js.toLowerCase s) = Js.toLowerCase (Js.trimEnd s).
Proof.
  induction s as [|a s IH]; simpl; [done|].
  rewrite IH, is_white_lower. destruct (Js.trimEnd s); simpl; [|done].
  by destruct (Js.is_white a).
Qed.

Lemma trimEnd_idemp s : Js.trimEnd (Js.trimEnd s) = Js.trimEnd s.
Proof.
  induction s as [|a s IH]; simpl; [done|].
  destruct (Js.trimEnd s) as [|b r] eqn:E; simpl.
  - destruct (Js.is_white a) eqn:Ha; simpl; [done|]. by rewrite Ha.
  - simpl in IH. by rewrite IH.
Qed.

(** A string that does not begin with white space. *)
Lemma trimStart_fixed s :
  match s with String a _ => Js.is_white a = false | EmptyString => True end →
  Js.trimStart s = s.
Proof. destruct s as [|a r]; simpl; [done|]. by intros ->. Qed.

Lemma trimStart_head s :
  match Js.trimStart s with
  | String a _ => Js.is_white a = false
  | EmptyString => True
  end.
Proof.
  induction s as [|a s IH]; simpl; [done|].
  by destruct (Js.is_white a) eqn:E; simpl.
Qed.

Lemma trimEnd_head s :
  match s with String a _ => Js.is_white a = false | EmptyString => True end →
  match Js.trimEnd s with
  | String a _ => Js.is_white a = false
  | EmptyString => True
  end.
Proof.
  destruct s as [|a r]; simpl; [done|]. intros Ha.
  destruct (Js.trimEnd r); simpl; [by rewrite Ha|done].
Qed.

Lemma trim_idemp s : Js.trim (Js.trim s) = Js.trim s.
Proof.
  unfold Js.trim.
  rewrite (trimStart_fixed (Js.trimEnd (Js.trimStart s))).
  - apply trimEnd_idemp.
  - apply trimEnd_head, trimStart_head.
Qed.

Lemma trim_lower s : Js.trim (Js.toLowerCase s) = Js.toLowerCase (Js.trim s).
Proof. unfold Js.trim. by rewrite trimStart_lower, trimEnd_lower. Qed.

Lemma normal_idemp s :
  Js.toLowerCase (Js.trim (Js.toLowerCase (Js.trim s))) = Js.toLowerCase (Js.trim s).
Proof. by rewrite trim_lower, toLowerCase_idemp, trim_idemp. Qed.

Lemma upsert_tag_tags x : stmt_tags (Tasks.upsert_tag (Js.toLowerCase (Js.trim x))).
Proof.
  intros t q a t' q' E g. unfold Tasks.upsert_tag in E.
  repeat case_match; simplify_eq; simpl; [|by left].
  intros [?|Hg%list_elem_of_singleton]%elem_of_app; [by left|right].
  subst g. simpl. apply normal_idemp.
Qed.

(** Every other statement leaves the tags alone. *)
Ltac keeps_tags :=
  let E := fresh "E" in
  intros ? ? ? ? ? E ?;
  unfold select, insert_list_member, delete_list_member, Lists.insert_list,
    Lists.update_list_name, Lists.delete_list, ListMembers.update_member_role,
    ListMembers.update_list_owner, Tasks.insert_task, Tasks.insert_task_tag,
    Tasks.delete_task_tags, Tasks.update_task, Tasks.update_task_completed,
    Tasks.delete_task, Tasks.insert_subtask, Tasks.update_subtask,
    Tasks.update_subtask_completed, Tasks.delete_subtask in E;
  repeat case_match; simplify_eq; simpl; by left.

Section TagsNormal.

Variable faults : nat → bool.

Lemma tags_normal_query {A} (st : Stmt A) :
  stmt_tags st → keeps tags_normal (query faults st).
Proof.
  intros Hst [t q x n] [Hi Hs]. unfold query, failed, sent. simpl in *.
  destruct (faults n); simpl; [by destruct x|].
  destruct x as [|s|s]; simpl; [| |done];
    (destruct (st t q) as [e|[[a t'] q']] eqn:E; simpl; [done|]);
    (split; simpl; [|done]); intros g [?|?]%(Hst _ _ _ _ _ E); auto.
Qed.

Lemma tags_normal_BEGIN : keeps tags_normal (BEGIN faults).
Proof.
  intros [t q x n] [Hi Hs]. unfold BEGIN, failed, sent. simpl in *.
  destruct (faults n); simpl; by destruct x.
Qed.

Lemma tags_normal_COMMIT : keeps tags_normal (COMMIT faults).
Proof.
  intros [t q x n] [Hi Hs]. unfold COMMIT, failed. simpl in *.
  destruct (faults n); simpl; by destruct x.
Qed.

Lemma tags_normal_ROLLBACK : keeps tags_normal (ROLLBACK faults).
Proof.
  intros [t q x n] [Hi Hs]. unfold ROLLBACK, failed, sent. simpl in *.
  destruct (faults n); simpl; by destruct x.
Qed.

End TagsNormal.

#[local] Hint Resolve tags_normal_query tags_normal_BEGIN tags_normal_COMMIT
  tags_normal_ROLLBACK upsert_tag_tags : keeps.
#[local] Hint Extern 1 (stmt_tags _) => keeps_tags : keeps.

Lemma tags_normal_createTask_tags faults tid names :
  keeps tags_normal (Tasks.createTask_tags faults tid names).
Proof. induction names; simpl; walk. Qed.

Lemma tags_normal_updateTask_tags faults tid names :
  keeps tags_normal (Tasks.updateTask_tags faults tid names).
Proof. induction names; simpl; walk. Qed.

#[local] Hint Resolve tags_normal_createTask_tags tags_normal_updateTask_tags : keeps.

Lemma handle_tags_normal faults (P : User) r c :
  tags_normal c → tags_normal (handle faults P r c).2.
Proof.
  intros Hc. destruct r; simpl.
  - unfold Lists.getList. walk_route.
  - unfold Lists.createList. walk_route.
  - unfold Lists.renameList. walk_route.
  - unfold Lists.deleteList. walk_route.
  - case_match; [|done].
    unfold ListMembers.addMember, ListMembers.checkListPermission. walk_route.
  - unfold ListMembers.updateMemberRole, ListMembers.checkListPermission. walk_route.
  - unfold ListMembers.removeMember, ListMembers.checkListPermission. walk_route.
  - unfold ListMembers.leaveList. walk_route.
  - unfold ListMembers.transferOwnership, ListMembers.checkListPermission. walk_route.
  - unfold Tasks.getTask, Tasks.checkListAccess. walk_route.
  - unfold Tasks.createTask, Tasks.checkListAccess. walk_route.
  - unfold Tasks.updateTask, Tasks.checkListAccess. walk_route.
  - unfold Tasks.toggleTask, Tasks.checkListAccess. walk_route.
  - unfold Tasks.deleteTask, Tasks.checkListAccess. walk_route.
  - unfold Tasks.createSubtask, Tasks.checkListAccess. walk_route.
  - unfold Tasks.updateSubtask, Tasks.checkListAccess. walk_route.
  - unfold Tasks.toggleSubtask, Tasks.checkListAccess. walk_route.
  - unfold Tasks.deleteSubtask, Tasks.checkListAccess. walk_route.
Qed.

Lemma follows_tags_normal c c' : tags_normal c → follows c c' → tags_normal c'.
Proof.
  intros Hc. induction 1 as [|? ? ? ? _ IH|? ? ? _ IH|? ? ? ? _ IH|? ? ? ? _ IH|? ? ? ? _ IH].
  - done.
  - by apply handle_tags_normal.
  - unfold listLists. walk_route.
  - unfold listTasks, Tasks.checkListAccess. walk_route.
  - apply authenticateToken_keeps; [auto with keeps|done].
  - apply optionalAuth_keeps; [auto with keeps|done].
Qed.

(** X27. Every tag name that the routes store is trimmed and in lower
    case, whichever statements fail: with the UNIQUE constraint on the
    name, no two tags differ only in case or in blanks around the name. *)
Theorem tag_names_normalised us c :
  follows (initial us) c →
  ∀ g, g ∈ tags (db c) → Js.toLowerCase (Js.trim (tag_name g)) = tag_name g.
Proof.
  intros H. apply (follows_tags_normal (initial us)) in H as [H _]; [done|].
  split; [|done]. by intros g ?%elem_of_nil.
Qed.

(** ** A list with its tasks and their subtasks *)

Lemma filter_filter_impl {A} (P Q : A → Prop) `{∀ x, Decision (P x)}
    `{∀ x, Decision (Q x)} (l : list A) :
  (∀ x, P x → Q x) → filter P (filter Q l) = filter P l.
Proof.
  intros HPQ. induction l as [|x l IH]; [done|].
  rewrite !filter_cons. destruct (decide (Q x)) as [HQ|HQ].
  - rewrite filter_cons. destruct (decide (P x)); by rewrite IH.
  - rewrite IH. destruct (decide (P x)) as [HP|]; [|done]. by destruct (HQ (HPQ x HP)).
Qed.

Lemma tasksWithSubtasks_grouped (rows : list (Z * TaskRow * Json)) t :
  Lists.tasksWithSubtasks rows
    (Lists.select_subtasks_of_tasks ((λ row, row.1.1) <$> rows) t)
  = (λ row, JObj (task_columns false row.1
                  ++ [("tags", or_empty_array row.2);
                      ("subtasks",
                       JArr (subtask_json true <$>
                             Tasks.select_subtasks_of_task row.1.1 t))]))
    <$> rows.
Proof.
  unfold Lists.tasksWithSubtasks. apply list_fmap_ext. intros i row Hrow.
  do 7 f_equal. unfold Lists.select_subtasks_of_tasks, Tasks.select_subtasks_of_task.
  apply filter_filter_impl. intros s ->.
  apply list_elem_of_fmap. exists row. split; [done|].
  by apply list_elem_of_lookup_2 in Hrow.
Qed.

(** X28. GET /lists/:id for a user with a role: the list comes with its
    stored name and owner, the name of a registered user with the owner's
    id, the effective role of the user, and the tasks of the list, each
    with its tags, in some order, and with the subtasks that
    GET /tasks/:id shows for it: grouping the subtasks of all tasks by
    task loses none and adds none. *)
Theorem getList_spec c (P : User) lid l :
  tx c = Idle →
  lists (db c) !! lid = Some l →
  owner_id l ∈ user_id <$> users (db c) →
  has_role (db c) (user_id P) lid →
  ∃ u items,
    u ∈ users (db c) ∧ user_id u = owner_id l
    ∧ (Lists.getList no_faults P lid c).1
      = {| status := 200;
           body := JObj [("list",
             JObj [("id", JNum lid); ("name", JStr (list_name l));
                   ("owner_id", JNum (owner_id l));
                   ("owner_name", JStr (user_name u));
                   ("user_role",
                    json_opt (Lists.effectiveRole (user_id P) lid (db c)));
                   ("tasks", JArr items)])] |}
    ∧ Forall2
        (λ j row,
           ∃ tagsj,
             same_up_to_order tagsj (tags_agg row.1.1 (db c))
             ∧ j = JObj (task_columns false row.1
                         ++ [("tags", or_empty_array tagsj);
                             ("subtasks",
                              JArr (subtask_json true <$>
                                    Tasks.select_subtasks_of_task row.1.1 (db c)))]))
        items (Lists.select_tasks_of_list lid (db c)).
Proof.
  destruct c as [t q x n]. simpl. intros -> Hl Hown (l' & Hl' & Hacc). simplify_eq.
  destruct (filter_user_id_cons _ _ Hown) as (u & rest & Hf & Hu).
  assert (u ∈ users t) as Hin.
  { assert (u ∈ filter (λ u, user_id u = owner_id l) (users t)) as [_ ?]%list_elem_of_filter
      by (rewrite Hf; by left). done. }
  exists u, ((λ row, JObj (task_columns false row.1
                           ++ [("tags", or_empty_array row.2);
                               ("subtasks",
                                JArr (subtask_json true <$>
                                      Tasks.select_subtasks_of_task row.1.1 t))]))
             <$> Lists.select_tasks_of_list lid t).
  do 2 (split; [done|]).
  assert (bool_decide (owner_id l = user_id P)
          || bool_decide (is_Some (list_members t !! (lid, user_id P))) = true) as Hb.
  { apply orb_true_iff. destruct Hacc; [left|right]; by apply bool_decide_eq_true. }
  unfold Lists.getList, Lists.effectiveRole, Lists.accessCheck. unfold_session. simpl.
  rewrite Hl. simpl. rewrite Hb, Hf. simpl.
  pose proof (tasksWithSubtasks_grouped (Lists.select_tasks_of_list lid t) t) as Hgrp.
  assert (∀ row, row ∈ Lists.select_tasks_of_list lid t → row.2 = tags_agg row.1.1 t)
    as Htags.
  { unfold Lists.select_tasks_of_list. by intros row (kv & -> & _)%list_elem_of_fmap. }
  split.
  - destruct (Lists.select_tasks_of_list lid t) as [|row rows] eqn:E; simpl; [done|].
    simpl in Hgrp. by rewrite Hgrp.
  - apply Forall2_fmap_l, Forall_Forall2_diag, Forall_forall. intros row Hrin.
    exists row.2. split; [|done]. rewrite (Htags row Hrin). apply same_up_to_order_refl.
Qed.

(** ** Creating and deleting *)

Lemma gset_filter_all `{Countable K} (P : K → Prop) `{∀ x, Decision (P x)} (X : gset K) :
  (∀ x, x ∈ X → P x) → filter P X = X.
Proof.
  intros HP. apply set_eq. intros x. rewrite elem_of_filter. split; [by intros [_ ?]|].
  intros Hx. split; [by apply HP|done].
Qed.

(** X29. A list that is created and deleted again leaves the tables as
    they were. *)
Theorem createList_deleteList c (P : User) nm :
  tx c = Idle → integrity (db c) (seqs c) → P ∈ users (db c) →
  let created := Lists.createList no_faults P nm c in
  let deleted := Lists.deleteList no_faults P (lists_id_seq (seqs c)) created.2 in
  status created.1 = 201 ∧ status deleted.1 = 200 ∧ db deleted.2 = db c.
Proof.
  destruct c as [t q x n]. simpl. intros -> Hi HP.
  assert (lists t !! lists_id_seq q = None) as Hnew.
  { apply eq_None_not_Some. intros H%(list_ids_below _ _ Hi). lia. }
  unfold Lists.createList, Lists.insert_list. unfold_session. simpl.
  rewrite Hnew, (user_exists_elem_of _ _ HP). simpl.
  unfold Lists.deleteList, Lists.delete_list, select_owned_list. unfold_session. simpl.
  rewrite lookup_insert_eq. simpl. rewrite bool_decide_eq_true_2 by done. simpl.
  do 2 (split; [done|]). unfold delete_list_cascade. simpl.
  destruct t as [us ls ms ts ss gs lk]. simpl in *. f_equal.
  - rewrite delete_insert_eq. by apply delete_id.
  - apply map_filter_id. intros [j u] r Hm. simpl. intros ->.
    apply (fk_member_list _ _ Hi) in Hm as [? Hm]. simpl in Hm. congruence.
  - apply map_filter_id. intros tid row Hrow. simpl. intros E.
    apply (fk_task_list _ _ Hi) in Hrow as [? Hrow]. simpl in Hrow. congruence.
  - apply map_filter_id. intros sid s Hs. simpl.
    destruct (ts !! subtask_task_id s) as [row|] eqn:Hrow; simpl; [|done].
    intros [= E]. apply (fk_task_list _ _ Hi) in Hrow as [? Hrow]. simpl in Hrow.
    congruence.
  - apply gset_filter_all. intros p Hp. simpl.
    destruct (ts !! p.1) as [row|] eqn:Hrow; simpl; [|done].
    intros [= E]. apply (fk_task_list _ _ Hi) in Hrow as [? Hrow]. simpl in Hrow.
    congruence.
Qed.


(** ** Further examples on the sample database *)

Lemma with_task_after_shared : follows Sample.shared Sample.with_task.
Proof. unfold Sample.with_task. do 4 apply follows_handle. apply follows_refl. Qed.

Lemma shared_follows : follows (initial [Sample.ann; Sample.bob; Sample.cyd]) Sample.shared.
Proof. unfold Sample.shared. do 2 apply follows_handle. apply follows_refl. Qed.

Lemma with_task_follows :
  follows (initial [Sample.ann; Sample.bob; Sample.cyd]) Sample.with_task.
Proof.
  unfold Sample.with_task, Sample.shared. do 6 apply follows_handle. apply follows_refl.
Qed.

Lemma shared_integrity : integrity (db Sample.shared) (seqs Sample.shared).
Proof.
  pose proof (idle_sound (initial [Sample.ann; Sample.bob; Sample.cyd]) eq_refl
                (initial_integrity _)) as H.
  destruct (follows_sound _ _ _ H shared_follows) as (_ & Hi & _). exact Hi.
Qed.

Lemma with_task_integrity : integrity (db Sample.with_task) (seqs Sample.with_task).
Proof.
  pose proof (idle_sound (initial [Sample.ann; Sample.bob; Sample.cyd]) eq_refl
                (initial_integrity _)) as H.
  destruct (follows_sound _ _ _ H with_task_follows) as (_ & Hi & _). exact Hi.
Qed.

Lemma ann_has_role : has_role (db Sample.with_task) 1 1.
Proof. exists Sample.groceries. split; [vm_compute; reflexivity|by left]. Qed.

Lemma int4_1 : int4 1.
Proof. unfold int4. lia. Qed.

Lemma bob_cannot_manage : ¬ can_manage (db Sample.shared) 2 1.
Proof.
  intros (l & Hl & [Ho|Hr]).
  - vm_compute in Hl. injection Hl as <-. discriminate.
  - vm_compute in Hr. discriminate.
Qed.

(** The sample database with task 1 meets the constraints. *)
Lemma integrity_always_witness :
  integrity (db Sample.with_task) (seqs Sample.with_task).
Proof.
  apply (integrity_always [Sample.ann; Sample.bob; Sample.cyd] Sample.with_task).
  exact with_task_follows.
Defined.

(** List 1, there when Bob had just been added, is below the sequence
    after the four requests that follow. *)
Lemma ids_never_reused_witness : 1 < lists_id_seq (seqs Sample.with_task).
Proof.
  destruct (ids_never_reused Sample.shared Sample.with_task) as [H _].
  - reflexivity.
  - exact shared_integrity.
  - exact with_task_after_shared.
  - apply H. exists Sample.groceries. vm_compute. reflexivity.
Defined.



(** Ann deletes list 1; the tag "work" stays. *)
Lemma deleteList_spec_witness :
  let r := Lists.deleteList no_faults Sample.ann 1 Sample.with_task in
  lists (db r.2) = delete 1 (lists (db Sample.with_task))
  ∧ tags (db r.2) = tags (db Sample.with_task).
Proof.
  destruct (deleteList_spec Sample.with_task Sample.ann 1 eq_refl int4_1) as [H _].
  destruct (H Sample.groceries) as (_ & Hl & _ & _ & _ & _ & Hg & _).
  - vm_compute. reflexivity.
  - reflexivity.
  - split; [exact Hl|exact Hg].
Defined.




(** Bob deletes task 1; the tag "work" stays. *)
Lemma deleteTask_spec_witness :
  let r := Tasks.deleteTask no_faults Sample.bob 1 Sample.with_task in
  tasks (db r.2) = delete 1 (tasks (db Sample.with_task))
  ∧ tags (db r.2) = tags (db Sample.with_task).
Proof.
  destruct (deleteTask_spec Sample.with_task Sample.bob 1 Sample.milk)
    as (_ & Ht & _ & _ & Hg & _).
  - reflexivity.
  - vm_compute. reflexivity.
  - exact bob_has_role.
  - split; [exact Ht|exact Hg].
Defined.

(** Bob toggles subtask 1 twice. *)
Lemma toggleSubtask_involution_witness :
  let once := Tasks.toggleSubtask no_faults Sample.bob 1 Sample.with_task in
  db (Tasks.toggleSubtask no_faults Sample.bob 1 once.2).2 = db Sample.with_task.
Proof.
  destruct (toggleSubtask_involution Sample.with_task Sample.bob 1 Sample.skimmed
              Sample.milk) as (_ & _ & _ & _ & _ & _ & H).
  - reflexivity.
  - vm_compute. reflexivity.
  - vm_compute. reflexivity.
  - exact bob_has_role.
  - apply H. by eexists.
Defined.

(** Cyd, who has no role on list 1, tries to delete task 1 and to list
    the tasks of the list. *)
Lemma tasks_need_a_role_witness :
  let r := Tasks.deleteTask no_faults Sample.cyd 1 Sample.with_task in
  (r.1 = error_response 404 "Task not found or access denied"
   ∧ db r.2 = db Sample.with_task)
  ∧ (listTasks no_faults Sample.cyd 1 Sample.with_task).1
    = error_response 404 "List not found or access denied".
Proof.
  destruct (tasks_need_a_role Sample.with_task Sample.cyd eq_refl) as (Hl & H & _).
  split.
  - destruct (H 1 Sample.milk) as (_ & _ & Hdel & _).
    + vm_compute. reflexivity.
    + exact cyd_has_no_role.
    + exact Hdel.
  - destruct (Hl 1 int4_1 cyd_has_no_role) as [_ [Hr _]]. exact Hr.
Defined.

(** Bob lists the tasks of list 1. *)
Lemma listTasks_spec_witness :
  ∃ items,
    (listTasks no_faults Sample.bob 1 Sample.with_task).1
    = {| status := 200; body := JObj [("tasks", JArr items)] |}.
Proof.
  destruct (listTasks_spec Sample.with_task Sample.bob 1 eq_refl bob_has_role)
    as (items & Hr & _).
  exists items. exact Hr.
Defined.


(** Cyd's request to delete task 1 changes nothing. *)
Lemma refused_requests_change_nothing_witness :
  db (handle no_faults Sample.cyd (DeleteTask 1) Sample.with_task).2
  = db Sample.with_task.
Proof.
  apply (refused_requests_change_nothing no_faults Sample.cyd (DeleteTask 1)
           Sample.with_task).
  - reflexivity.
  - exact I.
  - vm_compute. discriminate.
  - vm_compute. discriminate.
Defined.

(** A verifier that accepts one token, for Bob. *)
Lemma authenticateToken_spec_witness :
  (Auth.authenticateToken no_faults
     (λ tok, if String.eqb tok "t2" then Some 2 else None)
     (Some "Bearer t2") Sample.shared).1 = inr Sample.bob.
Proof.
  destruct (authenticateToken_spec
              (λ tok, if String.eqb tok "t2" then Some 2 else None)
              (Some "Bearer t2") Sample.shared eq_refl) as (H & _).
  apply H. exists "t2". split; [reflexivity|]. split; [discriminate|].
  split; [reflexivity|]. vm_compute. reflexivity.
Defined.

(** The one tag of the sample database. *)
Lemma tag_names_normalised_witness :
  Js.toLowerCase (Js.trim (tag_name {| tag_id := 1; tag_name := "work" |}))
  = tag_name {| tag_id := 1; tag_name := "work" |}.
Proof.
  apply (tag_names_normalised [Sample.ann; Sample.bob; Sample.cyd] Sample.with_task
           with_task_follows {| tag_id := 1; tag_name := "work" |}).
  vm_compute. left.
Defined.

(** Bob reads list 1. *)
Lemma getList_spec_witness :
  status (Lists.getList no_faults Sample.bob 1 Sample.with_task).1 = 200.
Proof.
  destruct (getList_spec Sample.with_task Sample.bob 1 Sample.groceries)
    as (u & items & _ & _ & H & _).
  - reflexivity.
  - vm_compute. reflexivity.
  - apply (bool_decide_unpack _). vm_compute. exact I.
  - exact bob_has_role.
  - rewrite H. reflexivity.
Defined.

(** Cyd creates a list and deletes it. *)
Lemma createList_deleteList_witness :
  let created := Lists.createList no_faults Sample.cyd "Chores" Sample.shared in
  db (Lists.deleteList no_faults Sample.cyd (lists_id_seq (seqs Sample.shared))
        created.2).2
  = db Sample.shared.
Proof.
  destruct (createList_deleteList Sample.shared Sample.cyd "Chores") as (_ & _ & H).
  - reflexivity.
  - exact shared_integrity.
  - vm_compute. right. right. left.
  - exact H.
Defined.


(** Bob lists his lists while the statement fails. *)
Lemma reads_never_write_witness :
  db (listLists (fail_at 0) Sample.bob Sample.with_task).2 = db Sample.with_task.
Proof.
  destruct (reads_never_write (fail_at 0) Sample.bob Sample.with_task) as (_ & H & _).
  destruct H as [H _]. exact H.
Defined.

(** List 1 is among the lists of Bob. *)
Lemma listLists_rows_witness :
  ∃ row, row ∈ select_lists_of_user 2 (db Sample.shared) ∧ Lists.row_id row = 1.
Proof.
  destruct (listLists_rows (db Sample.shared) 2) as (H & _).
  apply H. split.
  - exists Sample.groceries. split; [vm_compute; reflexivity|].
    right. exists "member". vm_compute. reflexivity.
  - exists Sample.groceries. split; [vm_compute; reflexivity|].
    apply (bool_decide_unpack _). vm_compute. exact I.
Defined.

(** The usual header. *)
Lemma token_of_header_witness :
  Auth.token_of (Some "Bearer abc.def") = Some "abc.def".
Proof.
  destruct token_of_header as (H & _). exact (H "Bearer" "abc.def" eq_refl eq_refl).
Defined.

(** The verifier that accepts one token, for Bob. *)
Lemma optionalAuth_agrees_witness :
  (Auth.optionalAuth no_faults (λ tok, if String.eqb tok "t2" then Some 2 else None)
     (Some "Bearer t2") Sample.shared).1 = Some Sample.bob.
Proof.
  destruct (optionalAuth_agrees no_faults
              (λ tok, if String.eqb tok "t2" then Some 2 else None)
              (Some "Bearer t2") Sample.shared) as [H _].
  apply H. vm_compute. reflexivity.
Defined.
